(** * Chinchón engine: a shallow embedding of [chinchon/deck.go],
    [chinchon/actions.go] and the game-state orchestrator, with the
    properties of the engine's specification proved over it.

    Conventions of the embedding.
    - A Go [int] is a [Z]; every [+] of the source is [GoInt.add], the
      two's-complement addition on 64 bits.
    - A Go [map] is a stdpp [gmap]; reading an absent key yields the zero
      value, as in Go.  Maps are never [nil] where the source writes to them.
    - A nil-pointer dereference or an index out of range is the outcome
      [Panic]; a returned [error] is [Err]; both leave no new state.
    - Go does not fix the order in which [range] visits a map.  Where the
      result depends on that order (the players loop of [CloseRound], the
      score loop of [RunAction], [OpponentOf]) the order is an explicit
      argument and theorems quantify over it; where it does not, the loop
      runs over [map_to_list].
    - [rand.Shuffle] is the Fisher-Yates loop of the Go library, run on the
      draws of an explicit random source.
    - [json.RawMessage] values are kept as JSON documents ([json]).  The text
      layer of [encoding/json] is outside the repository; of it, the
      embedding keeps what changes a value on the way: [Marshal] coerces a
      string to valid UTF-8. *)

From Stdlib Require Import ZArith Lia Ascii String.
From stdpp Require Import base option gmap strings list fin_maps sorting.

Local Open Scope Z_scope.

(** ** Go's [int] *)

Module GoInt.

Definition min_int : Z := - 2 ^ 63.
Definition max_int : Z := 2 ^ 63 - 1.

(** The value of a mathematical integer once stored in 64 bits. *)
Definition wrap (z : Z) : Z := (z + 2 ^ 63) mod 2 ^ 64 - 2 ^ 63.

Definition add (a b : Z) : Z := wrap (a + b).

Definition is_int (z : Z) : Prop := min_int ≤ z ≤ max_int.

#[global] Instance is_int_dec z : Decision (is_int z).
Proof. unfold is_int. apply _. Defined.

End GoInt.

(** ** Outcomes of a call *)

(** The error values of the package.  [fmt.Errorf] wrappers keep the wrapped
    error; their message text is not kept. *)
Inductive error :=
| errActionNotPossible
| errGameIsEnded
| errNotYourTurn
| errCardNotInHand
| errDeckIsEmpty
| errDiscardPileIsEmpty
| errUnknownAction
| errJSON
| errTryingToRun (e : error)
| errAfterChecking (e : error).

Inductive result (A : Type) : Type :=
| Ok (a : A)
| Err (e : error)
| Panic.
Arguments Ok {A} a.
Arguments Err {A} e.
Arguments Panic {A}.

#[global] Instance result_ret : MRet result := λ A a, Ok a.
#[global] Instance result_bind : MBind result := λ A B f m,
  match m with
  | Ok a => f a
  | Err e => Err e
  | Panic => Panic
  end.

(** Dereference of a pointer that may be nil, or lookup that must hit. *)
Definition deref {A} (o : option A) : result A :=
  match o with
  | Some a => Ok a
  | None => Panic
  end.

(** ** JSON documents *)

Local Set Warnings "-register-all".

Inductive json :=
| JNull
| JBool (b : bool)
| JInt (z : Z)
| JReal (literal : string)
| JStr (s : string)
| JArr (items : list json)
| JObj (members : list (string * json)).

(** ** Cards and hands ([deck.go]) *)

Definition ORO : string := "oro".
Definition COPA : string := "copa".
Definition ESPADA : string := "espada".
Definition BASTO : string := "basto".

Record Card := MkCard { Suit : string; Number : Z }.

#[global] Instance Card_eq_dec : EqDecision Card.
Proof. solve_decision. Defined.

#[global] Instance Card_countable : Countable Card.
Proof.
  refine (inj_countable' (λ c, (Suit c, Number c)) (λ p, MkCard p.1 p.2) _).
  by intros [].
Defined.

(** [Card.PenaltyValue] *)
Definition PenaltyValue (c : Card) : Z :=
  if Number c >=? 10 then 10 else Number c.

Record Hand := MkHand { Cards : list Card }.

#[global] Instance Hand_eq_dec : EqDecision Hand.
Proof. solve_decision. Defined.

(** [Hand.DeepCopy] *)
Definition DeepCopy (h : Hand) : Hand := MkHand (Cards h).

(** [Hand.HasCard] *)
Definition HasCard (h : Hand) (c : Card) : bool :=
  existsb (λ card, bool_decide (card = c)) (Cards h).

(** [Hand.AddCard] *)
Definition AddCard (h : Hand) (card : Card) : Hand :=
  MkHand (Cards h ++ [card]).

(** The loop of [Hand.RemoveCard]: the first occurrence is cut out;
    [None] when the loop falls through. *)
Fixpoint remove_first (card : Card) (l : list Card) : option (list Card) :=
  match l with
  | [] => None
  | c :: l' =>
      if bool_decide (c = card) then Some l'
      else cons c <$> remove_first card l'
  end.

(** [Hand.RemoveCard] *)
Definition RemoveCard (h : Hand) (card : Card) : result Hand :=
  match remove_first card (Cards h) with
  | Some l => Ok (MkHand l)
  | None => Err errCardNotInHand
  end.

(** *** Grouping *)

(** [m[k] = append(m[k], card)] *)
Definition push_at `{Countable K} (k : K) (card : Card)
    (m : gmap K (list Card)) : gmap K (list Card) :=
  <[k := default [] (m !! k) ++ [card]]> m.

(** The [suitCards] map of [findRuns] and [IsChinchon]. *)
Definition suitCards_of (cs : list Card) : gmap string (list Card) :=
  foldl (λ m card, push_at (Suit card) card m) ∅ cs.

(** The [numberCards] map of [findSets]. *)
Definition numberCards_of (cs : list Card) : gmap Z (list Card) :=
  foldl (λ m card, push_at (Number card) card m) ∅ cs.

(** The body of the sorting loops: exchange positions [i] and [j] when
    [cards[i].Number > cards[j].Number]. *)
Definition swap_if_greater (i j : nat) (cards : list Card) : list Card :=
  match cards !! i, cards !! j with
  | Some ci, Some cj =>
      if Number ci >? Number cj then <[j := ci]> (<[i := cj]> cards) else cards
  | _, _ => cards
  end.

(** [for i := 0; i < len(cards)-1; i++ { for j := i + 1; j < len(cards); j++ ] *)
Definition sortByNumber (cards : list Card) : list Card :=
  foldl (λ cs i,
           foldl (λ cs j, swap_if_greater i j cs) cs
                 (seq (S i) (length cards - S i)))
        cards (seq 0 (length cards - 1)).

(** The inner loop of the run search: [rest] is [cards[j:]], [last] the last
    card of the run so far; the result is what the loop appends. *)
Fixpoint extend_run (last : Card) (rest : list Card) : list Card :=
  match rest with
  | [] => []
  | c :: rest' =>
      if Number c =? GoInt.add (Number last) 1
      then c :: extend_run c rest'
      else []
  end.

(** The run that starts at index [i]. *)
Definition run_from (cards : list Card) (i : nat) : list Card :=
  match drop i cards with
  | [] => []
  | c :: rest => c :: extend_run c rest
  end.

(** The runs found in the cards of one suit. *)
Definition runs_of_suit (cards : list Card) : list (list Card) :=
  if bool_decide (length cards < 3)%nat then []
  else
    let cards := sortByNumber cards in
    filter (λ run, 3 ≤ length run)%nat
           (run_from cards <$> seq 0 (length cards - 2)).

(** [Hand.findRuns] *)
Definition findRuns (h : Hand) : list (list Card) :=
  mbind (λ kv : string * list Card, runs_of_suit kv.2)
        (map_to_list (suitCards_of (Cards h))).

(** The [validSet] loop of [findSets]: no suit occurs twice. *)
Fixpoint distinct_suits (suits : gmap string bool) (cards : list Card) : bool :=
  match cards with
  | [] => true
  | card :: rest =>
      if default false (suits !! Suit card) then false
      else distinct_suits (<[Suit card := true]> suits) rest
  end.

(** [Hand.findSets] *)
Definition findSets (h : Hand) : list (list Card) :=
  mbind (λ kv : Z * list Card,
           if bool_decide (3 ≤ length kv.2)%nat && distinct_suits ∅ kv.2
           then [kv.2] else [])
        (map_to_list (numberCards_of (Cards h))).

(** [Hand.ValidGroups] *)
Definition ValidGroups (h : Hand) : list (list Card) :=
  findRuns h ++ findSets h.

(** The [consecutive] loop of [IsChinchon]. *)
Fixpoint consecutive (cards : list Card) : bool :=
  match cards with
  | [] => true
  | prev :: rest =>
      match rest with
      | [] => true
      | c :: _ =>
          if bool_decide (Number c ≠ GoInt.add (Number prev) 1) then false
          else consecutive rest
      end
  end.

(** [Hand.IsChinchon]: the first suit found with 7 cards decides. *)
Definition IsChinchon (h : Hand) : bool :=
  if bool_decide (length (Cards h) ≠ 7%nat) then false
  else
    match list_find (λ kv : string * list Card, length kv.2 = 7%nat)
                    (map_to_list (suitCards_of (Cards h))) with
    | Some (_, (_, cards)) => consecutive (sortByNumber cards)
    | None => false
    end.

(** The [groupedCards] map that [PenaltyPoints] and [CanClose] build. *)
Definition groupedCards_of (groups : list (list Card)) : gmap Card bool :=
  foldl (λ m group, foldl (λ m card, <[card := true]> m) m group) ∅ groups.

(** Reading a [map[Card]bool]: an absent key reads [false]. *)
Definition grouped (m : gmap Card bool) (card : Card) : bool :=
  default false (m !! card).

(** [Hand.PenaltyPoints] *)
Definition PenaltyPoints (h : Hand) (groups : list (list Card)) : Z :=
  let groupedCards := groupedCards_of groups in
  foldl (λ penalty card,
           if negb (grouped groupedCards card)
           then GoInt.add penalty (PenaltyValue card)
           else penalty)
        0 (Cards h).

(** *** The deck *)

(** The cards of [makeSpanishCards] before the shuffle, suit by suit. *)
Definition spanishCards : list Card :=
  suit ← [ORO; COPA; ESPADA; BASTO];
  i ← seqZ 1 12;
  [MkCard suit i].

(** [func(i, j int) { cards[i], cards[j] = cards[j], cards[i] }] *)
Definition swap_cards (i j : nat) (cards : list Card) : list Card :=
  match cards !! i, cards !! j with
  | Some ci, Some cj => <[j := ci]> (<[i := cj]> cards)
  | _, _ => cards
  end.

(** [rand.Shuffle(len(cards), swap)]: for [i] from [n-1] down to [1], swap
    positions [i] and [j], where [j] is drawn in [[0, i]].  [rnd i] is the
    raw draw of the random source at step [i]. *)
Definition Shuffle (rnd : nat → nat) (cards : list Card) : list Card :=
  foldl (λ cs i, swap_cards i (rnd i `mod` S i)%nat cs)
        cards (reverse (seq 1 (length cards - 1))).

(** [makeSpanishCards] *)
Definition makeSpanishCards (rnd : nat → nat) : list Card :=
  Shuffle rnd spanishCards.

(** [deck]; its [dealHandFunc] is always [defaultDealHand]. *)
Record deck := MkDeck { cards : list Card }.

Definition newDeck (rnd : nat → nat) : deck := MkDeck (makeSpanishCards rnd).

(** [deck.shuffle] *)
Definition shuffle (rnd : nat → nat) (d : deck) : deck :=
  MkDeck (makeSpanishCards rnd).

(** The loop of [defaultDealHand], [n] iterations left. *)
Fixpoint deal_loop (n : nat) (hand : Hand) (d : deck) : Hand * deck :=
  match n with
  | O => (hand, d)
  | S n' =>
      match cards d with
      | [] => deal_loop n' hand d
      | c :: rest => deal_loop n' (MkHand (Cards hand ++ [c])) (MkDeck rest)
      end
  end.

(** [deck.defaultDealHand] *)
Definition defaultDealHand (d : deck) : Hand * deck :=
  deal_loop 7 (MkHand []) d.

(** [deck.dealHand] *)
Definition dealHand (d : deck) : Hand * deck := defaultDealHand d.

(** [deck.drawCard] *)
Definition drawCard (d : deck) : result (Card * deck) :=
  match cards d with
  | [] => Err errDeckIsEmpty
  | card :: rest => Ok (card, MkDeck rest)
  end.

(** [deck.isEmpty] *)
Definition isEmpty (d : deck) : bool := bool_decide (length (cards d) = 0%nat).

(** [deck.remainingCards] *)
Definition remainingCards (d : deck) : Z := Z.of_nat (length (cards d)).

(** ** Actions and game state *)

Definition DRAW_FROM_DECK : string := "draw_from_deck".
Definition DRAW_FROM_DISCARD : string := "draw_from_discard".
Definition DISCARD_CARD : string := "discard_card".
Definition CLOSE_ROUND : string := "close_round".
Definition CONFIRM_ROUND_FINISHED : string := "confirm_round_finished".

Record act := MkAct { Name : string; PlayerID : Z }.

(** The five implementations of the [Action] interface. *)
Inductive Action :=
| ActionDrawFromDeck (a : act)
| ActionDrawFromDiscard (a : act)
| ActionDiscardCard (a : act) (card : Card)
| ActionClose (a : act)
| ActionConfirmRoundFinished (a : act).

Definition NewActionDrawFromDeck (playerID : Z) : Action :=
  ActionDrawFromDeck (MkAct DRAW_FROM_DECK playerID).
Definition NewActionDrawFromDiscard (playerID : Z) : Action :=
  ActionDrawFromDiscard (MkAct DRAW_FROM_DISCARD playerID).
Definition NewActionDiscardCard (card : Card) (playerID : Z) : Action :=
  ActionDiscardCard (MkAct DISCARD_CARD playerID) card.
Definition NewActionClose (playerID : Z) : Action :=
  ActionClose (MkAct CLOSE_ROUND playerID).
Definition NewActionConfirmRoundFinished (playerID : Z) : Action :=
  ActionConfirmRoundFinished (MkAct CONFIRM_ROUND_FINISHED playerID).

(** The embedded [act] of an action. *)
Definition act_of (a : Action) : act :=
  match a with
  | ActionDrawFromDeck a | ActionDrawFromDiscard a | ActionDiscardCard a _
  | ActionClose a | ActionConfirmRoundFinished a => a
  end.

Definition GetName (a : Action) : string := Name (act_of a).
Definition GetPlayerID (a : Action) : Z := PlayerID (act_of a).
Definition GetPriority (a : Action) : Z := 0.
Definition AllowLowerPriority (a : Action) : bool := false.

(** [Player]; [hand] is the pointer field [Hand], nil before the first deal. *)
Record Player := MkPlayer { hand : option Hand; Score : Z }.

Record ActionLog := MkActionLog { al_PlayerID : Z; al_Action : json }.

Record RoundLog := MkRoundLog {
  rl_HandsDealt : gmap Z Hand;
  rl_WinnerPlayerID : Z;
  rl_LoserPlayerID : Z;
  rl_PenaltyPoints : gmap Z Z;
  rl_ClosedByPlayerID : Z;
  rl_WasChinchon : bool;
  rl_ActionsLog : list ActionLog
}.

Record GameState := MkGameState {
  RoundNumber : Z;
  TurnPlayerID : Z;
  TurnOpponentPlayerID : Z;
  Players : gmap Z Player;
  DrawPile : deck;
  DiscardPile : list Card;
  PossibleActions : list json;
  IsRoundFinished : bool;
  IsGameEnded : bool;
  WinnerPlayerID : Z;
  LoserPlayerID : Z;
  RoundsLog : list RoundLog;
  RoundFinishedConfirmedPlayerIDs : gmap Z bool;
  RuleMaxPoints : Z;
  CurrentRoundClosedByPlayerID : Z;
  HasDrawnCard : bool
}.

(** Field assignments. *)
Definition set_RoundNumber (v : Z) (g : GameState) : GameState :=
  MkGameState v (TurnPlayerID g) (TurnOpponentPlayerID g) (Players g)
    (DrawPile g) (DiscardPile g) (PossibleActions g) (IsRoundFinished g)
    (IsGameEnded g) (WinnerPlayerID g) (LoserPlayerID g) (RoundsLog g)
    (RoundFinishedConfirmedPlayerIDs g) (RuleMaxPoints g)
    (CurrentRoundClosedByPlayerID g) (HasDrawnCard g).
Definition set_TurnPlayerID (v : Z) (g : GameState) : GameState :=
  MkGameState (RoundNumber g) v (TurnOpponentPlayerID g) (Players g)
    (DrawPile g) (DiscardPile g) (PossibleActions g) (IsRoundFinished g)
    (IsGameEnded g) (WinnerPlayerID g) (LoserPlayerID g) (RoundsLog g)
    (RoundFinishedConfirmedPlayerIDs g) (RuleMaxPoints g)
    (CurrentRoundClosedByPlayerID g) (HasDrawnCard g).
Definition set_TurnOpponentPlayerID (v : Z) (g : GameState) : GameState :=
  MkGameState (RoundNumber g) (TurnPlayerID g) v (Players g)
    (DrawPile g) (DiscardPile g) (PossibleActions g) (IsRoundFinished g)
    (IsGameEnded g) (WinnerPlayerID g) (LoserPlayerID g) (RoundsLog g)
    (RoundFinishedConfirmedPlayerIDs g) (RuleMaxPoints g)
    (CurrentRoundClosedByPlayerID g) (HasDrawnCard g).
Definition set_Players (v : gmap Z Player) (g : GameState) : GameState :=
  MkGameState (RoundNumber g) (TurnPlayerID g) (TurnOpponentPlayerID g) v
    (DrawPile g) (DiscardPile g) (PossibleActions g) (IsRoundFinished g)
    (IsGameEnded g) (WinnerPlayerID g) (LoserPlayerID g) (RoundsLog g)
    (RoundFinishedConfirmedPlayerIDs g) (RuleMaxPoints g)
    (CurrentRoundClosedByPlayerID g) (HasDrawnCard g).
Definition set_DrawPile (v : deck) (g : GameState) : GameState :=
  MkGameState (RoundNumber g) (TurnPlayerID g) (TurnOpponentPlayerID g)
    (Players g) v (DiscardPile g) (PossibleActions g) (IsRoundFinished g)
    (IsGameEnded g) (WinnerPlayerID g) (LoserPlayerID g) (RoundsLog g)
    (RoundFinishedConfirmedPlayerIDs g) (RuleMaxPoints g)
    (CurrentRoundClosedByPlayerID g) (HasDrawnCard g).
Definition set_DiscardPile (v : list Card) (g : GameState) : GameState :=
  MkGameState (RoundNumber g) (TurnPlayerID g) (TurnOpponentPlayerID g)
    (Players g) (DrawPile g) v (PossibleActions g) (IsRoundFinished g)
    (IsGameEnded g) (WinnerPlayerID g) (LoserPlayerID g) (RoundsLog g)
    (RoundFinishedConfirmedPlayerIDs g) (RuleMaxPoints g)
    (CurrentRoundClosedByPlayerID g) (HasDrawnCard g).
Definition set_PossibleActions (v : list json) (g : GameState) : GameState :=
  MkGameState (RoundNumber g) (TurnPlayerID g) (TurnOpponentPlayerID g)
    (Players g) (DrawPile g) (DiscardPile g) v (IsRoundFinished g)
    (IsGameEnded g) (WinnerPlayerID g) (LoserPlayerID g) (RoundsLog g)
    (RoundFinishedConfirmedPlayerIDs g) (RuleMaxPoints g)
    (CurrentRoundClosedByPlayerID g) (HasDrawnCard g).
Definition set_IsRoundFinished (v : bool) (g : GameState) : GameState :=
  MkGameState (RoundNumber g) (TurnPlayerID g) (TurnOpponentPlayerID g)
    (Players g) (DrawPile g) (DiscardPile g) (PossibleActions g) v
    (IsGameEnded g) (WinnerPlayerID g) (LoserPlayerID g) (RoundsLog g)
    (RoundFinishedConfirmedPlayerIDs g) (RuleMaxPoints g)
    (CurrentRoundClosedByPlayerID g) (HasDrawnCard g).
Definition set_IsGameEnded (v : bool) (g : GameState) : GameState :=
  MkGameState (RoundNumber g) (TurnPlayerID g) (TurnOpponentPlayerID g)
    (Players g) (DrawPile g) (DiscardPile g) (PossibleActions g)
    (IsRoundFinished g) v (WinnerPlayerID g) (LoserPlayerID g) (RoundsLog g)
    (RoundFinishedConfirmedPlayerIDs g) (RuleMaxPoints g)
    (CurrentRoundClosedByPlayerID g) (HasDrawnCard g).
Definition set_WinnerPlayerID (v : Z) (g : GameState) : GameState :=
  MkGameState (RoundNumber g) (TurnPlayerID g) (TurnOpponentPlayerID g)
    (Players g) (DrawPile g) (DiscardPile g) (PossibleActions g)
    (IsRoundFinished g) (IsGameEnded g) v (LoserPlayerID g) (RoundsLog g)
    (RoundFinishedConfirmedPlayerIDs g) (RuleMaxPoints g)
    (CurrentRoundClosedByPlayerID g) (HasDrawnCard g).
Definition set_LoserPlayerID (v : Z) (g : GameState) : GameState :=
  MkGameState (RoundNumber g) (TurnPlayerID g) (TurnOpponentPlayerID g)
    (Players g) (DrawPile g) (DiscardPile g) (PossibleActions g)
    (IsRoundFinished g) (IsGameEnded g) (WinnerPlayerID g) v (RoundsLog g)
    (RoundFinishedConfirmedPlayerIDs g) (RuleMaxPoints g)
    (CurrentRoundClosedByPlayerID g) (HasDrawnCard g).
Definition set_RoundsLog (v : list RoundLog) (g : GameState) : GameState :=
  MkGameState (RoundNumber g) (TurnPlayerID g) (TurnOpponentPlayerID g)
    (Players g) (DrawPile g) (DiscardPile g) (PossibleActions g)
    (IsRoundFinished g) (IsGameEnded g) (WinnerPlayerID g) (LoserPlayerID g) v
    (RoundFinishedConfirmedPlayerIDs g) (RuleMaxPoints g)
    (CurrentRoundClosedByPlayerID g) (HasDrawnCard g).
Definition set_RoundFinishedConfirmedPlayerIDs (v : gmap Z bool)
    (g : GameState) : GameState :=
  MkGameState (RoundNumber g) (TurnPlayerID g) (TurnOpponentPlayerID g)
    (Players g) (DrawPile g) (DiscardPile g) (PossibleActions g)
    (IsRoundFinished g) (IsGameEnded g) (WinnerPlayerID g) (LoserPlayerID g)
    (RoundsLog g) v (RuleMaxPoints g)
    (CurrentRoundClosedByPlayerID g) (HasDrawnCard g).
Definition set_RuleMaxPoints (v : Z) (g : GameState) : GameState :=
  MkGameState (RoundNumber g) (TurnPlayerID g) (TurnOpponentPlayerID g)
    (Players g) (DrawPile g) (DiscardPile g) (PossibleActions g)
    (IsRoundFinished g) (IsGameEnded g) (WinnerPlayerID g) (LoserPlayerID g)
    (RoundsLog g) (RoundFinishedConfirmedPlayerIDs g) v
    (CurrentRoundClosedByPlayerID g) (HasDrawnCard g).
Definition set_CurrentRoundClosedByPlayerID (v : Z) (g : GameState)
    : GameState :=
  MkGameState (RoundNumber g) (TurnPlayerID g) (TurnOpponentPlayerID g)
    (Players g) (DrawPile g) (DiscardPile g) (PossibleActions g)
    (IsRoundFinished g) (IsGameEnded g) (WinnerPlayerID g) (LoserPlayerID g)
    (RoundsLog g) (RoundFinishedConfirmedPlayerIDs g) (RuleMaxPoints g)
    v (HasDrawnCard g).
Definition set_HasDrawnCard (v : bool) (g : GameState) : GameState :=
  MkGameState (RoundNumber g) (TurnPlayerID g) (TurnOpponentPlayerID g)
    (Players g) (DrawPile g) (DiscardPile g) (PossibleActions g)
    (IsRoundFinished g) (IsGameEnded g) (WinnerPlayerID g) (LoserPlayerID g)
    (RoundsLog g) (RoundFinishedConfirmedPlayerIDs g) (RuleMaxPoints g)
    (CurrentRoundClosedByPlayerID g) v.

(** What a call cannot compute itself: the draws of the random source and
    the orders in which [range g.Players] yields the player ids. *)
Record Oracle := MkOracle {
  rnd : nat → nat;
  opp_order : list Z;
  close_order : list Z;
  score_order : list Z
}.

(** The keys that [range g.Players] yields, in the given order. *)
Definition range_Players (order : list Z) (g : GameState)
    : list (Z * Player) :=
  omap (λ id, pair id <$> Players g !! id) order.

(** The loop of [OpponentOf]. *)
Fixpoint first_other (ids : list Z) (playerID : Z) : Z :=
  match ids with
  | [] => -1
  | id :: rest =>
      if bool_decide (id ≠ playerID) then id else first_other rest playerID
  end.

(** [GameState.OpponentOf] *)
Definition OpponentOf (o : Oracle) (g : GameState) (playerID : Z) : Z :=
  first_other (range_Players (opp_order o) g).*1 playerID.

(** [GameState.changeTurn] *)
Definition changeTurn (g : GameState) : GameState :=
  set_HasDrawnCard false
    (set_TurnOpponentPlayerID (TurnPlayerID g)
       (set_TurnPlayerID (TurnOpponentPlayerID g) g)).

(** [GameState.GetTopDiscardCard] *)
Definition GetTopDiscardCard (g : GameState) : result Card :=
  match last (DiscardPile g) with
  | Some c => Ok c
  | None => Err errDiscardPileIsEmpty
  end.

(** [GameState.CanClose] *)
Definition CanClose (g : GameState) (playerID : Z) : result bool :=
  if IsRoundFinished g then Ok false
  else
    p ← deref (Players g !! playerID);
    match hand p with
    | None => Ok false
    | Some h =>
        if bool_decide (length (Cards h) ≠ 7%nat) then Ok false
        else
          let groupedCards := groupedCards_of (ValidGroups h) in
          let ungroupedCount :=
            foldl (λ n card,
                     if negb (grouped groupedCards card)
                     then GoInt.add n 1 else n)
                  0 (Cards h) in
          Ok (ungroupedCount <=? 1)
    end.

(** A loop whose body can fail. *)
Fixpoint fold_result {A B} (f : B → A → result B) (b : B) (l : list A)
    : result B :=
  match l with
  | [] => Ok b
  | a :: l' => b' ← f b a; fold_result f b' l'
  end.

(** [g.Players[id].Score += n] *)
Definition add_Score (id : Z) (n : Z) (g : GameState) : result GameState :=
  p ← deref (Players g !! id);
  Ok (set_Players
        (<[id := MkPlayer (hand p) (GoInt.add (Score p) n)]> (Players g)) g).

(** A method call that changes [g.Players[id].Hand] in place. *)
Definition update_Hand (id : Z) (f : Hand → result Hand) (g : GameState)
    : result GameState :=
  p ← deref (Players g !! id);
  h ← deref (hand p);
  h' ← f h;
  Ok (set_Players (<[id := MkPlayer (Some h') (Score p)]> (Players g)) g).

(** [g.RoundsLog[g.RoundNumber]] *)
Definition current_RoundLog (g : GameState) : result RoundLog :=
  if bool_decide (0 ≤ RoundNumber g)
  then deref (RoundsLog g !! Z.to_nat (RoundNumber g))
  else Panic.

(** An assignment to fields of [g.RoundsLog[g.RoundNumber]]. *)
Definition update_RoundLog (f : RoundLog → RoundLog) (g : GameState)
    : result GameState :=
  rl ← current_RoundLog g;
  Ok (set_RoundsLog (<[Z.to_nat (RoundNumber g) := f rl]> (RoundsLog g)) g).

Definition set_rl_WasChinchon (v : bool) (rl : RoundLog) : RoundLog :=
  MkRoundLog (rl_HandsDealt rl) (rl_WinnerPlayerID rl) (rl_LoserPlayerID rl)
    (rl_PenaltyPoints rl) (rl_ClosedByPlayerID rl) v (rl_ActionsLog rl).

Definition set_rl_ActionsLog (v : list ActionLog) (rl : RoundLog) : RoundLog :=
  MkRoundLog (rl_HandsDealt rl) (rl_WinnerPlayerID rl) (rl_LoserPlayerID rl)
    (rl_PenaltyPoints rl) (rl_ClosedByPlayerID rl) (rl_WasChinchon rl) v.

(** The players loop of [CloseRound]: [inl] when the loop returns from the
    function on a chinchón, [inr] with the penalties otherwise. *)
Fixpoint close_loop (o : Oracle) (players : list (Z * Player))
    (penaltyPoints : gmap Z Z) (g : GameState)
    : result (GameState + gmap Z Z) :=
  match players with
  | [] => Ok (inr penaltyPoints)
  | (playerID, player) :: rest =>
      match hand player with
      | None => close_loop o rest penaltyPoints g
      | Some h =>
          if IsChinchon h then
            let g := set_IsGameEnded true g in
            let g := set_WinnerPlayerID playerID g in
            let g := set_LoserPlayerID (OpponentOf o g playerID) g in
            g ← update_RoundLog (set_rl_WasChinchon true) g;
            Ok (inl g)
          else
            let validGroups := ValidGroups h in
            let penalty := PenaltyPoints h validGroups in
            close_loop o rest (<[playerID := penalty]> penaltyPoints) g
      end
  end.

(** [GameState.CloseRound] *)
Definition CloseRound (g : GameState) (closingPlayerID : Z) (o : Oracle)
    : result GameState :=
  let g := set_IsRoundFinished true g in
  let g := set_CurrentRoundClosedByPlayerID closingPlayerID g in
  r ← close_loop o (range_Players (close_order o) g) ∅ g;
  match r with
  | inl g => Ok g
  | inr penaltyPoints =>
      let player0Penalty := default 0 (penaltyPoints !! 0) in
      let player1Penalty := default 0 (penaltyPoints !! 1) in
      let '(roundWinner, roundLoser) :=
        if player0Penalty <? player1Penalty then (0, 1)
        else if player1Penalty <? player0Penalty then (1, 0)
        else (-1, -1) in
      g ← (if bool_decide (closingPlayerID ≠ -1)
              && bool_decide (roundWinner = closingPlayerID)
           then
             let opponentID := OpponentOf o g closingPlayerID in
             g ← add_Score opponentID
                   (default 0 (penaltyPoints !! opponentID)) g;
             if bool_decide (default 0 (penaltyPoints !! closingPlayerID) = 0)
             then add_Score opponentID 10 g
             else Ok g
           else
             fold_result (λ g '(playerID, penalty), add_Score playerID penalty g)
                         g (map_to_list penaltyPoints));
      update_RoundLog
        (λ rl, MkRoundLog (rl_HandsDealt rl) roundWinner roundLoser
                 penaltyPoints closingPlayerID (rl_WasChinchon rl)
                 (rl_ActionsLog rl))
        g
  end.

(** *** [IsPossible] *)

Definition ActionDrawFromDeck_IsPossible (a : act) (g : GameState)
    : result bool :=
  if IsRoundFinished g || IsGameEnded g then Ok false
  else if bool_decide (PlayerID a ≠ TurnPlayerID g) then Ok false
  else if HasDrawnCard g then Ok false
  else Ok (negb (isEmpty (DrawPile g))).

Definition ActionDrawFromDiscard_IsPossible (a : act) (g : GameState)
    : result bool :=
  if IsRoundFinished g || IsGameEnded g then Ok false
  else if bool_decide (PlayerID a ≠ TurnPlayerID g) then Ok false
  else if HasDrawnCard g then Ok false
  else Ok (bool_decide (0 < length (DiscardPile g))%nat).

Definition ActionDiscardCard_IsPossible (a : act) (card : Card)
    (g : GameState) : result bool :=
  if IsRoundFinished g || IsGameEnded g then Ok false
  else if bool_decide (PlayerID a ≠ TurnPlayerID g) then Ok false
  else if negb (HasDrawnCard g) then Ok false
  else
    p ← deref (Players g !! PlayerID a);
    h ← deref (hand p);
    Ok (HasCard h card).

Definition ActionClose_IsPossible (a : act) (g : GameState) : result bool :=
  if IsRoundFinished g || IsGameEnded g then Ok false
  else if bool_decide (PlayerID a ≠ TurnPlayerID g) then Ok false
  else if negb (HasDrawnCard g) then Ok false
  else CanClose g (PlayerID a).

Definition ActionConfirmRoundFinished_IsPossible (a : act) (g : GameState)
    : result bool :=
  if negb (IsRoundFinished g) || IsGameEnded g then Ok false
  else
    Ok (negb (default false (RoundFinishedConfirmedPlayerIDs g !! PlayerID a))).

Definition IsPossible (action : Action) (g : GameState) : result bool :=
  match action with
  | ActionDrawFromDeck a => ActionDrawFromDeck_IsPossible a g
  | ActionDrawFromDiscard a => ActionDrawFromDiscard_IsPossible a g
  | ActionDiscardCard a card => ActionDiscardCard_IsPossible a card g
  | ActionClose a => ActionClose_IsPossible a g
  | ActionConfirmRoundFinished a => ActionConfirmRoundFinished_IsPossible a g
  end.

(** *** [Run] *)

Definition ActionDrawFromDeck_Run (a : act) (g : GameState)
    : result GameState :=
  possible ← ActionDrawFromDeck_IsPossible a g;
  if negb possible then Err errActionNotPossible
  else
    '(card, d) ← drawCard (DrawPile g);
    let g := set_DrawPile d g in
    g ← update_Hand (PlayerID a) (λ h, Ok (AddCard h card)) g;
    Ok (set_HasDrawnCard true g).

Definition ActionDrawFromDiscard_Run (a : act) (g : GameState)
    : result GameState :=
  possible ← ActionDrawFromDiscard_IsPossible a g;
  if negb possible then Err errActionNotPossible
  else
    match last (DiscardPile g) with
    | None => Err errDiscardPileIsEmpty
    | Some card =>
        let g :=
          set_DiscardPile
            (take (length (DiscardPile g) - 1) (DiscardPile g)) g in
        g ← update_Hand (PlayerID a) (λ h, Ok (AddCard h card)) g;
        Ok (set_HasDrawnCard true g)
    end.

Definition ActionDiscardCard_Run (a : act) (card : Card) (g : GameState)
    : result GameState :=
  possible ← ActionDiscardCard_IsPossible a card g;
  if negb possible then Err errActionNotPossible
  else
    g ← update_Hand (PlayerID a) (λ h, RemoveCard h card) g;
    Ok (set_DiscardPile (DiscardPile g ++ [card]) g).

Definition ActionClose_Run (a : act) (g : GameState) (o : Oracle)
    : result GameState :=
  possible ← ActionClose_IsPossible a g;
  if negb possible then Err errActionNotPossible
  else CloseRound g (PlayerID a) o.

Definition ActionConfirmRoundFinished_Run (a : act) (g : GameState)
    : result GameState :=
  possible ← ActionConfirmRoundFinished_IsPossible a g;
  if negb possible then Err errActionNotPossible
  else
    Ok (set_RoundFinishedConfirmedPlayerIDs
          (<[PlayerID a := true]> (RoundFinishedConfirmedPlayerIDs g)) g).

Definition Run (action : Action) (g : GameState) (o : Oracle)
    : result GameState :=
  match action with
  | ActionDrawFromDeck a => ActionDrawFromDeck_Run a g
  | ActionDrawFromDiscard a => ActionDrawFromDiscard_Run a g
  | ActionDiscardCard a card => ActionDiscardCard_Run a card g
  | ActionClose a => ActionClose_Run a g o
  | ActionConfirmRoundFinished a => ActionConfirmRoundFinished_Run a g
  end.

Definition YieldsTurn (action : Action) (g : GameState) : bool :=
  match action with
  | ActionDrawFromDeck _ => false
  | ActionDrawFromDiscard _ => false
  | ActionDiscardCard _ _ => true
  | ActionClose _ => true
  | ActionConfirmRoundFinished _ => false
  end.

(** [act.Enrich]: by default, actions don't need to be enriched. *)
Definition Enrich (action : Action) (g : GameState) : unit := tt.

(** *** Legal moves *)

(** One iteration of the filtering loop of [CalculatePossibleActions]. *)
Definition keep_possible (g : GameState) (st : Z * list Action)
    (action : Action) : result (Z * list Action) :=
  let '(priority, possibleActions) := st in
  let _ := Enrich action g in
  possible ← IsPossible action g;
  if negb possible then Ok (priority, possibleActions)
  else if GetPriority action <? priority then Ok (priority, possibleActions)
  else
    let '(priority, possibleActions) :=
      if (GetPriority action >? priority) && negb (AllowLowerPriority action)
      then (GetPriority action, [])
      else (priority, possibleActions) in
    Ok (priority, possibleActions ++ [action]).

(** [GameState.CalculatePossibleActions] *)
Definition CalculatePossibleActions (g : GameState) : result (list Action) :=
  let draws :=
    if negb (HasDrawnCard g) && negb (IsRoundFinished g)
    then [NewActionDrawFromDeck (TurnPlayerID g);
          NewActionDrawFromDiscard (TurnPlayerID g)]
    else [] in
  discards ←
    (if HasDrawnCard g && negb (IsRoundFinished g)
     then
       p ← deref (Players g !! TurnPlayerID g);
       h ← deref (hand p);
       Ok ((λ card, NewActionDiscardCard card (TurnPlayerID g)) <$> Cards h)
     else Ok []);
  canClose ← CanClose g (TurnPlayerID g);
  let closes :=
    if canClose && HasDrawnCard g then [NewActionClose (TurnPlayerID g)]
    else [] in
  let confirms :=
    [NewActionConfirmRoundFinished (TurnPlayerID g);
     NewActionConfirmRoundFinished (TurnOpponentPlayerID g)] in
  let allActions := draws ++ discards ++ closes ++ confirms in
  st ← fold_result (keep_possible g) (0, []) allActions;
  Ok st.2.

(** [GameState.countActionsOfTurnPlayer] *)
Definition countActionsOfTurnPlayer (g : GameState) : result Z :=
  possibleActions ← CalculatePossibleActions g;
  Ok (foldl (λ count a,
               if bool_decide (GetPlayerID a = TurnPlayerID g)
               then GoInt.add count 1 else count)
            0 possibleActions).

(** *** Serialization

    What [encoding/json] does with the structs of the package, on documents:
    [Marshal] writes an object with one member per exported field, under the
    key of its tag, embedded structs first; [Unmarshal] into a struct accepts
    [null] (no effect) or an object, whose members are read in order, a
    member being stored in the field whose key it matches (case-insensitively)
    and skipped when there is none; a value of the wrong kind is an error. *)

Definition key_name : string := "name".
Definition key_playerID : string := "playerID".
Definition key_card : string := "card".
Definition key_suit : string := "suit".
Definition key_number : string := "number".

(** A Go string is a sequence of bytes; a JSON string is a sequence of
    characters.  [Marshal] writes the bytes of a string as UTF-8 and replaces
    every byte that does not belong to a valid encoding by U+FFFD, the
    replacement character; reading the document gives that string back. *)

Definition byte_in (lo hi : N) (b : ascii) : bool :=
  ((lo <=? N_of_ascii b) && (N_of_ascii b <=? hi))%N.

(** The table [first] of package [utf8] on the bytes that start an encoding
    of several bytes: the size of the encoding and the range of its second
    byte. *)
Definition utf8_first (s0 : ascii) : option (nat * (N * N)) :=
  if byte_in 0xC2 0xDF s0 then Some (2%nat, (0x80, 0xBF)%N)
  else if byte_in 0xE0 0xE0 s0 then Some (3%nat, (0xA0, 0xBF)%N)
  else if byte_in 0xE1 0xEC s0 then Some (3%nat, (0x80, 0xBF)%N)
  else if byte_in 0xED 0xED s0 then Some (3%nat, (0x80, 0x9F)%N)
  else if byte_in 0xEE 0xEF s0 then Some (3%nat, (0x80, 0xBF)%N)
  else if byte_in 0xF0 0xF0 s0 then Some (4%nat, (0x90, 0xBF)%N)
  else if byte_in 0xF1 0xF3 s0 then Some (4%nat, (0x80, 0xBF)%N)
  else if byte_in 0xF4 0xF4 s0 then Some (4%nat, (0x80, 0x8F)%N)
  else None.

(** The size that [utf8.DecodeRuneInString] returns on a string that is not
    empty, [None] standing for the error of size 1 (a byte that starts no
    valid encoding). *)
Definition rune_width (s : string) : option nat :=
  match s with
  | EmptyString => None
  | String s0 rest =>
      if byte_in 0x00 0x7F s0 then Some 1%nat
      else
        match utf8_first s0, rest with
        | Some (sz, (lo, hi)), String s1 rest1 =>
            if negb (byte_in lo hi s1) then None
            else if (sz <=? 2)%nat then Some 2%nat
            else
              match rest1 with
              | String s2 rest2 =>
                  if negb (byte_in 0x80 0xBF s2) then None
                  else if (sz <=? 3)%nat then Some 3%nat
                  else
                    match rest2 with
                    | String s3 _ =>
                        if byte_in 0x80 0xBF s3 then Some 4%nat else None
                    | EmptyString => None
                    end
              | EmptyString => None
              end
        | _, _ => None
        end
  end.

(** U+FFFD in UTF-8. *)
Definition replacement_character : string :=
  String (ascii_of_N 0xEF)
    (String (ascii_of_N 0xBF) (String (ascii_of_N 0xBD) EmptyString)).

(** The loop of the encoder over the bytes of a string; [keep] bytes of a
    valid encoding are still to be copied. *)
Fixpoint coerce_utf8 (keep : nat) (s : string) : string :=
  match s with
  | EmptyString => EmptyString
  | String b rest =>
      match keep with
      | S keep' => String b (coerce_utf8 keep' rest)
      | O =>
          match rune_width s with
          | Some w => String b (coerce_utf8 (w - 1) rest)
          | None => (replacement_character ++ coerce_utf8 0 rest)%string
          end
      end
  end.

(** The string that a reader finds in the document that [Marshal] wrote for
    the Go string [s]. *)
Definition json_string (s : string) : string := coerce_utf8 0 s.

(** [utf8.ValidString] *)
Fixpoint valid_from (keep : nat) (s : string) : bool :=
  match s with
  | EmptyString => true
  | String b rest =>
      match keep with
      | S keep' => valid_from keep' rest
      | O =>
          match rune_width s with
          | Some w => valid_from (w - 1) rest
          | None => false
          end
      end
  end.

Definition ValidString (s : string) : bool := valid_from 0 s.

Definition marshal_Card (c : Card) : json :=
  JObj [(key_suit, JStr (json_string (Suit c)));
        (key_number, JInt (Number c))].

Definition marshal_act (a : act) : list (string * json) :=
  [(key_name, JStr (json_string (Name a))); (key_playerID, JInt (PlayerID a))].

(** [SerializeAction] *)
Definition SerializeAction (action : Action) : json :=
  match action with
  | ActionDiscardCard a card =>
      JObj (marshal_act a ++ [(key_card, marshal_Card card)])
  | ActionDrawFromDeck a | ActionDrawFromDiscard a | ActionClose a
  | ActionConfirmRoundFinished a => JObj (marshal_act a)
  end.

(** [_serializeActions] *)
Definition _serializeActions (actions : list Action) : list json :=
  SerializeAction <$> actions.

Definition lower_ascii (c : ascii) : ascii :=
  let n := nat_of_ascii c in
  if (65 <=? n)%nat && (n <=? 90)%nat then ascii_of_nat (n + 32) else c.

Fixpoint lower_string (s : string) : string :=
  match s with
  | EmptyString => EmptyString
  | String c s' => String (lower_ascii c) (lower_string s')
  end.

Definition key_matches (key field : string) : bool :=
  bool_decide (lower_string key = lower_string field).

Definition decode_string (v : json) (old : string) : result string :=
  match v with
  | JStr s => Ok s
  | JNull => Ok old
  | _ => Err errJSON
  end.

Definition decode_int (v : json) (old : Z) : result Z :=
  match v with
  | JInt z => if bool_decide (GoInt.is_int z) then Ok z else Err errJSON
  | JNull => Ok old
  | _ => Err errJSON
  end.

(** [json.Unmarshal(doc, &s)] for a struct [s] whose fields are stored by
    [field]. *)
Definition Unmarshal {S} (field : string → json → S → result S)
    (doc : json) (s : S) : result S :=
  match doc with
  | JNull => Ok s
  | JObj members =>
      fold_result (λ s (m : string * json), field m.1 m.2 s) s members
  | _ => Err errJSON
  end.

Definition Card_field (k : string) (v : json) (c : Card) : result Card :=
  if key_matches k key_suit
  then s ← decode_string v (Suit c); Ok (MkCard s (Number c))
  else if key_matches k key_number
  then n ← decode_int v (Number c); Ok (MkCard (Suit c) n)
  else Ok c.

Definition act_field (k : string) (v : json) (a : act) : result act :=
  if key_matches k key_name
  then s ← decode_string v (Name a); Ok (MkAct s (PlayerID a))
  else if key_matches k key_playerID
  then n ← decode_int v (PlayerID a); Ok (MkAct (Name a) n)
  else Ok a.

(** The fields of [ActionDiscardCard]: those of [act], and [Card]. *)
Definition ActionDiscardCard_field (k : string) (v : json) (s : act * Card)
    : result (act * Card) :=
  if key_matches k key_card
  then c ← Unmarshal Card_field v s.2; Ok (s.1, c)
  else a ← act_field k v s.1; Ok (a, s.2).

(** The field of [struct { Name string `json:"name"` }]. *)
Definition actionName_field (k : string) (v : json) (name : string)
    : result string :=
  if key_matches k key_name then decode_string v name else Ok name.

(** [DeserializeAction] *)
Definition DeserializeAction (bs : json) : result Action :=
  actionName ← Unmarshal actionName_field bs EmptyString;
  if bool_decide (actionName = DRAW_FROM_DECK) then
    a ← Unmarshal act_field bs (MkAct EmptyString 0);
    Ok (ActionDrawFromDeck a)
  else if bool_decide (actionName = DRAW_FROM_DISCARD) then
    a ← Unmarshal act_field bs (MkAct EmptyString 0);
    Ok (ActionDrawFromDiscard a)
  else if bool_decide (actionName = DISCARD_CARD) then
    s ← Unmarshal ActionDiscardCard_field bs
          (MkAct EmptyString 0, MkCard EmptyString 0);
    Ok (ActionDiscardCard s.1 s.2)
  else if bool_decide (actionName = CLOSE_ROUND) then
    a ← Unmarshal act_field bs (MkAct EmptyString 0);
    Ok (ActionClose a)
  else if bool_decide (actionName = CONFIRM_ROUND_FINISHED) then
    a ← Unmarshal act_field bs (MkAct EmptyString 0);
    Ok (ActionConfirmRoundFinished a)
  else Err errUnknownAction.

(** *** Rounds *)

(** [g.Players[id].Hand = g.DrawPile.dealHand()] *)
Definition deal_to (id : Z) (g : GameState) : result GameState :=
  let '(h, d) := dealHand (DrawPile g) in
  let g := set_DrawPile d g in
  p ← deref (Players g !! id);
  Ok (set_Players (<[id := MkPlayer (Some h) (Score p)]> (Players g)) g).

(** The [handsDealt] map of [startNewRound]. *)
Definition handsDealt_of (players : gmap Z Player) : result (gmap Z Hand) :=
  fold_result (λ m (kv : Z * Player),
                 h ← deref (hand kv.2);
                 Ok (<[kv.1 := DeepCopy h]> m))
              ∅ (map_to_list players).

(** [GameState.startNewRound] *)
Definition startNewRound (g : GameState) (o : Oracle) : result GameState :=
  let g := set_DrawPile (shuffle (rnd o) (DrawPile g)) g in
  let g := set_RoundNumber (GoInt.add (RoundNumber g) 1) g in
  let g :=
    if bool_decide (RoundNumber g = 1) then set_TurnPlayerID 0 g
    else set_TurnPlayerID (OpponentOf o g (TurnPlayerID g)) g in
  let g := set_TurnOpponentPlayerID (OpponentOf o g (TurnPlayerID g)) g in
  g ← deal_to 0 g;
  g ← deal_to 1 g;
  let g :=
    if negb (isEmpty (DrawPile g)) then
      match drawCard (DrawPile g) with
      | Ok (topCard, d) => set_DiscardPile [topCard] (set_DrawPile d g)
      | _ => set_DiscardPile [MkCard EmptyString 0] g
      end
    else g in
  let g := set_IsRoundFinished false g in
  let g := set_CurrentRoundClosedByPlayerID (-1) g in
  let g := set_RoundFinishedConfirmedPlayerIDs ∅ g in
  let g := set_HasDrawnCard false g in
  handsDealt ← handsDealt_of (Players g);
  let g :=
    set_RoundsLog
      (RoundsLog g ++ [MkRoundLog handsDealt (-1) (-1) ∅ (-1) false []]) g in
  possibleActions ← CalculatePossibleActions g;
  Ok (set_PossibleActions (_serializeActions possibleActions) g).

(** The score loop of [RunAction]. *)
Definition score_loop (o : Oracle) (g : GameState) : GameState :=
  foldl (λ g (kv : Z * Player),
           let playerID := kv.1 in
           match Players g !! playerID with
           | Some p =>
               if Score p >=? RuleMaxPoints g then
                 set_WinnerPlayerID (OpponentOf o g playerID)
                   (set_LoserPlayerID playerID (set_IsGameEnded true g))
               else g
           | None => g
           end)
        g (range_Players (score_order o) g).

(** The end of [RunAction], from the score loop on: the game may end on
    the scores, then the legal moves are computed, for the other player when
    the player to act has none. *)
Definition finish_RunAction (o : Oracle) (g : GameState) : result GameState :=
  let g := score_loop o g in
  possibleActions ← CalculatePossibleActions g;
  count ← countActionsOfTurnPlayer g;
  if count =? 0 then
    let g := changeTurn g in
    possibleActions ← CalculatePossibleActions g;
    Ok (set_PossibleActions (_serializeActions possibleActions) g)
  else
    Ok (set_PossibleActions (_serializeActions possibleActions) g).

(** The two turn switches of [RunAction], within the round and after a
    first confirmation. *)
Definition switch_turn (action : Action) (g : GameState) : GameState :=
  let g :=
    if negb (IsGameEnded g) && negb (IsRoundFinished g)
       && YieldsTurn action g
    then
      set_HasDrawnCard false
        (set_TurnOpponentPlayerID (TurnPlayerID g)
           (set_TurnPlayerID (TurnOpponentPlayerID g) g))
    else g in
  if negb (IsGameEnded g) && IsRoundFinished g
     && bool_decide (size (RoundFinishedConfirmedPlayerIDs g) = 1%nat)
  then
    if default false (RoundFinishedConfirmedPlayerIDs g !! TurnPlayerID g)
    then changeTurn g else g
  else g.

(** The entry that [RunAction] appends to the log of the round, unless the
    action is a confirmation. *)
Definition log_action (action : Action) (g : GameState) : result GameState :=
  if bool_decide (GetName action ≠ CONFIRM_ROUND_FINISHED) then
    update_RoundLog
      (λ rl, set_rl_ActionsLog
               (rl_ActionsLog rl ++
                  [MkActionLog (TurnPlayerID g) (SerializeAction action)]) rl)
      g
  else Ok g.

(** [GameState.RunAction]; [None] is the nil action. *)
Definition RunAction (g : GameState) (action : option Action) (o : Oracle)
    : result GameState :=
  match action with
  | None => Ok g
  | Some action =>
      if IsGameEnded g then Err (errTryingToRun errGameIsEnded)
      else if negb (IsRoundFinished g)
              && bool_decide (GetPlayerID action ≠ TurnPlayerID g)
      then Err errNotYourTurn
      else
        possible ← IsPossible action g;
        if negb possible then Err (errTryingToRun errActionNotPossible)
        else
          g ← match Run action g o with
              | Err e => Err (errAfterChecking e)
              | r => r
              end;
          g ← log_action action g;
          if negb (IsGameEnded g) && IsRoundFinished g
             && bool_decide (size (RoundFinishedConfirmedPlayerIDs g) = 2%nat)
          then startNewRound g o
          else finish_RunAction o (switch_turn action g)
  end.

Definition DefaultMaxPoints : Z := 100.

(** [WithMaxPoints] *)
Definition WithMaxPoints (maxPoints : Z) : GameState → GameState :=
  set_RuleMaxPoints maxPoints.

(** The zero value of [RoundLog]. *)
Definition zero_RoundLog : RoundLog := MkRoundLog ∅ 0 0 ∅ 0 false [].

(** [New]; [rnd0] feeds the shuffle of [newDeck]. *)
Definition New (opts : list (GameState → GameState)) (rnd0 : nat → nat)
    (o : Oracle) : result GameState :=
  let gs :=
    {| RoundNumber := 0;
       TurnPlayerID := 0;
       TurnOpponentPlayerID := 0;
       Players := {[ 0 := MkPlayer None 0; 1 := MkPlayer None 0 ]};
       DrawPile := newDeck rnd0;
       DiscardPile := [];
       PossibleActions := [];
       IsRoundFinished := false;
       IsGameEnded := false;
       WinnerPlayerID := -1;
       LoserPlayerID := -1;
       RoundsLog := [zero_RoundLog];
       RoundFinishedConfirmedPlayerIDs := ∅;
       RuleMaxPoints := DefaultMaxPoints;
       CurrentRoundClosedByPlayerID := -1;
       HasDrawnCard := false |} in
  let gs := foldl (λ gs opt, opt gs) gs opts in
  startNewRound gs o.

(** *** The client's view *)

Record ClientGameState := MkClientGameState {
  cgs_RoundNumber : Z;
  cgs_TurnPlayerID : Z;
  cgs_YouPlayerID : Z;
  cgs_ThemPlayerID : Z;
  cgs_YourScore : Z;
  cgs_TheirScore : Z;
  cgs_YourHand : list Card;
  cgs_TheirHandSize : Z;
  cgs_TopDiscardCard : option Card;
  cgs_DrawPileSize : Z;
  cgs_PossibleActions : list json;
  cgs_IsGameEnded : bool;
  cgs_IsRoundFinished : bool;
  cgs_WinnerPlayerID : Z;
  cgs_LoserPlayerID : Z;
  cgs_LastActionLog : option ActionLog;
  cgs_RuleMaxPoints : Z;
  cgs_HasDrawnCard : bool
}.

(** [GameState.ToClientGameState] *)
Definition ToClientGameState (g : GameState) (youPlayerID : Z) (o : Oracle)
    : result ClientGameState :=
  let themPlayerID := OpponentOf o g youPlayerID in
  possibleActions ← CalculatePossibleActions g;
  let filteredPossibleActions :=
    filter (λ a, GetPlayerID a = youPlayerID) possibleActions in
  let topDiscardCard := last (DiscardPile g) in
  you ← deref (Players g !! youPlayerID);
  them ← deref (Players g !! themPlayerID);
  yourHand ← deref (hand you);
  theirHand ← deref (hand them);
  rl ← current_RoundLog g;
  Ok {| cgs_RoundNumber := RoundNumber g;
        cgs_TurnPlayerID := TurnPlayerID g;
        cgs_YouPlayerID := youPlayerID;
        cgs_ThemPlayerID := themPlayerID;
        cgs_YourScore := Score you;
        cgs_TheirScore := Score them;
        cgs_YourHand := Cards yourHand;
        cgs_TheirHandSize := Z.of_nat (length (Cards theirHand));
        cgs_TopDiscardCard := topDiscardCard;
        cgs_DrawPileSize := remainingCards (DrawPile g);
        cgs_PossibleActions := _serializeActions filteredPossibleActions;
        cgs_IsGameEnded := IsGameEnded g;
        cgs_IsRoundFinished := IsRoundFinished g;
        cgs_WinnerPlayerID := WinnerPlayerID g;
        cgs_LoserPlayerID := LoserPlayerID g;
        cgs_LastActionLog := last (rl_ActionsLog rl);
        cgs_RuleMaxPoints := RuleMaxPoints g;
        cgs_HasDrawnCard := HasDrawnCard g |}.

(** ** Reachable states and the vocabulary of the specification *)

(** [order] is an order in which [range] can yield the keys [keys]: each
    key once. *)
Definition order_ok (keys : gset Z) (order : list Z) : Prop :=
  NoDup order ∧ list_to_set order = keys.

Definition oracle_ok_for (keys : gset Z) (o : Oracle) : Prop :=
  order_ok keys (opp_order o) ∧ order_ok keys (close_order o)
  ∧ order_ok keys (score_order o).

(** The oracle presents orders of the players of [g]. *)
Definition oracle_ok (g : GameState) (o : Oracle) : Prop :=
  oracle_ok_for (dom (Players g)) o.

(** The states a client of the package can produce: [New] with
    [WithMaxPoints] options, then calls of [RunAction] that return nil. *)
Inductive reachable : GameState → Prop :=
| reachable_New (ms : list Z) (rnd0 : nat → nat) (o : Oracle) (g : GameState) :
    oracle_ok_for {[0; 1]} o →
    New (WithMaxPoints <$> ms) rnd0 o = Ok g →
    reachable g
| reachable_RunAction (g : GameState) (action : option Action) (o : Oracle)
    (g' : GameState) :
    reachable g →
    oracle_ok g o →
    RunAction g action o = Ok g' →
    reachable g'.

(** The cards in the hand of player [id] (none when there is no hand). *)
Definition hand_cards (g : GameState) (id : Z) : list Card :=
  match Players g !! id with
  | Some p => match hand p with Some h => Cards h | None => [] end
  | None => []
  end.

(** The score of player [id]. *)
Definition score_of (g : GameState) (id : Z) : Z :=
  match Players g !! id with
  | Some p => Score p
  | None => 0
  end.

(** Every card of the game: draw pile, discard pile and both hands. *)
Definition all_cards (g : GameState) : list Card :=
  cards (DrawPile g) ++ DiscardPile g ++ hand_cards g 0 ++ hand_cards g 1.

(** The numbers on the cards are values of Go's [int]. *)
Definition int_cards (cs : list Card) : Prop :=
  Forall (λ c, GoInt.is_int (Number c)) cs.

(** A state of the specification's data model: exactly the two players 0
    and 1, each with a hand; the player to act and the opponent are these
    two; the log has an entry for the current round. *)
Record wf_state (g : GameState) : Prop := MkWf {
  wf_players :
    ∃ h0 s0 h1 s1,
      Players g = {[ 0 := MkPlayer (Some h0) s0; 1 := MkPlayer (Some h1) s1 ]};
  wf_turn :
    (TurnPlayerID g = 0 ∧ TurnOpponentPlayerID g = 1)
    ∨ (TurnPlayerID g = 1 ∧ TurnOpponentPlayerID g = 0);
  wf_round :
    0 ≤ RoundNumber g ∧ (Z.to_nat (RoundNumber g) < length (RoundsLog g))%nat;
  wf_ints : int_cards (hand_cards g 0) ∧ int_cards (hand_cards g 1)
}.

(** *** Penalty points, as the specification words them *)

(** [penalty_value = number] if [number < 10], else [10]. *)
Definition penalty_value (c : Card) : Z :=
  if Number c <? 10 then Number c else 10.

(** A card is covered when at least one group of the list contains it. *)
Definition covered (groups : list (list Card)) (c : Card) : Prop :=
  Exists (λ group, c ∈ group) groups.

#[global] Instance covered_dec groups c : Decision (covered groups c).
Proof. unfold covered. apply _. Defined.

(** The mathematical sum of a list of integers. *)
Definition sumZ (l : list Z) : Z := foldr Z.add 0 l.

(** Sum of the penalty values of the cards of the hand that no group
    covers, as a Go [int]. *)
Definition penalty_spec (h : Hand) (groups : list (list Card)) : Z :=
  GoInt.wrap
    (sumZ (penalty_value <$> filter (λ c, ¬ covered groups c) (Cards h))).

(** *** Chinchón, as the specification words it *)

(** Seven consecutive cards of one suit, in any order. *)
Definition is_chinchon (cs : list Card) : Prop :=
  ∃ suit n, cs ≡ₚ MkCard suit <$> seqZ n 7.

(** The penalty that [CloseRound] computes for the hand of player [id]. *)
Definition penalty_of (g : GameState) (id : Z) : Z :=
  let h := MkHand (hand_cards g id) in
  PenaltyPoints h (ValidGroups h).

(** The entry of the current round in the log, when there is one. *)
Definition round_log (g : GameState) : option RoundLog :=
  RoundsLog g !! Z.to_nat (RoundNumber g).

(** *** A functional reading of the sorting loops, for the proofs *)

(** One pass of the inner loop from the card [x] held at position [i]: the
    card left at position [i] and the cards left behind it. *)
Fixpoint select_min (x : Card) (rest : list Card) : Card * list Card :=
  match rest with
  | [] => (x, [])
  | y :: rest' =>
      if Number x >? Number y
      then let '(m, r) := select_min y rest' in (m, x :: r)
      else let '(m, r) := select_min x rest' in (m, y :: r)
  end.

(** [n] passes of the outer loop. *)
Fixpoint selection_sort (n : nat) (l : list Card) : list Card :=
  match n, l with
  | S n', x :: rest =>
      let '(m, r) := select_min x rest in m :: selection_sort n' r
  | _, _ => l
  end.

(** Order of the cards by number. *)
Definition le_Number (a b : Card) : Prop := Number a ≤ Number b.

(** *** Vocabulary for the legal moves *)

(** The candidate list [allActions] of [CalculatePossibleActions], given the
    hand of the player to act and the outcome of [CanClose]. *)
Definition allActions_of (g : GameState) (h : Hand) (canClose : bool)
    : list Action :=
  (if negb (HasDrawnCard g) && negb (IsRoundFinished g)
   then [NewActionDrawFromDeck (TurnPlayerID g);
         NewActionDrawFromDiscard (TurnPlayerID g)]
   else [])
  ++ (if HasDrawnCard g && negb (IsRoundFinished g)
      then (λ card, NewActionDiscardCard card (TurnPlayerID g)) <$> Cards h
      else [])
  ++ (if canClose && HasDrawnCard g then [NewActionClose (TurnPlayerID g)]
      else [])
  ++ [NewActionConfirmRoundFinished (TurnPlayerID g);
      NewActionConfirmRoundFinished (TurnOpponentPlayerID g)].

(** [IsPossible] returns true. *)
Definition is_possible (g : GameState) (a : Action) : bool :=
  match IsPossible a g with
  | Ok true => true
  | _ => false
  end.

(** An action of the close variant. *)
Definition is_close (a : Action) : bool :=
  match a with
  | ActionClose _ => true
  | _ => false
  end.

(** The state [g] with other cards in the hand of player [id]. *)
Definition with_hand (id : Z) (h : Hand) (g : GameState) : GameState :=
  set_Players (alter (λ p, MkPlayer (Some h) (Score p)) id (Players g)) g.

(** *** What stays true along a game *)

(** The structure of the state and the conservation of the cards. *)
Record base_inv (g : GameState) : Prop := MkBaseInv {
  inv_players :
    ∃ h0 h1,
      Players g = {[ 0 := MkPlayer (Some h0) 0; 1 := MkPlayer (Some h1) 0 ]};
  inv_turn :
    (TurnPlayerID g = 0 ∧ TurnOpponentPlayerID g = 1)
    ∨ (TurnPlayerID g = 1 ∧ TurnOpponentPlayerID g = 0);
  inv_round : RoundNumber g = 1 ∧ length (RoundsLog g) = 2%nat;
  inv_not_finished : IsRoundFinished g = false;
  inv_cards : all_cards g ≡ₚ spanishCards
}.

(** The sizes of the hands while the game goes on. *)
Definition hands_inv (g : GameState) : Prop :=
  length (hand_cards g (TurnPlayerID g))
  = (if HasDrawnCard g then 8%nat else 7%nat)
  ∧ length (hand_cards g (TurnOpponentPlayerID g)) = 7%nat
  ∧ (HasDrawnCard g = false → DiscardPile g ≠ []).

Record game_inv (g : GameState) : Prop := MkGameInv {
  inv_base : base_inv g;
  inv_ended : IsGameEnded g = true → HasDrawnCard g = false;
  inv_hands : IsGameEnded g = false → hands_inv g;
  inv_actions :
    ∃ acts,
      CalculatePossibleActions g = Ok acts
      ∧ PossibleActions g = _serializeActions acts
}.

(** The number of cards in the game. *)
Definition count_cards (g : GameState) : nat :=
  (length (cards (DrawPile g)) + length (DiscardPile g)
   + length (hand_cards g 0) + length (hand_cards g 1))%nat.

(** *** Runs, as the rules word them *)

(** A run: cards of one suit whose numbers follow one another. *)
Definition is_run (r : list Card) : Prop :=
  ∃ suit n, r = MkCard suit <$> seqZ n (Z.of_nat (length r)).

(** *** The moves of a round, as the rules word them *)

(** What no draw and no discard changes. *)
Definition same_frame (g g' : GameState) : Prop :=
  RoundNumber g' = RoundNumber g
  ∧ IsRoundFinished g' = IsRoundFinished g
  ∧ IsGameEnded g' = IsGameEnded g
  ∧ WinnerPlayerID g' = WinnerPlayerID g
  ∧ LoserPlayerID g' = LoserPlayerID g
  ∧ RuleMaxPoints g' = RuleMaxPoints g
  ∧ score_of g' 0 = score_of g 0
  ∧ score_of g' 1 = score_of g 1
  ∧ hand_cards g' (TurnOpponentPlayerID g)
    = hand_cards g (TurnOpponentPlayerID g).

(** A draw moves the top card of a pile to the end of the hand of the player
    to act, who stays to act; a discard moves the first copy of the card
    from that hand to the top of the discard pile and passes the turn. *)
Definition move_effect (a : Action) (g g' : GameState) : Prop :=
  let t := TurnPlayerID g in
  let u := TurnOpponentPlayerID g in
  match a with
  | ActionDrawFromDeck _ =>
      HasDrawnCard g = false ∧ HasDrawnCard g' = true
      ∧ TurnPlayerID g' = t ∧ TurnOpponentPlayerID g' = u
      ∧ DiscardPile g' = DiscardPile g
      ∧ ∃ c, cards (DrawPile g) = c :: cards (DrawPile g')
             ∧ hand_cards g' t = hand_cards g t ++ [c]
  | ActionDrawFromDiscard _ =>
      HasDrawnCard g = false ∧ HasDrawnCard g' = true
      ∧ TurnPlayerID g' = t ∧ TurnOpponentPlayerID g' = u
      ∧ cards (DrawPile g') = cards (DrawPile g)
      ∧ ∃ c, DiscardPile g = DiscardPile g' ++ [c]
             ∧ hand_cards g' t = hand_cards g t ++ [c]
  | ActionDiscardCard _ card =>
      HasDrawnCard g = true ∧ HasDrawnCard g' = false
      ∧ TurnPlayerID g' = u ∧ TurnOpponentPlayerID g' = t
      ∧ cards (DrawPile g') = cards (DrawPile g)
      ∧ DiscardPile g' = DiscardPile g ++ [card]
      ∧ ∃ pre post,
          hand_cards g t = pre ++ card :: post
          ∧ (card ∉ pre)
          ∧ hand_cards g' t = pre ++ post
  | ActionClose _ | ActionConfirmRoundFinished _ => False
  end.

(** The name that the constructor of each variant gives to its actions. *)
Definition variant_name (a : Action) : string :=
  match a with
  | ActionDrawFromDeck _ => DRAW_FROM_DECK
  | ActionDrawFromDiscard _ => DRAW_FROM_DISCARD
  | ActionDiscardCard _ _ => DISCARD_CARD
  | ActionClose _ => CLOSE_ROUND
  | ActionConfirmRoundFinished _ => CONFIRM_ROUND_FINISHED
  end.

(** ** Callers of the engine: the example bot *)

(** [_deserializeActions] of the bot and of the example client: the error of
    [DeserializeAction] is dropped, and the action of a document that does
    not decode is nil. *)
Definition _deserializeActions (docs : list json)
    : result (list (option Action)) :=
  fold_result (λ acc doc,
                 match DeserializeAction doc with
                 | Ok a => Ok (acc ++ [Some a])
                 | Err _ => Ok (acc ++ [None])
                 | Panic => Panic
                 end)
              [] docs.

(** [for _, action := range actions { if action.GetName() == name { return
    action } }]; the method call on a nil action panics. *)
Fixpoint first_named (name : string) (actions : list (option Action))
    : result (option Action) :=
  match actions with
  | [] => Ok None
  | None :: _ => Panic
  | Some a :: rest =>
      if bool_decide (GetName a = name) then Ok (Some a)
      else first_named name rest
  end.

(** The discard loop of [ChooseAction]; the type assertion to the discard
    variant panics on an action of another variant. *)
Fixpoint best_discard (actions : list (option Action)) (highestValue : Z)
    (bestDiscard : option Action) : result (option Action) :=
  match actions with
  | [] => Ok bestDiscard
  | None :: _ => Panic
  | Some a :: rest =>
      if bool_decide (GetName a = DISCARD_CARD) then
        match a with
        | ActionDiscardCard _ card =>
            let value := PenaltyValue card in
            if value >? highestValue then best_discard rest value (Some a)
            else best_discard rest highestValue bestDiscard
        | _ => Panic
        end
      else best_discard rest highestValue bestDiscard
  end.

(** [actions[0]] *)
Definition first_action (actions : list (option Action))
    : result (option Action) :=
  match actions with
  | a :: _ => Ok a
  | [] => Panic
  end.

(** [Bot.ChooseAction]; [None] is the nil action. *)
Definition ChooseAction (gs : ClientGameState) : result (option Action) :=
  match cgs_PossibleActions gs with
  | [] => Ok None
  | [_] =>
      actions ← _deserializeActions (cgs_PossibleActions gs);
      first_action actions
  | _ =>
      actions ← _deserializeActions (cgs_PossibleActions gs);
      r ← first_named CONFIRM_ROUND_FINISHED actions;
      if r is Some a then Ok (Some a) else
      r ← first_named DRAW_FROM_DISCARD actions;
      if r is Some a then Ok (Some a) else
      r ← first_named DRAW_FROM_DECK actions;
      if r is Some a then Ok (Some a) else
      r ← first_named CLOSE_ROUND actions;
      if r is Some a then Ok (Some a) else
      r ← best_discard actions (-1) None;
      if r is Some a then Ok (Some a) else
      first_action actions
  end.

(** The order in which [ChooseAction] looks for an action. *)
Definition action_rank (a : Action) : nat :=
  if bool_decide (GetName a = CONFIRM_ROUND_FINISHED) then 0
  else if bool_decide (GetName a = DRAW_FROM_DISCARD) then 1
  else if bool_decide (GetName a = DRAW_FROM_DECK) then 2
  else if bool_decide (GetName a = CLOSE_ROUND) then 3
  else 4.

(** An action as its constructor builds it and as Go can hold it, that
    [Marshal] writes as it is: it carries the name of its variant, its
    numbers are values of [int], and the suit of its card is valid UTF-8. *)
Definition well_formed_action (a : Action) : Prop :=
  GetName a = variant_name a
  ∧ GoInt.is_int (GetPlayerID a)
  ∧ match a with
    | ActionDiscardCard _ card =>
        GoInt.is_int (Number card) ∧ ValidString (Suit card) = true
    | _ => True
    end.

(** *** Sample games, for the examples *)

Definition sample_oracle : Oracle :=
  MkOracle (λ i, (i * 7 + 3)%nat) [0; 1] [1; 0] [0; 1].

(** The state that a call leaves; the zero state stands for a call that
    does not return nil. *)
Definition state_of (r : result GameState) : GameState :=
  match r with
  | Ok g => g
  | _ => MkGameState 0 0 0 ∅ (MkDeck []) [] [] false false 0 0 [] ∅ 0 0 false
  end.

(** A new game. *)
Definition sample_new : GameState :=
  state_of (New [] (λ _, O) sample_oracle).

(** The new game after player 0 has taken the card of the discard pile. *)
Definition sample_drawn : GameState :=
  state_of (RunAction sample_new (Some (NewActionDrawFromDiscard 0))
              sample_oracle).

(** A game created with [WithMaxPoints(0)], after player 0 has drawn from
    the deck. *)
Definition sample_zero : GameState :=
  state_of (New (WithMaxPoints <$> [0]) (λ _, O) sample_oracle).

Definition sample_ended : GameState :=
  state_of (RunAction sample_zero (Some (NewActionDrawFromDeck 0))
              sample_oracle).

(** A state in which player 0, with two groups and no other card, faces
    player 1, who has no group. *)
Definition sample_close : GameState :=
  with_hand 0
    (MkHand [MkCard ORO 1; MkCard ORO 2; MkCard ORO 3; MkCard ORO 4;
             MkCard COPA 5; MkCard ESPADA 5; MkCard BASTO 5])
    (with_hand 1
       (MkHand [MkCard ORO 7; MkCard COPA 1; MkCard ESPADA 9; MkCard BASTO 2;
                MkCard ORO 10; MkCard COPA 3; MkCard ESPADA 4])
       sample_new).

(** The same state with a chinchón in the hand of player 0. *)
Definition sample_chinchon : GameState :=
  with_hand 0 (MkHand (MkCard ORO <$> seqZ 1 7)) sample_close.

(** An offer of two discards, and a client state that carries it. *)
Definition sample_offer : list Action :=
  [NewActionDiscardCard (MkCard ORO 3) 0;
   NewActionDiscardCard (MkCard BASTO 11) 0].

Definition sample_client : ClientGameState :=
  MkClientGameState 1 0 0 1 0 0 [] 7 None 33 (_serializeActions sample_offer)
    false false (-1) (-1) None 100 true.

(** *** Proof tactics *)

(** Reads the tests that an [IsPossible] has passed. *)
Ltac possible_facts :=
  repeat case_match; simplify_eq;
  repeat match goal with
    | H : bool_decide _ = false |- _ => apply bool_decide_eq_false in H
    | H : bool_decide _ = true |- _ => apply bool_decide_eq_true in H
    | H : negb _ = true |- _ => apply negb_true_iff in H
    | H : negb _ = false |- _ => apply negb_false_iff in H
    | H : _ || _ = false |- _ => apply orb_false_iff in H as [? ?]
    | H : ¬ (_ ≠ _) |- _ => apply dec_stable in H
    end.

(** Reads the fields of a state written with the setters. *)
Ltac fields :=
  cbn [RoundNumber TurnPlayerID TurnOpponentPlayerID Players DrawPile
       DiscardPile PossibleActions IsRoundFinished IsGameEnded WinnerPlayerID
       LoserPlayerID RoundsLog RoundFinishedConfirmedPlayerIDs RuleMaxPoints
       CurrentRoundClosedByPlayerID HasDrawnCard
       set_RoundNumber set_TurnPlayerID set_TurnOpponentPlayerID set_Players
       set_DrawPile set_DiscardPile set_PossibleActions set_IsRoundFinished
       set_IsGameEnded set_WinnerPlayerID set_LoserPlayerID set_RoundsLog
       set_RoundFinishedConfirmedPlayerIDs set_RuleMaxPoints
       set_CurrentRoundClosedByPlayerID set_HasDrawnCard changeTurn cards]
    in *.

(** Closes the bookkeeping goals of [Run_inv]. *)
Ltac run_facts Hc :=
  first
    [ by (rewrite <- Hc; cbn [AddCard Cards]; solve_Permutation)
    | by (repeat case_decide; try done; cbn [AddCard Cards];
          rewrite ?length_app; simpl; lia) ].

(** Checks a concrete state against the data model. *)
Ltac solve_wf :=
  split;
  [ eexists (MkHand _), _, (MkHand _), _; by vm_compute
  | left; by vm_compute
  | split; vm_compute; [done|lia]
  | split; apply (bool_decide_unpack _); by vm_compute ].

(** Checks the orders of an oracle against the players of a state. *)
Ltac solve_oracle_ok :=
  repeat split; try (apply (bool_decide_unpack _); by vm_compute);
  by vm_compute.

(** Settles the comparison of ranks once the names are known. *)
Ltac rank_facts :=
  unfold action_rank;
  repeat match goal with
    | H : GetName _ = _ |- _ => rewrite H
    end;
  repeat case_bool_decide; first [lia | done | congruence].

(** * Properties *)

(** ** Go's [int] *)

Lemma wrap_is_int z : GoInt.is_int (GoInt.wrap z).
Proof.
  unfold GoInt.is_int, GoInt.wrap, GoInt.min_int, GoInt.max_int.
  pose proof (Z.mod_pos_bound (z + 2 ^ 63) (2 ^ 64) ltac:(lia)). lia.
Qed.

Lemma wrap_small z : GoInt.is_int z → GoInt.wrap z = z.
Proof.
  unfold GoInt.is_int, GoInt.wrap, GoInt.min_int, GoInt.max_int. intros Hz.
  rewrite Z.mod_small; lia.
Qed.

Lemma wrap_add_l a b : GoInt.wrap (GoInt.wrap a + b) = GoInt.wrap (a + b).
Proof.
  unfold GoInt.wrap.
  replace ((a + 2 ^ 63) mod 2 ^ 64 - 2 ^ 63 + b + 2 ^ 63)
    with ((a + 2 ^ 63) mod 2 ^ 64 + b) by lia.
  rewrite Zplus_mod_idemp_l. do 2 f_equal. lia.
Qed.

Lemma add_small a b : GoInt.is_int (a + b) → GoInt.add a b = a + b.
Proof. apply wrap_small. Qed.

(** ** Penalty points *)

Lemma PenaltyValue_penalty_value c : PenaltyValue c = penalty_value c.
Proof.
  unfold PenaltyValue, penalty_value.
  destruct (Z.geb_spec (Number c) 10), (Z.ltb_spec (Number c) 10); lia.
Qed.

(** The inner loop of the [groupedCards] construction. *)
Lemma grouped_group (m : gmap Card bool) group c :
  grouped (foldl (λ m card, <[card := true]> m) m group) c
  = grouped m c || bool_decide (c ∈ group).
Proof.
  revert m. induction group as [|x group IH]; intros m; cbn [foldl].
  - rewrite bool_decide_eq_false_2; [by rewrite orb_false_r|].
    apply not_elem_of_nil.
  - rewrite IH. unfold grouped.
    destruct (decide (x = c)) as [->|Hne].
    + rewrite lookup_insert_eq. simpl.
      rewrite (bool_decide_eq_true_2 (c ∈ c :: group)) by apply list_elem_of_here.
      by rewrite orb_true_r.
    + rewrite lookup_insert_ne by done.
      f_equal. apply bool_decide_ext. rewrite elem_of_cons.
      split; [by right | by intros [->|]].
Qed.

Lemma grouped_groups (m : gmap Card bool) groups c :
  grouped
    (foldl (λ m group, foldl (λ m card, <[card := true]> m) m group) m groups)
    c
  = grouped m c || bool_decide (covered groups c).
Proof.
  revert m. induction groups as [|group groups IH]; intros m; cbn [foldl].
  - rewrite bool_decide_eq_false_2; [by rewrite orb_false_r|].
    unfold covered. rewrite Exists_nil. tauto.
  - rewrite IH, grouped_group, <- orb_assoc. f_equal.
    unfold covered.
    destruct (decide (c ∈ group)) as [Hin|Hin].
    + rewrite (bool_decide_eq_true_2 _ Hin). simpl. symmetry.
      apply bool_decide_eq_true_2. by left.
    + rewrite (bool_decide_eq_false_2 _ Hin). simpl.
      apply bool_decide_ext. rewrite Exists_cons.
      split; [by right | by intros [|]].
Qed.

(** A card reads [true] in [groupedCards] exactly when a group covers it. *)
Lemma grouped_covered groups c :
  grouped (groupedCards_of groups) c = bool_decide (covered groups c).
Proof. unfold groupedCards_of. by rewrite grouped_groups. Qed.

(** The accumulation loop, from any start value. *)
Lemma penalty_loop (P : Card → bool) (l : list Card) (z : Z) :
  GoInt.wrap
    (foldl (λ penalty card,
              if P card then GoInt.add penalty (PenaltyValue card)
              else penalty) z l)
  = GoInt.wrap (z + sumZ (penalty_value <$> filter (λ c, P c = true) l)).
Proof.
  revert z. induction l as [|c l IH]; intros z; simpl.
  - f_equal. lia.
  - rewrite IH. rewrite filter_cons. destruct (P c) eqn:HP.
    + rewrite decide_True by done. simpl. unfold GoInt.add.
      rewrite wrap_add_l, PenaltyValue_penalty_value. f_equal.
      symmetry. apply Z.add_assoc.
    + rewrite decide_False by done. done.
Qed.

Lemma penalty_loop_is_int (P : Card → bool) (l : list Card) (z : Z) :
  GoInt.is_int z →
  GoInt.is_int
    (foldl (λ penalty card,
              if P card then GoInt.add penalty (PenaltyValue card)
              else penalty) z l).
Proof.
  revert z. induction l as [|c l IH]; intros z Hz; simpl; [done|].
  apply IH. destruct (P c); [apply wrap_is_int | done].
Qed.

(** C9. [PenaltyPoints(groups)] is the sum, in Go's [int], of the penalty
    values ([number] when [number < 10], else 10) of the cards of the hand
    that no group of the list contains; a card that one or several groups
    contain adds nothing. *)
Theorem PenaltyPoints_spec (h : Hand) (groups : list (list Card)) :
  PenaltyPoints h groups = penalty_spec h groups.
Proof.
  unfold PenaltyPoints, penalty_spec.
  rewrite <- wrap_small at 1
    by (apply penalty_loop_is_int; by vm_compute).
  rewrite (penalty_loop (λ c, negb (grouped (groupedCards_of groups) c))).
  rewrite Z.add_0_l. do 3 f_equal.
  apply list_filter_iff. intros c. rewrite grouped_covered.
  rewrite negb_true_iff, bool_decide_eq_false. done.
Qed.

(** ** Serialization *)

Lemma bind_Ok {A B} (m : result A) (k : A → result B) (b : B) :
  m ≫= k = Ok b → ∃ a, m = Ok a ∧ k a = Ok b.
Proof. destruct m as [a| |]; simpl; [eauto | done | done]. Qed.

Lemma decode_int_is_int z old :
  GoInt.is_int z → decode_int (JInt z) old = Ok z.
Proof. intros Hz. simpl. by rewrite bool_decide_eq_true_2. Qed.

(** [Marshal] keeps the strings that are valid UTF-8, and only those. *)
Lemma coerce_utf8_valid keep s :
  valid_from keep s = true → coerce_utf8 keep s = s.
Proof.
  revert keep. induction s as [|b rest IH]; intros keep Hv; [done|].
  cbn [coerce_utf8 valid_from] in *. destruct keep as [|keep'].
  - destruct (rune_width (String b rest)) as [w|]; [|done].
    by rewrite IH.
  - by rewrite IH.
Qed.

Lemma coerce_utf8_length keep s :
  (String.length s ≤ String.length (coerce_utf8 keep s))%nat.
Proof.
  revert keep. induction s as [|b rest IH]; intros keep; [done|].
  cbn [coerce_utf8]. destruct keep as [|keep'].
  - destruct (rune_width (String b rest)) as [w|].
    + cbn [String.length]. specialize (IH (w - 1)%nat). lia.
    + change (replacement_character +:+ coerce_utf8 0 rest)
        with (String (ascii_of_N 0xEF)
                (String (ascii_of_N 0xBF)
                   (String (ascii_of_N 0xBD) (coerce_utf8 0 rest)))).
      cbn [String.length]. specialize (IH 0%nat). lia.
  - cbn [String.length]. specialize (IH keep'). lia.
Qed.

Lemma coerce_utf8_fixed keep s :
  coerce_utf8 keep s = s → valid_from keep s = true.
Proof.
  revert keep. induction s as [|b rest IH]; intros keep Hc; [done|].
  cbn [coerce_utf8 valid_from] in *. destruct keep as [|keep'].
  - destruct (rune_width (String b rest)) as [w|].
    + injection Hc as Hc. by apply IH.
    + exfalso.
      change (replacement_character +:+ coerce_utf8 0 rest)
        with (String (ascii_of_N 0xEF)
                (String (ascii_of_N 0xBF)
                   (String (ascii_of_N 0xBD) (coerce_utf8 0 rest)))) in Hc.
      injection Hc as _ Hc. apply (f_equal String.length) in Hc.
      cbn [String.length] in Hc.
      pose proof (coerce_utf8_length 0 rest). lia.
  - injection Hc as Hc. by apply IH.
Qed.

Lemma json_string_valid s : ValidString s = true ↔ json_string s = s.
Proof.
  split; [apply coerce_utf8_valid | apply coerce_utf8_fixed].
Qed.

(** The suits of the deck are ASCII. *)
Lemma suits_ValidString (c : Card) :
  Suit c ∈ [ORO; COPA; ESPADA; BASTO] → ValidString (Suit c) = true.
Proof.
  rewrite !elem_of_cons, elem_of_nil.
  intros [-> | [-> | [-> | [-> | []]]]]; reflexivity.
Qed.

(** Decoding what [Marshal] wrote for an [act]. *)
Lemma Unmarshal_marshal_act (a a0 : act) :
  ValidString (Name a) = true →
  GoInt.is_int (PlayerID a) →
  Unmarshal act_field (JObj (marshal_act a)) a0 = Ok a.
Proof.
  intros Hname Hint. destruct a as [name pid]. simpl in Hint, Hname.
  apply json_string_valid in Hname.
  unfold Unmarshal, marshal_act.
  cbn [fold_result fst snd Name PlayerID Suit Number]. rewrite Hname.
  change (act_field key_name (JStr name) a0) with (Ok (MkAct name (PlayerID a0))).
  cbn [mbind result_bind].
  change (act_field key_playerID (JInt pid) (MkAct name (PlayerID a0)))
    with (n ← decode_int (JInt pid) (PlayerID a0); Ok (MkAct name n)).
  by rewrite decode_int_is_int.
Qed.

Lemma Unmarshal_marshal_Card (c c0 : Card) :
  ValidString (Suit c) = true →
  GoInt.is_int (Number c) →
  Unmarshal Card_field (marshal_Card c) c0 = Ok c.
Proof.
  intros Hsuit Hint. destruct c as [suit number]. simpl in Hint, Hsuit.
  apply json_string_valid in Hsuit.
  unfold Unmarshal, marshal_Card.
  cbn [fold_result fst snd Name PlayerID Suit Number]. rewrite Hsuit.
  change (Card_field key_suit (JStr suit) c0) with (Ok (MkCard suit (Number c0))).
  cbn [mbind result_bind].
  change (Card_field key_number (JInt number) (MkCard suit (Number c0)))
    with (n ← decode_int (JInt number) (Number c0); Ok (MkCard suit n)).
  by rewrite decode_int_is_int.
Qed.

Lemma Unmarshal_marshal_ActionDiscardCard (a : act) (c : Card) s0 :
  ValidString (Name a) = true → GoInt.is_int (PlayerID a) →
  ValidString (Suit c) = true → GoInt.is_int (Number c) →
  Unmarshal ActionDiscardCard_field
    (JObj (marshal_act a ++ [(key_card, marshal_Card c)])) s0 = Ok (a, c).
Proof.
  intros Hname Ha Hsuit Hc. destruct a as [name pid], s0 as [a0 c0].
  simpl in Ha, Hname. apply json_string_valid in Hname.
  unfold Unmarshal, marshal_act.
  cbn [app fold_result fst snd Name PlayerID Suit Number]. rewrite Hname.
  change (ActionDiscardCard_field key_name (JStr name) (a0, c0))
    with (Ok (MkAct name (PlayerID a0), c0)).
  cbn [mbind result_bind].
  change (ActionDiscardCard_field key_playerID (JInt pid)
            (MkAct name (PlayerID a0), c0))
    with (a ← (n ← decode_int (JInt pid) (PlayerID a0); Ok (MkAct name n));
          Ok (a, c0)).
  rewrite decode_int_is_int by done. cbn [mbind result_bind].
  change (ActionDiscardCard_field key_card (marshal_Card c) (MkAct name pid, c0))
    with (c' ← Unmarshal Card_field (marshal_Card c) c0; Ok (MkAct name pid, c')).
  by rewrite Unmarshal_marshal_Card.
Qed.

(** The first phase of [DeserializeAction] reads back the name. *)
Lemma Unmarshal_actionName (a : act) rest :
  Unmarshal actionName_field
    (JObj (marshal_act a ++ rest)) EmptyString
  = Unmarshal actionName_field (JObj rest) (json_string (Name a)).
Proof. by destruct a. Qed.

Lemma Unmarshal_actionName_act (a : act) :
  ValidString (Name a) = true →
  Unmarshal actionName_field (JObj (marshal_act a)) EmptyString = Ok (Name a).
Proof.
  intros Hname. apply json_string_valid in Hname.
  destruct a as [name pid]. simpl in Hname.
  unfold Unmarshal, marshal_act. cbn [fold_result fst snd Name]. rewrite Hname.
  reflexivity.
Qed.

Lemma Unmarshal_actionName_discard (a : act) (c : Card) :
  ValidString (Name a) = true →
  Unmarshal actionName_field
    (JObj (marshal_act a ++ [(key_card, marshal_Card c)])) EmptyString
  = Ok (Name a).
Proof.
  intros Hname. apply json_string_valid in Hname.
  destruct a as [name pid]. simpl in Hname.
  unfold Unmarshal, marshal_act. cbn [app fold_result fst snd Name].
  rewrite Hname. reflexivity.
Qed.

(** C8. Each of the five actions that the constructors build, for any
    player id and (for the discard) any card of the data model, written by
    [SerializeAction] and read by [DeserializeAction], comes back as the
    same action: same name, same player id, same card.  The player id and
    the number of the card are values of [int], and the suit is a string of
    valid UTF-8, as the four suits are.  And a document whose name is none
    of the five names is refused with the unknown-action error. *)
Theorem DeserializeAction_SerializeAction
    (playerID : Z) (card : Card) (a : Action) :
  GoInt.is_int playerID →
  GoInt.is_int (Number card) →
  ValidString (Suit card) = true →
  a ∈ [NewActionDrawFromDeck playerID; NewActionDrawFromDiscard playerID;
       NewActionDiscardCard card playerID; NewActionClose playerID;
       NewActionConfirmRoundFinished playerID] →
  DeserializeAction (SerializeAction a) = Ok a
  ∧ ∀ (doc : json) (name : string),
      Unmarshal actionName_field doc EmptyString = Ok name →
      name ∉ [DRAW_FROM_DECK; DRAW_FROM_DISCARD; DISCARD_CARD; CLOSE_ROUND;
              CONFIRM_ROUND_FINISHED] →
      DeserializeAction doc = Err errUnknownAction.
Proof.
  intros Hpid Hcard Hsuit Ha. split.
  - rewrite !elem_of_cons, elem_of_nil in Ha.
    destruct Ha as [->|[->|[->|[->|[->|[]]]]]];
      unfold DeserializeAction; cbn [SerializeAction NewActionDrawFromDeck
        NewActionDrawFromDiscard NewActionDiscardCard NewActionClose
        NewActionConfirmRoundFinished].
    + rewrite Unmarshal_actionName_act by reflexivity.
      cbn [mbind result_bind Name].
      rewrite bool_decide_eq_true_2 by done.
      by rewrite Unmarshal_marshal_act.
    + rewrite Unmarshal_actionName_act by reflexivity.
      cbn [mbind result_bind Name].
      rewrite bool_decide_eq_false_2 by done.
      rewrite bool_decide_eq_true_2 by done.
      by rewrite Unmarshal_marshal_act.
    + rewrite Unmarshal_actionName_discard by reflexivity.
      cbn [mbind result_bind Name].
      rewrite !bool_decide_eq_false_2 by done.
      rewrite bool_decide_eq_true_2 by done.
      by rewrite Unmarshal_marshal_ActionDiscardCard.
    + rewrite Unmarshal_actionName_act by reflexivity.
      cbn [mbind result_bind Name].
      rewrite !bool_decide_eq_false_2 by done.
      rewrite bool_decide_eq_true_2 by done.
      by rewrite Unmarshal_marshal_act.
    + rewrite Unmarshal_actionName_act by reflexivity.
      cbn [mbind result_bind Name].
      rewrite !bool_decide_eq_false_2 by done.
      rewrite bool_decide_eq_true_2 by done.
      by rewrite Unmarshal_marshal_act.
  - intros doc name Hname Hnot.
    rewrite !not_elem_of_cons in Hnot.
    destruct Hnot as (H1 & H2 & H3 & H4 & H5 & _).
    unfold DeserializeAction. rewrite Hname. cbn [mbind result_bind].
    by rewrite !bool_decide_eq_false_2.
Qed.

(** The discard of the 3 of oro by player 1 survives the round trip. *)
Lemma DeserializeAction_SerializeAction_witness :
  DeserializeAction (SerializeAction (NewActionDiscardCard (MkCard ORO 3) 1))
  = Ok (NewActionDiscardCard (MkCard ORO 3) 1).
Proof.
  apply (DeserializeAction_SerializeAction 1 (MkCard ORO 3)).
  - by vm_compute.
  - by vm_compute.
  - by vm_compute.
  - vm_compute. set_solver.
Defined.

(** A suit that is not valid UTF-8 does not survive: the byte 0xFF comes
    back as the replacement character. *)
Example DeserializeAction_SerializeAction_coerced :
  DeserializeAction
    (SerializeAction
       (NewActionDiscardCard (MkCard (String (ascii_of_N 0xFF) EmptyString) 3)
          1))
  = Ok (NewActionDiscardCard (MkCard replacement_character 3) 1).
Proof. reflexivity. Qed.

(** Documents that are not an action: an unknown name, and a name that is
    not a string (refused by the decoder itself). *)
Example DeserializeAction_unknown :
  DeserializeAction (JObj [(key_name, JStr EmptyString); (key_playerID, JInt 0)])
  = Err errUnknownAction.
Proof. reflexivity. Qed.

Example DeserializeAction_badname :
  DeserializeAction (JObj [(key_name, JInt 5)]) = Err errJSON.
Proof. reflexivity. Qed.

(** ** Exchanges, the shuffle and the sort *)

Section swaps.
Context {A : Type}.
Implicit Types l : list A.

Lemma insert_head_Permutation l j x y :
  l !! j = Some y → y :: <[j := x]> l ≡ₚ x :: l.
Proof.
  revert j. induction l as [|a l IH]; intros [|j] Hj; simplify_eq/=.
  - apply perm_swap.
  - rewrite (perm_swap a y). rewrite (IH j Hj). apply perm_swap.
Qed.

(** Exchanging two positions permutes the list. *)
Lemma swap_Permutation l i j x y :
  l !! i = Some x → l !! j = Some y → <[j := x]> (<[i := y]> l) ≡ₚ l.
Proof.
  revert i j. induction l as [|a l IH]; intros [|i] [|j] Hi Hj; simplify_eq/=.
  - done.
  - by apply insert_head_Permutation.
  - by apply insert_head_Permutation.
  - f_equiv. by apply IH.
Qed.

End swaps.

Lemma swap_cards_Permutation i j cs : swap_cards i j cs ≡ₚ cs.
Proof.
  unfold swap_cards.
  destruct (cs !! i) as [ci|] eqn:Hi; [|done].
  destruct (cs !! j) as [cj|] eqn:Hj; [|done].
  by apply swap_Permutation.
Qed.

(** The shuffle neither loses nor duplicates a card. *)
Lemma Shuffle_Permutation rnd cs : Shuffle rnd cs ≡ₚ cs.
Proof.
  unfold Shuffle. generalize (reverse (seq 1 (length cs - 1))). intros idxs.
  revert cs. induction idxs as [|i idxs IH]; intros cs; simpl; [done|].
  rewrite IH. apply swap_cards_Permutation.
Qed.

Lemma makeSpanishCards_Permutation rnd : makeSpanishCards rnd ≡ₚ spanishCards.
Proof. apply Shuffle_Permutation. Qed.

(** *** The sorting loops compute a selection sort *)

Lemma inner_loop_select_min pre x done todo :
  foldl (λ cs j, swap_if_greater (length pre) j cs)
        (pre ++ x :: done ++ todo)
        (seq (S (length pre) + length done) (length todo))
  = pre ++ (let '(m, r) := select_min x todo in m :: done ++ r).
Proof.
  revert x done. induction todo as [|y t IH]; intros x done.
  - simpl. by rewrite app_nil_r.
  - cbn [length seq foldl select_min].
    assert (Hi : (pre ++ x :: done ++ y :: t) !! length pre = Some x)
      by apply list_lookup_middle, eq_refl.
    assert (Hj : (pre ++ x :: done ++ y :: t)
                   !! (S (length pre) + length done)%nat = Some y).
    { rewrite lookup_app_r by lia.
      replace (S (length pre) + length done - length pre)%nat
        with (S (length done)) by lia.
      simpl. by apply list_lookup_middle. }
    unfold swap_if_greater at 2. rewrite Hi, Hj.
    destruct (Number x >? Number y) eqn:Hgt.
    + replace (<[(S (length pre) + length done)%nat := x]>
                 (<[length pre := y]> (pre ++ x :: done ++ y :: t)))
        with (pre ++ y :: (done ++ [x]) ++ t).
      2:{ rewrite (insert_app_r_alt pre) by lia. rewrite Nat.sub_diag.
          cbn [insert list_insert].
          rewrite (insert_app_r_alt pre) by lia.
          replace (S (length pre) + length done - length pre)%nat
            with (S (length done)) by lia.
          cbn [insert list_insert].
          rewrite (insert_app_r_alt done) by lia. rewrite Nat.sub_diag.
          cbn [insert list_insert].
          by rewrite <- (assoc_L (++)). }
      replace (S (S (length pre) + length done))
        with (S (length pre) + length (done ++ [x]))%nat
        by (rewrite length_app; simpl; lia).
      rewrite IH. destruct (select_min y t) as [m r].
      by rewrite <- (assoc_L (++)).
    + replace (pre ++ x :: done ++ y :: t)
        with (pre ++ x :: (done ++ [y]) ++ t)
        by (by rewrite <- (assoc_L (++))).
      replace (S (S (length pre) + length done))
        with (S (length pre) + length (done ++ [y]))%nat
        by (rewrite length_app; simpl; lia).
      rewrite IH. destruct (select_min x t) as [m r].
      by rewrite <- (assoc_L (++)).
Qed.

Lemma select_min_length x rest :
  length (select_min x rest).2 = length rest.
Proof.
  revert x. induction rest as [|y rest IH]; intros x; simpl; [done|].
  destruct (Number x >? Number y).
  - specialize (IH y). destruct (select_min y rest). simpl in *. lia.
  - specialize (IH x). destruct (select_min x rest). simpl in *. lia.
Qed.

Lemma outer_loop_selection_sort n pre l k :
  n = (length pre + length l)%nat →
  (k ≤ length l - 1)%nat →
  foldl (λ cs i,
           foldl (λ cs j, swap_if_greater i j cs) cs (seq (S i) (n - S i)))
        (pre ++ l) (seq (length pre) k)
  = pre ++ selection_sort k l.
Proof.
  revert pre l. induction k as [|k IH]; intros pre l Hn Hk.
  - by destruct l.
  - destruct l as [|x rest]; [simpl in Hk; lia|].
    cbn [seq foldl selection_sort]. simpl in Hn, Hk.
    replace (n - S (length pre))%nat with (length rest) by lia.
    pose proof (inner_loop_select_min pre x [] rest) as Hin.
    rewrite Nat.add_0_r in Hin. simpl in Hin. rewrite Hin. clear Hin.
    pose proof (select_min_length x rest) as Hlen.
    destruct (select_min x rest) as [m r]. simpl in Hlen.
    replace (pre ++ m :: r) with ((pre ++ [m]) ++ r)
      by (by rewrite <- (assoc_L (++))).
    replace (S (length pre)) with (length (pre ++ [m]))
      by (rewrite length_app; simpl; lia).
    rewrite IH.
    + by rewrite <- (assoc_L (++)).
    + rewrite length_app. simpl. lia.
    + lia.
Qed.

Lemma sortByNumber_selection_sort cs :
  sortByNumber cs = selection_sort (length cs - 1) cs.
Proof.
  unfold sortByNumber.
  exact (outer_loop_selection_sort (length cs) [] cs (length cs - 1)
           eq_refl (le_n _)).
Qed.

(** *** The selection sort sorts *)

Lemma select_min_spec x rest m r :
  select_min x rest = (m, r) →
  m :: r ≡ₚ x :: rest ∧ Forall (le_Number m) (x :: rest).
Proof.
  revert x m r. induction rest as [|y rest IH]; intros x m r; simpl.
  - intros [= <- <-]. split; [done|]. repeat constructor. unfold le_Number. lia.
  - destruct (Number x >? Number y) eqn:Hgt.
    + destruct (select_min y rest) as [m' r'] eqn:Hsel. intros [= <- <-].
      destruct (IH _ _ _ Hsel) as [Hp Hall]. split.
      * by rewrite (perm_swap x m' r'), Hp.
      * apply Forall_cons in Hall as [Hy Hall].
        repeat constructor; try done.
        unfold le_Number in *. apply Z.gtb_lt in Hgt. lia.
    + destruct (select_min x rest) as [m' r'] eqn:Hsel. intros [= <- <-].
      destruct (IH _ _ _ Hsel) as [Hp Hall]. split.
      * rewrite (perm_swap y m' r'), Hp. apply perm_swap.
      * apply Forall_cons in Hall as [Hx Hall].
        repeat constructor; try done.
        unfold le_Number in *.
        assert (¬ Number x > Number y) by (rewrite Z.gtb_ltb in Hgt; lia).
        lia.
Qed.

Lemma selection_sort_Permutation n l : selection_sort n l ≡ₚ l.
Proof.
  revert l. induction n as [|n IH]; intros [|x rest]; simpl; try done.
  destruct (select_min x rest) as [m r] eqn:Hsel.
  rewrite IH. by apply select_min_spec in Hsel as [? _].
Qed.

Lemma selection_sort_Sorted n l :
  (length l - 1 ≤ n)%nat → StronglySorted le_Number (selection_sort n l).
Proof.
  revert l. induction n as [|n IH]; intros l Hn.
  - destruct l as [|x [|y l]]; simpl in *; try lia; repeat constructor.
  - destruct l as [|x rest]; simpl; [constructor|].
    destruct (select_min x rest) as [m r] eqn:Hsel.
    pose proof (select_min_length x rest) as Hlen. rewrite Hsel in Hlen.
    apply select_min_spec in Hsel as [Hp Hall].
    constructor.
    + apply IH. simpl in *. lia.
    + rewrite selection_sort_Permutation.
      rewrite <- Hp in Hall. by apply Forall_cons in Hall as [_ ?].
Qed.

Lemma sortByNumber_Permutation cs : sortByNumber cs ≡ₚ cs.
Proof. rewrite sortByNumber_selection_sort. apply selection_sort_Permutation. Qed.

Lemma sortByNumber_Sorted cs : StronglySorted le_Number (sortByNumber cs).
Proof. rewrite sortByNumber_selection_sort. by apply selection_sort_Sorted. Qed.

(** ** What [IsChinchon] accepts *)

(** The grouping loops collect, under each key, the cards with that key in
    the order of the hand. *)
Lemma push_at_fold_lookup `{Countable K} (f : Card → K) cs
    (m : gmap K (list Card)) k :
  foldl (λ m card, push_at (f card) card m) m cs !! k
  = match filter (λ c, f c = k) cs with
    | [] => m !! k
    | l => Some (default [] (m !! k) ++ l)
    end.
Proof.
  revert m. induction cs as [|c cs IH]; intros m; [done|].
  cbn [foldl]. rewrite IH, filter_cons. unfold push_at.
  destruct (decide (f c = k)) as [->|Hne].
  - rewrite lookup_insert_eq. simpl.
    destruct (filter _ cs); [done|]. by rewrite <- (assoc_L (++)).
  - by rewrite lookup_insert_ne.
Qed.

Lemma suitCards_of_lookup cs suit :
  suitCards_of cs !! suit
  = match filter (λ c, Suit c = suit) cs with
    | [] => None
    | l => Some l
    end.
Proof.
  unfold suitCards_of. rewrite push_at_fold_lookup, lookup_empty.
  by destruct (filter _ cs).
Qed.

Lemma filter_length_all {A} (P : A → Prop) `{!∀ x, Decision (P x)}
    (l : list A) :
  length (filter P l) = length l → Forall P l.
Proof.
  induction l as [|x l IH]; [constructor|].
  rewrite filter_cons. pose proof (length_filter P l) as Hle.
  destruct (decide (P x)); simpl; intros Hlen.
  - constructor; [done|]. apply IH. lia.
  - lia.
Qed.

Lemma filter_all {A} (P : A → Prop) `{!∀ x, Decision (P x)} (l : list A) :
  Forall P l → filter P l = l.
Proof.
  induction 1 as [|x l Hx Hl IH]; [done|].
  rewrite filter_cons, decide_True by done. by rewrite IH.
Qed.

Lemma filter_none {A} (P : A → Prop) `{!∀ x, Decision (P x)} (l : list A) :
  Forall (λ x, ¬ P x) l → filter P l = [].
Proof.
  induction 1 as [|x l Hx Hl IH]; [done|].
  by rewrite filter_cons, decide_False.
Qed.

(** A hand of one suit has a single entry in [suitCards]. *)
Lemma suitCards_of_one_suit cs suit :
  cs ≠ [] → Forall (λ c, Suit c = suit) cs →
  suitCards_of cs = {[ suit := cs ]}.
Proof.
  intros Hne Hall. apply map_eq. intros k. rewrite suitCards_of_lookup.
  destruct (decide (k = suit)) as [->|Hk].
  - rewrite lookup_singleton_eq, filter_all by done. by destruct cs.
  - rewrite lookup_singleton_ne by done. rewrite filter_none; [done|].
    eapply Forall_impl; [exact Hall|]. simpl. congruence.
Qed.

Lemma cards_of_suit cs suit :
  Forall (λ c, Suit c = suit) cs → cs = MkCard suit <$> (Number <$> cs).
Proof.
  induction 1 as [|[s n] l Hx Hl IH]; [done|].
  simpl in *. subst s. by rewrite IH at 1.
Qed.

Lemma wrap_succ z z' :
  GoInt.is_int z → GoInt.is_int z' → z ≤ z' →
  z' = GoInt.add z 1 → z' = z + 1.
Proof.
  unfold GoInt.add. intros Hz Hz' Hle ->.
  destruct (decide (z = GoInt.max_int)) as [->|Hmax].
  - exfalso. revert Hle. by vm_compute.
  - apply wrap_small. unfold GoInt.is_int, GoInt.min_int, GoInt.max_int in *.
    lia.
Qed.

(** On a sorted list of cards the [consecutive] loop accepts exactly the
    lists whose numbers go up by one. *)
Lemma consecutive_seqZ c l :
  StronglySorted le_Number (c :: l) → int_cards (c :: l) →
  consecutive (c :: l) = true →
  Number <$> (c :: l) = seqZ (Number c) (Z.of_nat (length (c :: l))).
Proof.
  revert c. induction l as [|c' l IH]; intros c Hs Hint Hc; [done|].
  cbn [consecutive] in Hc. case_bool_decide as Hne; [done|].
  apply StronglySorted_inv in Hs as [Hs Hle].
  apply Forall_cons in Hint as [Hci Hint].
  apply Forall_cons in Hle as [Hle _].
  pose proof (Forall_inv Hint) as Hci'.
  apply wrap_succ in Hne; [|done..].
  rewrite seqZ_cons by (simpl; lia).
  rewrite fmap_cons. f_equal.
  rewrite (IH c' Hs Hint Hc). f_equal; [lia|].
  cbn [length]. lia.
Qed.

Lemma consecutive_cons2 c c' l :
  consecutive (c :: c' :: l)
  = if bool_decide (Number c' ≠ GoInt.add (Number c) 1) then false
    else consecutive (c' :: l).
Proof. done. Qed.

Lemma seqZ_consecutive l n :
  int_cards l → Number <$> l = seqZ n (Z.of_nat (length l)) →
  consecutive l = true.
Proof.
  revert n. induction l as [|c l IH]; intros n Hint Hnum; [done|].
  destruct l as [|c' l]; [done|].
  apply Forall_cons in Hint as [Hci Hint].
  pose proof (Forall_inv Hint) as Hci'.
  rewrite seqZ_cons in Hnum by (cbn [length]; lia).
  replace (Z.pred (Z.of_nat (length (c :: c' :: l))))
    with (Z.of_nat (length (c' :: l))) in Hnum by (cbn [length]; lia).
  rewrite fmap_cons in Hnum.
  assert (Hn : Number c = n) by congruence.
  assert (Hnum' : Number <$> c' :: l
                  = seqZ (Z.succ n) (Z.of_nat (length (c' :: l))))
    by congruence.
  clear Hnum.
  rewrite consecutive_cons2, bool_decide_eq_false_2.
  - by apply (IH (Z.succ n)).
  - intros Hne. apply Hne.
    rewrite seqZ_cons in Hnum' by (cbn [length]; lia).
    rewrite fmap_cons in Hnum'.
    assert (Hn' : Number c' = Z.succ n) by congruence.
    unfold GoInt.add. replace (Number c + 1) with (Number c') by lia.
    symmetry. by apply wrap_small.
Qed.

(** [IsChinchon] accepts exactly the hands that are seven consecutive
    cards of one suit. *)
Lemma IsChinchon_is_chinchon h :
  int_cards (Cards h) → IsChinchon h = true ↔ is_chinchon (Cards h).
Proof.
  intros Hint. unfold IsChinchon, is_chinchon. split.
  - case_bool_decide as Hlen; [done|].
    destruct (list_find _ _) as [[i [suit cs]]|] eqn:Hfind; [|done].
    apply list_find_Some in Hfind as (Hin & Hcs & _). simpl in Hcs.
    apply list_elem_of_lookup_2, elem_of_map_to_list in Hin.
    rewrite suitCards_of_lookup in Hin.
    assert (Hfil : filter (λ c, Suit c = suit) (Cards h) = cs)
      by (destruct (filter _ (Cards h)); by simplify_eq).
    clear Hin. subst cs. rewrite <- Hlen in Hcs.
    apply filter_length_all in Hcs. rewrite filter_all by done.
    intros Hcons.
    pose proof (sortByNumber_Permutation (Cards h)) as Hperm.
    pose proof (sortByNumber_Sorted (Cards h)) as Hsorted.
    destruct (sortByNumber (Cards h)) as [|c l] eqn:Hsort.
    { apply Permutation_length in Hperm. simpl in Hperm. lia. }
    exists suit, (Number c).
    rewrite <- Hperm.
    rewrite (cards_of_suit (c :: l) suit) by (by rewrite Hperm).
    f_equal.
    rewrite consecutive_seqZ; [|done|unfold int_cards; by rewrite Hperm|done].
    f_equal. apply Permutation_length in Hperm. rewrite Hperm, Hlen. done.
  - intros (suit & n & Hperm).
    assert (Hlen : length (Cards h) = 7%nat).
    { apply Permutation_length in Hperm. by rewrite Hperm, length_fmap. }
    assert (Hsuit : Forall (λ c, Suit c = suit) (Cards h)).
    { rewrite Hperm. apply Forall_fmap, Forall_true. done. }
    rewrite bool_decide_eq_false_2 by (by intros []).
    rewrite suitCards_of_one_suit with (suit := suit);
      [|by destruct (Cards h)|done].
    rewrite map_to_list_singleton. cbn [list_find].
    rewrite decide_True by done. simpl.
    apply seqZ_consecutive with (n := n).
    { unfold int_cards. by rewrite sortByNumber_Permutation. }
    rewrite (Permutation_length (sortByNumber_Permutation _)), Hlen.
    apply (StronglySorted_unique Z.le).
    + apply (StronglySorted_fmap _ le_Number); [done|].
      apply sortByNumber_Sorted.
    + change (seqZ n (Z.of_nat 7))
        with [n; 1 + n; 2 + n; 3 + n; 4 + n; 5 + n; 6 + n].
      repeat (constructor; [|repeat constructor; lia]). constructor.
    + rewrite sortByNumber_Permutation, Hperm.
      rewrite <- list_fmap_compose.
      rewrite (list_fmap_ext (Number ∘ MkCard suit) id) by done.
      by rewrite list_fmap_id.
Qed.

(** ** States of the data model *)

#[local] Arguments IsChinchon : simpl never.
#[local] Arguments ValidGroups : simpl never.
#[local] Arguments PenaltyPoints : simpl never.
#[local] Arguments CanClose : simpl never.
#[local] Arguments GoInt.add : simpl never.

(** With two players there are two orders in which [range] can present
    them. *)
Lemma order_ok_two l : order_ok {[0; 1]} l → l = [0; 1] ∨ l = [1; 0].
Proof.
  intros [Hnd Hset].
  assert (Hin : ∀ x, x ∈ l ↔ x = 0 ∨ x = 1).
  { intros x. rewrite <- (elem_of_list_to_set (C := gset Z)), Hset.
    set_solver. }
  destruct l as [|a [|b [|c l]]].
  - specialize (Hin 0). rewrite elem_of_nil in Hin. naive_solver.
  - pose proof (Hin 0) as H0. pose proof (Hin 1) as H1.
    rewrite list_elem_of_singleton in H0, H1.
    assert (0 = a) by tauto. assert (1 = a) by tauto. lia.
  - apply NoDup_cons in Hnd as [Hab _]. rewrite list_elem_of_singleton in Hab.
    pose proof (proj1 (Hin a) ltac:(left)) as Ha.
    pose proof (proj1 (Hin b) ltac:(right; left)) as Hb.
    destruct Ha, Hb; subst; auto; done.
  - apply NoDup_cons in Hnd as [Hab Hnd].
    apply NoDup_cons in Hnd as [Hbc _].
    repeat rewrite elem_of_cons in Hab. repeat rewrite elem_of_cons in Hbc.
    pose proof (proj1 (Hin a) ltac:(left)) as Ha.
    pose proof (proj1 (Hin b) ltac:(right; left)) as Hb.
    pose proof (proj1 (Hin c) ltac:(right; right; left)) as Hc.
    destruct Ha, Hb, Hc; subst; exfalso;
      first [apply Hab; by auto | apply Hbc; by auto].
Qed.

Lemma wf_state_inv g :
  wf_state g →
  ∃ h0 s0 h1 s1 rl,
    Players g = {[ 0 := MkPlayer (Some h0) s0; 1 := MkPlayer (Some h1) s1 ]}
    ∧ hand_cards g 0 = Cards h0 ∧ hand_cards g 1 = Cards h1
    ∧ score_of g 0 = s0 ∧ score_of g 1 = s1
    ∧ current_RoundLog g = Ok rl ∧ round_log g = Some rl
    ∧ int_cards (Cards h0) ∧ int_cards (Cards h1).
Proof.
  intros [(h0 & s0 & h1 & s1 & HP) _ [Hr0 Hr1] [Hi0 Hi1]].
  destruct (lookup_lt_is_Some_2 _ _ Hr1) as [rl Hrl].
  exists h0, s0, h1, s1, rl.
  unfold hand_cards, score_of, current_RoundLog, round_log in *.
  rewrite HP in *. rewrite Hrl, bool_decide_eq_true_2 by done.
  by repeat split.
Qed.

Lemma oracle_ok_inv g o :
  wf_state g → oracle_ok g o →
  (opp_order o = [0; 1] ∨ opp_order o = [1; 0])
  ∧ (close_order o = [0; 1] ∨ close_order o = [1; 0])
  ∧ (score_order o = [0; 1] ∨ score_order o = [1; 0]).
Proof.
  intros [(h0 & s0 & h1 & s1 & HP) _ _ _] Hok.
  unfold oracle_ok, oracle_ok_for in Hok. rewrite HP in Hok.
  destruct Hok as (H1 & H2 & H3).
  split_and!; by apply order_ok_two.
Qed.

(** With the two players 0 and 1, the opponent does not depend on the
    order of the loop. *)
Lemma OpponentOf_two o g p0 p1 id :
  Players g = {[ 0 := p0; 1 := p1 ]} →
  opp_order o = [0; 1] ∨ opp_order o = [1; 0] →
  id = 0 ∨ id = 1 →
  OpponentOf o g id = 1 - id.
Proof.
  intros HP Ho Hid. unfold OpponentOf, range_Players. rewrite HP.
  destruct Ho as [-> | ->], Hid as [-> | ->]; reflexivity.
Qed.

Lemma range_Players_two order g p0 p1 :
  Players g = {[ 0 := p0; 1 := p1 ]} →
  order = [0; 1] ∨ order = [1; 0] →
  range_Players order g = [(0, p0); (1, p1)]
  ∨ range_Players order g = [(1, p1); (0, p0)].
Proof.
  intros HP Ho. unfold range_Players. rewrite HP.
  destruct Ho as [-> | ->]; [left | right]; reflexivity.
Qed.

(** ** Closing a round *)

(** The setters leave the entry of the current round where it is. *)
Lemma update_RoundLog_Ok f g rl :
  current_RoundLog g = Ok rl →
  update_RoundLog f g
  = Ok (set_RoundsLog (<[Z.to_nat (RoundNumber g) := f rl]> (RoundsLog g)) g).
Proof. intros Hrl. unfold update_RoundLog. by rewrite Hrl. Qed.

Lemma current_RoundLog_update f g rl :
  current_RoundLog g = Ok rl →
  current_RoundLog
    (set_RoundsLog (<[Z.to_nat (RoundNumber g) := f rl]> (RoundsLog g)) g)
  = Ok (f rl).
Proof.
  unfold current_RoundLog. simpl. case_bool_decide; [|done].
  intros Hrl. destruct (RoundsLog g !! _) eqn:Hl; [|done].
  rewrite list_lookup_insert_eq; [by simplify_eq/=|].
  by eapply lookup_lt_Some.
Qed.

(** [CloseRound] when [IsChinchon] holds of a hand: the game ends there,
    in favour of a player whose hand it holds of. *)
Lemma CloseRound_IsChinchon (g : GameState) (closingPlayerID : Z) (o : Oracle) :
  wf_state g →
  oracle_ok g o →
  IsChinchon (MkHand (hand_cards g 0)) = true
  ∨ IsChinchon (MkHand (hand_cards g 1)) = true →
  ∃ g',
    CloseRound g closingPlayerID o = Ok g'
    ∧ IsGameEnded g' = true
    ∧ (WinnerPlayerID g' = 0 ∨ WinnerPlayerID g' = 1)
    ∧ IsChinchon (MkHand (hand_cards g (WinnerPlayerID g'))) = true
    ∧ LoserPlayerID g' = 1 - WinnerPlayerID g'
    ∧ (∃ rl, round_log g' = Some rl ∧ rl_WasChinchon rl = true)
    ∧ Players g' = Players g.
Proof.
  intros Hwf Hok Hch.
  destruct (oracle_ok_inv g o Hwf Hok) as (Hopp & Hclose & _).
  destruct (wf_state_inv g Hwf)
    as (h0 & s0 & h1 & s1 & rl & HP & Hh0 & Hh1 & _ & _ & Hrl & _ & Hi0 & Hi1).
  set (g1 := set_CurrentRoundClosedByPlayerID closingPlayerID
               (set_IsRoundFinished true g)).
  assert (HP1 : Players g1 = Players g) by done.
  assert (Hrl1 : ∀ w l,
            current_RoundLog
              (set_LoserPlayerID l (set_WinnerPlayerID w
                 (set_IsGameEnded true g1))) = Ok rl) by done.
  assert (Hwin : ∀ w, w = 0 ∨ w = 1 →
            IsChinchon (MkHand (hand_cards g w)) = true →
            ∃ g', update_RoundLog (set_rl_WasChinchon true)
                    (set_LoserPlayerID
                       (OpponentOf o (set_WinnerPlayerID w
                                        (set_IsGameEnded true g1)) w)
                       (set_WinnerPlayerID w (set_IsGameEnded true g1)))
                  = Ok g'
              ∧ IsGameEnded g' = true
              ∧ (WinnerPlayerID g' = 0 ∨ WinnerPlayerID g' = 1)
              ∧ IsChinchon (MkHand (hand_cards g (WinnerPlayerID g'))) = true
              ∧ LoserPlayerID g' = 1 - WinnerPlayerID g'
              ∧ (∃ rl, round_log g' = Some rl ∧ rl_WasChinchon rl = true)
              ∧ Players g' = Players g).
  { intros w Hw Hcw.
    rewrite (OpponentOf_two o (set_WinnerPlayerID w (set_IsGameEnded true g1))
               _ _ w HP Hopp Hw).
    rewrite (update_RoundLog_Ok _ _ rl) by apply Hrl1.
    eexists. split; [reflexivity|]. simpl. split_and!; try done.
    - exists (set_rl_WasChinchon true rl). split; [|done].
      unfold round_log. simpl.
      pose proof (current_RoundLog_update (set_rl_WasChinchon true) g rl Hrl)
        as Hupd.
      unfold current_RoundLog in Hupd. simpl in Hupd.
      case_bool_decide; [|done].
      by destruct (_ !! _); simplify_eq/=. }
  assert (Hc0 : IsChinchon (MkHand (hand_cards g 0)) = IsChinchon h0)
    by (rewrite Hh0; by destruct h0).
  assert (Hc1 : IsChinchon (MkHand (hand_cards g 1)) = IsChinchon h1)
    by (rewrite Hh1; by destruct h1).
  rewrite Hc0, Hc1 in Hch.
  unfold CloseRound. fold g1.
  destruct (range_Players_two (close_order o) g1 _ _ HP Hclose) as [-> | ->];
    cbn [close_loop hand].
  - destruct (IsChinchon h0) eqn:E0.
    + destruct (Hwin 0) as (g' & -> & Hg'); [by left|by rewrite Hc0|].
      by exists g'.
    + destruct (IsChinchon h1) eqn:E1; [|by destruct Hch].
      destruct (Hwin 1) as (g' & -> & Hg'); [by right|by rewrite Hc1|].
      by exists g'.
  - destruct (IsChinchon h1) eqn:E1.
    + destruct (Hwin 1) as (g' & -> & Hg'); [by right|by rewrite Hc1|].
      by exists g'.
    + destruct (IsChinchon h0) eqn:E0; [|by destruct Hch].
      destruct (Hwin 0) as (g' & -> & Hg'); [by left|by rewrite Hc0|].
      by exists g'.
Qed.

(** C5. When [CloseRound] runs on a state of the data model in which a
    player holds seven consecutive cards of one suit, it ends the game at
    once: [IsGameEnded] is set, the winner is a player holding such a hand
    and the loser the other player, [WasChinchon] is set in the log of the
    current round, and no score changes.  This holds for whatever player
    closes and in whatever order the players are visited. *)
Theorem CloseRound_chinchon (g : GameState) (closingPlayerID : Z) (o : Oracle) :
  wf_state g →
  oracle_ok g o →
  is_chinchon (hand_cards g 0) ∨ is_chinchon (hand_cards g 1) →
  ∃ g',
    CloseRound g closingPlayerID o = Ok g'
    ∧ IsGameEnded g' = true
    ∧ (WinnerPlayerID g' = 0 ∨ WinnerPlayerID g' = 1)
    ∧ is_chinchon (hand_cards g (WinnerPlayerID g'))
    ∧ LoserPlayerID g' = 1 - WinnerPlayerID g'
    ∧ (∃ rl, round_log g' = Some rl ∧ rl_WasChinchon rl = true)
    ∧ Players g' = Players g.
Proof.
  intros Hwf Hok Hch.
  destruct (wf_ints g Hwf) as [Hi0 Hi1].
  destruct (CloseRound_IsChinchon g closingPlayerID o Hwf Hok)
    as (g' & Hg' & He & Hw & Hcw & Hl & Hlog & Hp).
  { destruct Hch as [Hch | Hch]; [left | right];
      by apply IsChinchon_is_chinchon. }
  exists g'. split_and!; try done.
  apply IsChinchon_is_chinchon in Hcw; [done|].
  by destruct Hw as [-> | ->].
Qed.

#[local] Arguments IsChinchon : simpl never.
#[local] Arguments ValidGroups : simpl never.
#[local] Arguments PenaltyPoints : simpl never.
#[local] Arguments CanClose : simpl never.
#[local] Arguments GoInt.add : simpl never.

Lemma add_Score_0 g p0 p1 n :
  Players g = {[ 0 := p0; 1 := p1 ]} →
  add_Score 0 n g
  = Ok (set_Players
          {[ 0 := MkPlayer (hand p0) (GoInt.add (Score p0) n); 1 := p1 ]} g).
Proof. intros HP. unfold add_Score. rewrite HP. reflexivity. Qed.

Lemma add_Score_1 g p0 p1 n :
  Players g = {[ 0 := p0; 1 := p1 ]} →
  add_Score 1 n g
  = Ok (set_Players
          {[ 0 := p0; 1 := MkPlayer (hand p1) (GoInt.add (Score p1) n) ]} g).
Proof. intros HP. unfold add_Score. rewrite HP. reflexivity. Qed.

(** Without a chinchón the players loop yields both penalties. *)
Lemma close_loop_penalties g o h0 s0 h1 s1 :
  Players g = {[ 0 := MkPlayer (Some h0) s0; 1 := MkPlayer (Some h1) s1 ]} →
  close_order o = [0; 1] ∨ close_order o = [1; 0] →
  IsChinchon h0 = false → IsChinchon h1 = false →
  close_loop o (range_Players (close_order o) g) ∅ g
  = Ok (inr {[ 0 := PenaltyPoints h0 (ValidGroups h0);
               1 := PenaltyPoints h1 (ValidGroups h1) ]}).
Proof.
  intros HP Hclose Hn0 Hn1.
  destruct (range_Players_two (close_order o) g _ _ HP Hclose) as [-> | ->];
    cbn [close_loop hand]; rewrite Hn0, Hn1; reflexivity.
Qed.

(** What [CloseRound] does to the scores when nobody holds a chinchón,
    in terms of the two penalties. *)
Lemma CloseRound_scores g closer o h0 s0 h1 s1 rl P0 P1 :
  Players g = {[ 0 := MkPlayer (Some h0) s0; 1 := MkPlayer (Some h1) s1 ]} →
  current_RoundLog g = Ok rl →
  opp_order o = [0; 1] ∨ opp_order o = [1; 0] →
  close_order o = [0; 1] ∨ close_order o = [1; 0] →
  IsChinchon h0 = false → IsChinchon h1 = false →
  P0 = PenaltyPoints h0 (ValidGroups h0) →
  P1 = PenaltyPoints h1 (ValidGroups h1) →
  ∃ g',
    CloseRound g closer o = Ok g'
    ∧ score_of g' 0
      = (if bool_decide (closer = 0) && (P0 <? P1) then s0
         else if bool_decide (closer = 1) && (P1 <? P0)
              then (if P1 =? 0 then GoInt.add (GoInt.add s0 P0) 10
                    else GoInt.add s0 P0)
              else GoInt.add s0 P0)
    ∧ score_of g' 1
      = (if bool_decide (closer = 1) && (P1 <? P0) then s1
         else if bool_decide (closer = 0) && (P0 <? P1)
              then (if P0 =? 0 then GoInt.add (GoInt.add s1 P1) 10
                    else GoInt.add s1 P1)
              else GoInt.add s1 P1).
Proof.
  intros HP Hrl Hopp Hclose Hn0 Hn1 HP0 HP1.
  unfold CloseRound.
  set (g1 := set_CurrentRoundClosedByPlayerID closer
               (set_IsRoundFinished true g)).
  rewrite (close_loop_penalties g1 o h0 s0 h1 s1 HP Hclose Hn0 Hn1).
  rewrite <- HP0, <- HP1. clear HP0 HP1 Hn0 Hn1.
  cbn [mbind result_bind].
  change (map_to_list ({[ 0 := P0; 1 := P1 ]} : gmap Z Z))
    with [(1, P1); (0, P0)].
  change (({[ 0 := P0; 1 := P1 ]} : gmap Z Z) !! 0) with (Some P0).
  change (({[ 0 := P0; 1 := P1 ]} : gmap Z Z) !! 1) with (Some P1).
  cbn [default from_option id].
  assert (Hfin : ∀ f g2,
    RoundNumber g2 = RoundNumber g → RoundsLog g2 = RoundsLog g →
    update_RoundLog f g2
    = Ok (set_RoundsLog (<[Z.to_nat (RoundNumber g) := f rl]> (RoundsLog g))
            g2)).
  { intros f g2 Hn Hl. rewrite (update_RoundLog_Ok _ _ rl).
    - by rewrite Hn, Hl.
    - unfold current_RoundLog in *. by rewrite Hn, Hl. }
  destruct (decide (closer = 0)) as [-> | Hc0];
    [|destruct (decide (closer = 1)) as [-> | Hc1]].
  - rewrite (OpponentOf_two o g1 _ _ 0 HP Hopp) by by left.
    change (1 - 0) with 1.
    change (({[ 0 := P0; 1 := P1 ]} : gmap Z Z) !! 0) with (Some P0).
    change (({[ 0 := P0; 1 := P1 ]} : gmap Z Z) !! 1) with (Some P1).
    cbn [default from_option id].
    destruct (P0 <? P1) eqn:E01.
    + rewrite (bool_decide_eq_true_2 (0 ≠ -1)) by done.
      rewrite (bool_decide_eq_true_2 (0 = 0)) by done. cbn [andb].
      rewrite (add_Score_1 g1 _ _ P1 HP). cbn [mbind result_bind].
      rewrite (bool_decide_eq_false_2 (0 = 1)) by done. cbn [andb].
      destruct (Z.eqb_spec P0 0) as [-> | HP0].
      * rewrite bool_decide_eq_true_2 by done.
        erewrite add_Score_1 by reflexivity. cbn [mbind result_bind].
        rewrite Hfin by done. eexists. split; [reflexivity|]. split; reflexivity.
      * rewrite bool_decide_eq_false_2 by done. cbn [mbind result_bind].
        rewrite Hfin by done. eexists. split; [reflexivity|]. split; reflexivity.
    + rewrite (bool_decide_eq_false_2 (0 = 1)) by done. cbn [andb].
      assert (Hw : bool_decide (0 ≠ -1)
                   && bool_decide ((if P1 <? P0 then (1, 0) else (-1, -1)).1
                                   = 0) = false).
      { apply andb_false_iff. right. apply bool_decide_eq_false.
        by destruct (P1 <? P0). }
      destruct (P1 <? P0) eqn:E10; cbn [fst snd] in Hw |- *; rewrite Hw;
        cbn [fold_result];
        rewrite (add_Score_1 g1 _ _ P1 HP); cbn [mbind result_bind];
        erewrite add_Score_0 by reflexivity; cbn [mbind result_bind];
        rewrite Hfin by done; eexists; (split; [reflexivity|]); split; reflexivity.
  - rewrite (OpponentOf_two o g1 _ _ 1 HP Hopp) by by right.
    change (1 - 1) with 0.
    change (({[ 0 := P0; 1 := P1 ]} : gmap Z Z) !! 0) with (Some P0).
    change (({[ 0 := P0; 1 := P1 ]} : gmap Z Z) !! 1) with (Some P1).
    cbn [default from_option id].
    rewrite (bool_decide_eq_false_2 (1 = 0)) by done. cbn [andb].
    destruct (P0 <? P1) eqn:E01.
    + rewrite (bool_decide_eq_false_2 (0 = 1)) by done.
      rewrite andb_false_r. cbn [fold_result].
      assert (E10 : (P1 <? P0) = false) by lia. rewrite E10.
      rewrite (add_Score_1 g1 _ _ P1 HP); cbn [mbind result_bind];
        erewrite add_Score_0 by reflexivity; cbn [mbind result_bind];
        rewrite Hfin by done; eexists; (split; [reflexivity|]); split; reflexivity.
    + destruct (P1 <? P0) eqn:E10.
      * rewrite (bool_decide_eq_true_2 (1 ≠ -1)) by done.
        rewrite (bool_decide_eq_true_2 (1 = 1)) by done. cbn [andb].
        rewrite (add_Score_0 g1 _ _ P0 HP). cbn [mbind result_bind].
        destruct (Z.eqb_spec P1 0) as [-> | HP1].
        -- rewrite bool_decide_eq_true_2 by done.
           erewrite add_Score_0 by reflexivity. cbn [mbind result_bind].
           rewrite Hfin by done. eexists. split; [reflexivity|]. split; reflexivity.
        -- rewrite bool_decide_eq_false_2 by done. cbn [mbind result_bind].
           rewrite Hfin by done. eexists. split; [reflexivity|]. split; reflexivity.
      * rewrite (bool_decide_eq_false_2 (-1 = 1)) by done.
        rewrite andb_false_r. cbn [fold_result].
        rewrite (add_Score_1 g1 _ _ P1 HP); cbn [mbind result_bind];
          erewrite add_Score_0 by reflexivity; cbn [mbind result_bind];
          rewrite Hfin by done; eexists; (split; [reflexivity|]); split; reflexivity.
  - rewrite (bool_decide_eq_false_2 (closer = 0)) by done.
    rewrite (bool_decide_eq_false_2 (closer = 1)) by done. cbn [andb].
    assert (Hw : ∀ w l : Z, (w, l) ∈ [(0, 1); (1, 0); (-1, -1)] →
              bool_decide (closer ≠ -1) && bool_decide (w = closer) = false).
    { intros w l Hin. apply andb_false_iff.
      destruct (decide (closer = -1)) as [-> | Hm].
      - left. apply bool_decide_eq_false_2. intros H. by apply H.
      - right. apply bool_decide_eq_false_2.
        rewrite !elem_of_cons, elem_of_nil in Hin.
        destruct Hin as [[= -> ->] | [[= -> ->] | [[= -> ->] | []]]];
          congruence. }
    destruct (P0 <? P1); [|destruct (P1 <? P0)];
      (erewrite Hw by (rewrite !elem_of_cons; eauto));
      cbn [fold_result];
      rewrite (add_Score_1 g1 _ _ P1 HP); cbn [mbind result_bind];
      erewrite add_Score_0 by reflexivity; cbn [mbind result_bind];
      rewrite Hfin by done; eexists; (split; [reflexivity|]); split; reflexivity.
Qed.

(** C2. [CloseRound(closer)] on a state of the data model in which no hand
    is a chinchón: when the closer's penalty is strictly below the
    opponent's, the closer's score is unchanged and the opponent's score
    grows by the opponent's penalty, and by 10 more exactly when the
    closer's penalty is 0; otherwise (higher or equal penalty) each score
    grows by its player's own penalty and there is no bonus. *)
Theorem CloseRound_scoring (g : GameState) (closer : Z) (o : Oracle) :
  wf_state g →
  oracle_ok g o →
  closer = 0 ∨ closer = 1 →
  ¬ is_chinchon (hand_cards g 0) →
  ¬ is_chinchon (hand_cards g 1) →
  ∃ g',
    CloseRound g closer o = Ok g'
    ∧ if penalty_of g closer <? penalty_of g (1 - closer)
      then
        score_of g' closer = score_of g closer
        ∧ score_of g' (1 - closer)
          = if penalty_of g closer =? 0
            then GoInt.add (GoInt.add (score_of g (1 - closer))
                                      (penalty_of g (1 - closer))) 10
            else GoInt.add (score_of g (1 - closer))
                           (penalty_of g (1 - closer))
      else
        score_of g' closer
        = GoInt.add (score_of g closer) (penalty_of g closer)
        ∧ score_of g' (1 - closer)
          = GoInt.add (score_of g (1 - closer)) (penalty_of g (1 - closer)).
Proof.
  intros Hwf Hok Hcl Hn0 Hn1.
  destruct (oracle_ok_inv g o Hwf Hok) as (Hopp & Hclose & _).
  destruct (wf_state_inv g Hwf)
    as (h0 & s0 & h1 & s1 & rl & HP & Hh0 & Hh1 & Hs0 & Hs1 & Hrl & _
        & Hi0 & Hi1).
  rewrite Hh0, <- IsChinchon_is_chinchon in Hn0 by done.
  rewrite Hh1, <- IsChinchon_is_chinchon in Hn1 by done.
  apply not_true_is_false in Hn0, Hn1.
  assert (Hp0 : penalty_of g 0 = PenaltyPoints h0 (ValidGroups h0))
    by (unfold penalty_of; rewrite Hh0; by destruct h0).
  assert (Hp1 : penalty_of g 1 = PenaltyPoints h1 (ValidGroups h1))
    by (unfold penalty_of; rewrite Hh1; by destruct h1).
  destruct (CloseRound_scores g closer o h0 s0 h1 s1 rl _ _
              HP Hrl Hopp Hclose Hn0 Hn1 Hp0 Hp1) as (g' & Hrun & Hg0 & Hg1).
  exists g'. split; [done|].
  destruct Hcl as [-> | ->].
  - change (1 - 0) with 1. rewrite Hg0, Hg1, Hs0, Hs1.
    rewrite (bool_decide_eq_true_2 (0 = 0)) by done.
    rewrite (bool_decide_eq_false_2 (0 = 1)) by done. cbn [andb].
    by destruct (penalty_of g 0 <? penalty_of g 1).
  - change (1 - 1) with 0. rewrite Hg0, Hg1, Hs0, Hs1.
    rewrite (bool_decide_eq_true_2 (1 = 1)) by done.
    rewrite (bool_decide_eq_false_2 (1 = 0)) by done. cbn [andb].
    by destruct (penalty_of g 1 <? penalty_of g 0).
Qed.

#[local] Arguments IsChinchon : simpl never.
#[local] Arguments ValidGroups : simpl never.
#[local] Arguments PenaltyPoints : simpl never.
#[local] Arguments CanClose : simpl never.
#[local] Arguments GoInt.add : simpl never.

(** ** A possible action runs *)

(** [CloseRound] returns on every state of the data model. *)
Lemma CloseRound_Ok g closer o :
  wf_state g → oracle_ok g o → ∃ g', CloseRound g closer o = Ok g'.
Proof.
  intros Hwf Hok.
  destruct (wf_state_inv g Hwf)
    as (h0 & s0 & h1 & s1 & rl & HP & Hh0 & Hh1 & Hs0 & Hs1 & Hrl & _
        & Hi0 & Hi1).
  destruct (IsChinchon h0) eqn:E0; [|destruct (IsChinchon h1) eqn:E1].
  - destruct (CloseRound_IsChinchon g closer o Hwf Hok) as (g' & Hg' & _);
      [|by exists g'].
    left. rewrite Hh0. by destruct h0.
  - destruct (CloseRound_IsChinchon g closer o Hwf Hok) as (g' & Hg' & _);
      [|by exists g'].
    right. rewrite Hh1. by destruct h1.
  - destruct (oracle_ok_inv g o Hwf Hok) as (Hopp & Hclose & _).
    destruct (CloseRound_scores g closer o h0 s0 h1 s1 rl _ _
                HP Hrl Hopp Hclose E0 E1 eq_refl eq_refl) as (g' & Hg' & _).
    by exists g'.
Qed.

Lemma HasCard_remove_first h card :
  HasCard h card = true → ∃ l, remove_first card (Cards h) = Some l.
Proof.
  unfold HasCard. induction (Cards h) as [|c l IH]; simpl; [done|].
  destruct (bool_decide (c = card)); simpl; [by eauto|].
  intros Hin. destruct (IH Hin) as [l' ->]. by eauto.
Qed.

Lemma last_Some_length {A} (l : list A) :
  (0 < length l)%nat → ∃ x, last l = Some x.
Proof.
  intros Hlen. destruct (last l) eqn:E; [by eauto|].
  apply last_None in E. subst. simpl in Hlen. lia.
Qed.

(** In a state of the data model the player to act has a hand. *)
Lemma wf_turn_player g :
  wf_state g →
  ∃ h s, Players g !! TurnPlayerID g = Some (MkPlayer (Some h) s).
Proof.
  intros [(h0 & s0 & h1 & s1 & HP) Hturn _ _]. rewrite HP.
  destruct Hturn as [[-> _] | [-> _]]; by eauto.
Qed.

(** C7. In a state of the data model, an action whose [IsPossible] holds
    runs: [Run] returns nil, with a new state.  In particular the branches
    of [Run] for an empty deck, an empty discard pile and a card that is not
    in the hand are not taken. *)
Theorem Run_possible (action : Action) (g : GameState) (o : Oracle) :
  wf_state g →
  oracle_ok g o →
  IsPossible action g = Ok true →
  ∃ g', Run action g o = Ok g'.
Proof.
  intros Hwf Hok Hposs.
  destruct (wf_turn_player g Hwf) as (h & s & Hturn).
  destruct action as [a | a | a card | a | a]; cbn [IsPossible Run] in *.
  - unfold ActionDrawFromDeck_Run. rewrite Hposs. cbn [mbind result_bind negb].
    unfold ActionDrawFromDeck_IsPossible in Hposs.
    possible_facts.
    unfold isEmpty in *. unfold drawCard.
    destruct (cards (DrawPile g)) as [|c rest] eqn:Hdeck; [done|].
    cbn [mbind result_bind]. unfold update_Hand. cbn [Players set_DrawPile].
    match goal with H : PlayerID a = _ |- _ => rewrite H end.
    rewrite Hturn. by eauto.
  - unfold ActionDrawFromDiscard_Run. rewrite Hposs.
    cbn [mbind result_bind negb].
    unfold ActionDrawFromDiscard_IsPossible in Hposs.
    possible_facts.
    + unfold update_Hand. cbn [Players set_DiscardPile].
      match goal with H : PlayerID a = _ |- _ => rewrite H end.
      rewrite Hturn. by eauto.
    + match goal with H : last _ = None |- _ =>
        apply last_None in H; rewrite H in * end.
      simpl in *. lia.
  - unfold ActionDiscardCard_Run. rewrite Hposs.
    cbn [mbind result_bind negb].
    unfold ActionDiscardCard_IsPossible in Hposs.
    repeat case_match; try done.
    possible_facts.
    match goal with H : PlayerID a = _ |- _ => rewrite H in * end.
    unfold update_Hand. rewrite Hturn in *.
    cbn [mbind result_bind deref hand] in *. simplify_eq.
    unfold RemoveCard.
    destruct (HasCard_remove_first h card) as [l ->]; [done|].
    cbn [mbind result_bind]. by eauto.
  - unfold ActionClose_Run. rewrite Hposs. cbn [mbind result_bind negb].
    by apply CloseRound_Ok.
  - unfold ActionConfirmRoundFinished_Run. rewrite Hposs.
    cbn [mbind result_bind negb]. by eauto.
Qed.

#[local] Arguments IsChinchon : simpl never.
#[local] Arguments ValidGroups : simpl never.
#[local] Arguments PenaltyPoints : simpl never.
#[local] Arguments GoInt.add : simpl never.

(** ** The legal moves *)

Lemma CanClose_total g id p :
  Players g !! id = Some p → ∃ b, CanClose g id = Ok b.
Proof.
  intros Hp. unfold CanClose. rewrite Hp. cbn [deref mbind result_bind].
  repeat case_match; by eauto.
Qed.

(** With more or less than seven cards in the hand there is no closing. *)
Lemma CanClose_length g id h s :
  Players g !! id = Some (MkPlayer (Some h) s) →
  length (Cards h) ≠ 7%nat →
  CanClose g id = Ok false.
Proof.
  intros Hp Hlen. unfold CanClose. rewrite Hp.
  cbn [deref mbind result_bind hand].
  rewrite bool_decide_eq_true_2 by done. by destruct (IsRoundFinished g).
Qed.

(** When the player to act has a hand, [IsPossible] answers for every
    action. *)
Lemma IsPossible_total g a h s :
  Players g !! TurnPlayerID g = Some (MkPlayer (Some h) s) →
  ∃ b, IsPossible a g = Ok b.
Proof.
  intros Hp. destruct a as [a | a | a card | a | a]; cbn [IsPossible].
  - unfold ActionDrawFromDeck_IsPossible. repeat case_match; by eauto.
  - unfold ActionDrawFromDiscard_IsPossible. repeat case_match; by eauto.
  - unfold ActionDiscardCard_IsPossible.
    destruct (_ || _); [by eauto|].
    case_bool_decide as Hpid; [by eauto|].
    destruct (negb _); [by eauto|].
    rewrite Hpid, Hp. by eauto.
  - unfold ActionClose_IsPossible.
    destruct (_ || _); [by eauto|].
    case_bool_decide as Hpid; [by eauto|].
    destruct (negb _); [by eauto|].
    rewrite Hpid. by eapply CanClose_total.
  - unfold ActionConfirmRoundFinished_IsPossible. repeat case_match; by eauto.
Qed.

Lemma is_possible_Ok g a b : IsPossible a g = Ok b → is_possible g a = b.
Proof. unfold is_possible. intros ->. by destruct b. Qed.

(** Every priority is 0, so the priority sweep keeps exactly the possible
    candidates, in order. *)
Lemma fold_keep_possible g l acc :
  (∀ a, a ∈ l → ∃ b, IsPossible a g = Ok b) →
  fold_result (keep_possible g) (0, acc) l
  = Ok (0, acc ++ filter (λ a, is_possible g a = true) l).
Proof.
  revert acc. induction l as [|a l IH]; intros acc Hl.
  - simpl. by rewrite app_nil_r.
  - destruct (Hl a) as [b Hb]; [by left|].
    cbn [fold_result]. unfold keep_possible at 2.
    rewrite Hb. cbn [mbind result_bind]. rewrite filter_cons.
    rewrite (is_possible_Ok _ _ _ Hb).
    destruct b; cbn [negb].
    + change (GetPriority a <? 0) with false.
      change (GetPriority a >? 0) with false. cbn [andb mbind result_bind].
      rewrite IH by (intros; apply Hl; by right).
      rewrite decide_True by done. by rewrite <- (assoc_L (++)).
    + cbn [mbind result_bind].
      rewrite IH by (intros; apply Hl; by right).
      by rewrite decide_False.
Qed.

(** [CalculatePossibleActions] returns the possible candidates. *)
Lemma CalculatePossibleActions_spec g h s :
  Players g !! TurnPlayerID g = Some (MkPlayer (Some h) s) →
  ∃ canClose,
    CanClose g (TurnPlayerID g) = Ok canClose
    ∧ CalculatePossibleActions g
      = Ok (filter (λ a, is_possible g a = true) (allActions_of g h canClose)).
Proof.
  intros Hp. destruct (CanClose_total g _ _ Hp) as [canClose Hcc].
  exists canClose. split; [done|].
  unfold CalculatePossibleActions. rewrite Hp, Hcc.
  cbn [deref mbind result_bind hand].
  assert (Hd : (if HasDrawnCard g && negb (IsRoundFinished g)
                then Ok ((λ card, NewActionDiscardCard card (TurnPlayerID g))
                           <$> Cards h)
                else Ok [])
               = Ok (if HasDrawnCard g && negb (IsRoundFinished g)
                     then (λ card, NewActionDiscardCard card (TurnPlayerID g))
                            <$> Cards h
                     else [])) by (by destruct (_ && _)).
  rewrite Hd. cbn [mbind result_bind].
  fold (allActions_of g h canClose).
  rewrite fold_keep_possible by (intros; by eapply IsPossible_total).
  done.
Qed.

(** Whatever is offered is possible, in any state. *)
Lemma fold_keep_possible_Forall g l p0 acc p1 acc1 :
  fold_result (keep_possible g) (p0, acc) l = Ok (p1, acc1) →
  Forall (λ a, IsPossible a g = Ok true) acc →
  Forall (λ a, IsPossible a g = Ok true) acc1.
Proof.
  revert p0 acc. induction l as [|x l IH]; intros p0 acc Hfold Hacc.
  - by simplify_eq/=.
  - cbn [fold_result] in Hfold.
    apply bind_Ok in Hfold as ([p2 acc2] & Hk & Hfold).
    apply (IH _ _ Hfold). clear IH Hfold.
    unfold keep_possible in Hk.
    apply bind_Ok in Hk as (b & Hb & Hk).
    destruct b; cbn [negb] in Hk; [|by simplify_eq].
    destruct (GetPriority x <? p0); [by simplify_eq|].
    destruct (_ && _); simplify_eq.
    + by repeat constructor.
    + apply Forall_app. split; [done|]. by repeat constructor.
Qed.

Lemma CalculatePossibleActions_possible g acts a :
  CalculatePossibleActions g = Ok acts → a ∈ acts → IsPossible a g = Ok true.
Proof.
  unfold CalculatePossibleActions. intros Hc Ha.
  apply bind_Ok in Hc as (discards & _ & Hc).
  apply bind_Ok in Hc as (canClose & _ & Hc).
  apply bind_Ok in Hc as ([prio acts'] & Hfold & Hc).
  simplify_eq/=.
  apply fold_keep_possible_Forall in Hfold; [|constructor].
  by eapply Forall_forall in Hfold.
Qed.

#[local] Arguments IsChinchon : simpl never.
#[local] Arguments ValidGroups : simpl never.
#[local] Arguments PenaltyPoints : simpl never.
#[local] Arguments GoInt.add : simpl never.
#[local] Arguments CanClose : simpl never.
#[local] Arguments CalculatePossibleActions : simpl never.

(** ** The client's view *)

Lemma filter_filter_comm {A} (P Q : A → Prop)
    `{!∀ x, Decision (P x)} `{!∀ x, Decision (Q x)} (l : list A) :
  filter P (filter Q l) = filter Q (filter P l).
Proof.
  rewrite !list_filter_filter. apply list_filter_iff. intros x. tauto.
Qed.

(** Of the candidates, only the confirmation of the opponent of the player
    to act is an action of that opponent. *)
Lemma allActions_of_opponent g h canClose v :
  TurnPlayerID g ≠ v → TurnOpponentPlayerID g = v →
  filter (λ a, GetPlayerID a = v) (allActions_of g h canClose)
  = [NewActionConfirmRoundFinished v].
Proof.
  intros Hne Hopp. unfold allActions_of. rewrite !filter_app.
  assert (H1 : ∀ l : list Action, Forall (λ a, GetPlayerID a = TurnPlayerID g) l →
                 filter (λ a, GetPlayerID a = v) l = []).
  { intros l Hl. apply filter_none. eapply Forall_impl; [exact Hl|].
    simpl. congruence. }
  rewrite (H1 (if negb _ && _ then _ else _))
    by (destruct (negb _ && _); by repeat constructor).
  rewrite (H1 (if HasDrawnCard g && _ then _ else _)).
  2:{ destruct (_ && _); [|constructor]. apply Forall_fmap, Forall_true. done. }
  rewrite (H1 (if canClose && _ then _ else _))
    by (destruct (canClose && _); by repeat constructor).
  rewrite Hopp. cbn [app]. rewrite !filter_cons, filter_nil.
  rewrite decide_False by done. by rewrite decide_True.
Qed.

(** What the viewer is offered when it is the other player's turn. *)
Lemma viewer_actions_off_turn g h s v :
  Players g !! TurnPlayerID g = Some (MkPlayer (Some h) s) →
  TurnPlayerID g ≠ v → TurnOpponentPlayerID g = v →
  ∃ acts,
    CalculatePossibleActions g = Ok acts
    ∧ filter (λ a, GetPlayerID a = v) acts
      = filter (λ a, is_possible g a = true)
               [NewActionConfirmRoundFinished v].
Proof.
  intros Hp Hne Hopp.
  destruct (CalculatePossibleActions_spec g h s Hp) as (cc & _ & ->).
  eexists. split; [done|].
  by rewrite filter_filter_comm, allActions_of_opponent.
Qed.

(** Other cards in the hand of a player who is not to act change nothing
    in the legal moves. *)
Lemma IsPossible_with_hand id h' g a :
  id ≠ TurnPlayerID g → IsPossible a (with_hand id h' g) = IsPossible a g.
Proof.
  intros Hne.
  destruct a as [a | a | a card | a | a]; cbn [IsPossible]; try reflexivity.
  - unfold ActionDiscardCard_IsPossible. cbn.
    destruct (_ || _); [done|].
    case_bool_decide as Hpid; [done|]. destruct (negb _); [done|].
    rewrite lookup_alter_ne by congruence. done.
  - unfold ActionClose_IsPossible. cbn.
    destruct (_ || _); [done|].
    case_bool_decide as Hpid; [done|]. destruct (negb _); [done|].
    unfold CanClose. cbn. rewrite lookup_alter_ne by congruence. done.
Qed.

Lemma fold_result_ext {A B} (f f' : B → A → result B) b l :
  (∀ b a, f b a = f' b a) → fold_result f b l = fold_result f' b l.
Proof.
  intros Hf. revert b. induction l as [|a l IH]; intros b; [done|].
  cbn [fold_result]. rewrite Hf. destruct (f' b a); cbn; auto.
Qed.

Lemma CalculatePossibleActions_with_hand id h' g :
  id ≠ TurnPlayerID g →
  CalculatePossibleActions (with_hand id h' g) = CalculatePossibleActions g.
Proof.
  intros Hne. unfold CalculatePossibleActions.
  change (HasDrawnCard (with_hand id h' g)) with (HasDrawnCard g).
  change (IsRoundFinished (with_hand id h' g)) with (IsRoundFinished g).
  change (TurnPlayerID (with_hand id h' g)) with (TurnPlayerID g).
  change (TurnOpponentPlayerID (with_hand id h' g))
    with (TurnOpponentPlayerID g).
  assert (Hcc : CanClose (with_hand id h' g) (TurnPlayerID g)
                = CanClose g (TurnPlayerID g)).
  { unfold CanClose. cbn. by rewrite lookup_alter_ne. }
  rewrite Hcc.
  change (Players (with_hand id h' g))
    with (alter (λ p, MkPlayer (Some h') (Score p)) id (Players g)).
  rewrite lookup_alter_ne by done.
  destruct (if HasDrawnCard g && _ then _ else _) as [discards| |]; try done.
  cbn [mbind result_bind].
  destruct (CanClose g (TurnPlayerID g)) as [cc| |]; try done.
  cbn [mbind result_bind].
  erewrite fold_result_ext; [done|].
  intros [p acc] a. unfold keep_possible.
  by rewrite <- (IsPossible_with_hand id h' g a Hne).
Qed.

(** The actions handed to the viewer are the viewer's. *)
Lemma ToClientGameState_own_actions g v o cgs :
  ToClientGameState g v o = Ok cgs →
  ∃ acts,
    cgs_PossibleActions cgs = _serializeActions acts
    ∧ Forall (λ a, GetPlayerID a = v) acts.
Proof.
  unfold ToClientGameState. intros H.
  apply bind_Ok in H as (acts & _ & H).
  apply bind_Ok in H as (you & _ & H).
  apply bind_Ok in H as (them & _ & H).
  apply bind_Ok in H as (yh & _ & H).
  apply bind_Ok in H as (th & _ & H).
  apply bind_Ok in H as (rl & _ & H).
  simplify_eq/=. eexists. split; [done|].
  apply Forall_forall. intros a Ha. by apply list_elem_of_filter in Ha as [? _].
Qed.

(** The view of [v] when the cards of the opponent [opp] are replaced. *)
Lemma ToClientGameState_with_hand g v opp o h' pv ho so :
  v ≠ opp →
  Players g !! v = Some pv →
  Players g !! opp = Some (MkPlayer (Some ho) so) →
  OpponentOf o g v = opp →
  OpponentOf o (with_hand opp h' g) v = opp →
  TurnPlayerID g = v
  ∨ (TurnPlayerID g = opp ∧ TurnOpponentPlayerID g = v) →
  length (Cards h') = length (Cards ho) →
  ToClientGameState (with_hand opp h' g) v o = ToClientGameState g v o.
Proof.
  intros Hne Hv Ho Hopp Hopp' Hturn Hlen.
  assert (Hv' : Players (with_hand opp h' g) !! v = Some pv)
    by (cbn; by rewrite lookup_alter_ne).
  assert (Ho' : Players (with_hand opp h' g) !! opp
                = Some (MkPlayer (Some h') so))
    by (cbn; by rewrite lookup_alter_eq, Ho).
  unfold ToClientGameState. rewrite Hopp, Hopp', Hv, Ho, Hv', Ho'.
  change (current_RoundLog (with_hand opp h' g)) with (current_RoundLog g).
  cbn [deref mbind result_bind hand Score].
  destruct Hturn as [Ht | [Ht Hto]].
  - rewrite CalculatePossibleActions_with_hand by congruence.
    destruct (CalculatePossibleActions g) as [acts| |]; try done.
    cbn [mbind result_bind]. destruct (hand pv) as [hv|]; [|done].
    cbn [deref mbind result_bind].
    destruct (current_RoundLog g) as [rl| |]; try done.
    cbn [mbind result_bind]. by rewrite Hlen.
  - destruct (viewer_actions_off_turn g ho so v) as (acts & -> & Hf);
      [by rewrite Ht|congruence|done|].
    destruct (viewer_actions_off_turn (with_hand opp h' g) h' so v)
      as (acts' & -> & Hf');
      [change (TurnPlayerID (with_hand opp h' g)) with (TurnPlayerID g);
       by rewrite Ht|cbn; congruence|done|].
    cbn [mbind result_bind]. rewrite Hf, Hf'.
    destruct (hand pv) as [hv|]; [|done].
    cbn [deref mbind result_bind].
    destruct (current_RoundLog g) as [rl| |]; try done.
    cbn [mbind result_bind]. by rewrite Hlen.
Qed.

(** C10. Take a state of the data model and a viewer [v], and put any other
    hand of the same size in place of the hand of the viewer's opponent:
    [ToClientGameState(v)] returns the same client state.  The client state
    carries the size of the opponent's hand, and every action it offers is
    an action of [v]. *)
Theorem ToClientGameState_hides_opponent
    (g : GameState) (v : Z) (o : Oracle) (h' : Hand) :
  wf_state g →
  oracle_ok g o →
  length (Cards h') = length (hand_cards g (OpponentOf o g v)) →
  ToClientGameState (with_hand (OpponentOf o g v) h' g) v o
  = ToClientGameState g v o
  ∧ (v = 0 ∨ v = 1 → ∃ cgs, ToClientGameState g v o = Ok cgs)
  ∧ ∀ cgs,
      ToClientGameState g v o = Ok cgs →
      cgs_YourHand cgs = hand_cards g v
      ∧ cgs_TheirHandSize cgs
        = Z.of_nat (length (hand_cards g (OpponentOf o g v)))
      ∧ ∃ acts,
          cgs_PossibleActions cgs = _serializeActions acts
          ∧ Forall (λ a, GetPlayerID a = v) acts.
Proof.
  intros Hwf Hok Hlen.
  destruct (oracle_ok_inv g o Hwf Hok) as (Hopp & _ & _).
  destruct (wf_state_inv g Hwf)
    as (h0 & s0 & h1 & s1 & rl & HP & Hh0 & Hh1 & _ & _ & Hrl & _ & _ & _).
  pose proof (wf_turn g Hwf) as Hturn.
  destruct (wf_turn_player g Hwf) as (ht & st & Hpt).
  split_and!.
  - destruct (decide (v = 0)) as [-> | Hv0];
      [|destruct (decide (v = 1)) as [-> | Hv1]].
    + rewrite (OpponentOf_two o g _ _ 0 HP Hopp) in * by by left.
      change (1 - 0) with 1 in *. rewrite Hh1 in Hlen.
      eapply ToClientGameState_with_hand; try done.
      * by rewrite HP.
      * by rewrite HP.
      * by rewrite (OpponentOf_two o g _ _ 0 HP Hopp) by by left.
      * eapply (OpponentOf_two o _ _ _ 0); [|done|by left].
        cbn. rewrite HP. reflexivity.
      * destruct Hturn as [[? ?] | [? ?]]; by auto.
    + rewrite (OpponentOf_two o g _ _ 1 HP Hopp) in * by by right.
      change (1 - 1) with 0 in *. rewrite Hh0 in Hlen.
      eapply ToClientGameState_with_hand; try done.
      * by rewrite HP.
      * by rewrite HP.
      * by rewrite (OpponentOf_two o g _ _ 1 HP Hopp) by by right.
      * eapply (OpponentOf_two o _ _ _ 1); [|done|by right].
        cbn. rewrite HP. reflexivity.
      * destruct Hturn as [[? ?] | [? ?]]; by auto.
    + assert (Hnone : Players g !! v = None).
      { rewrite HP, lookup_insert_ne, lookup_singleton_ne; done. }
      assert (Hid : OpponentOf o g v = 0 ∨ OpponentOf o g v = 1).
      { unfold OpponentOf.
        destruct (range_Players_two (opp_order o) g _ _ HP Hopp) as [-> | ->];
          cbn [fmap list_fmap fst first_other];
          rewrite bool_decide_eq_true_2 by done; by auto. }
      set (id := OpponentOf o g v) in *.
      assert (Hpt' : ∃ h s, Players (with_hand id h' g)
                              !! TurnPlayerID (with_hand id h' g)
                            = Some (MkPlayer (Some h) s)).
      { cbn. rewrite HP.
        destruct Hid as [-> | ->], Hturn as [[-> _] | [-> _]];
          by eauto. }
      destruct Hpt' as (ht' & st' & Hpt').
      destruct (CalculatePossibleActions_spec _ _ _ Hpt) as (cc & _ & Hc).
      destruct (CalculatePossibleActions_spec _ _ _ Hpt') as (cc' & _ & Hc').
      unfold ToClientGameState. rewrite Hc, Hc'.
      change (Players (with_hand id h' g) !! v)
        with (alter (λ p, MkPlayer (Some h') (Score p)) id (Players g) !! v).
      rewrite lookup_alter_ne, Hnone; [done|].
      destruct Hid as [-> | ->]; congruence.
  - intros Hv. unfold ToClientGameState.
    destruct (CalculatePossibleActions_spec _ _ _ Hpt) as (cc & _ & ->).
    rewrite (OpponentOf_two o g _ _ v HP Hopp Hv), Hrl.
    rewrite HP. destruct Hv as [-> | ->]; by eauto.
  - intros cgs Hcgs. split_and!.
    + unfold ToClientGameState in Hcgs.
      apply bind_Ok in Hcgs as (acts & _ & H).
      apply bind_Ok in H as (you & Hyou & H).
      apply bind_Ok in H as (them & _ & H).
      apply bind_Ok in H as (yh & Hyh & H).
      apply bind_Ok in H as (th & _ & H).
      apply bind_Ok in H as (rl' & _ & H).
      simplify_eq/=. unfold hand_cards.
      destruct (Players g !! v); [|done]. simplify_eq/=.
      by destruct (hand you); simplify_eq/=.
    + unfold ToClientGameState in Hcgs.
      apply bind_Ok in Hcgs as (acts & _ & H).
      apply bind_Ok in H as (you & _ & H).
      apply bind_Ok in H as (them & Hthem & H).
      apply bind_Ok in H as (yh & _ & H).
      apply bind_Ok in H as (th & Hth & H).
      apply bind_Ok in H as (rl' & _ & H).
      simplify_eq/=. unfold hand_cards.
      destruct (Players g !! OpponentOf o g v); [|done]. simplify_eq/=.
      by destruct (hand them); simplify_eq/=.
    + by eapply ToClientGameState_own_actions.
Qed.

#[local] Arguments IsChinchon : simpl never.
#[local] Arguments ValidGroups : simpl never.
#[local] Arguments PenaltyPoints : simpl never.
#[local] Arguments GoInt.add : simpl never.
#[local] Arguments CanClose : simpl never.
#[local] Arguments CalculatePossibleActions : simpl never.
#[local] Arguments makeSpanishCards : simpl never.

(** ** Dealing and the first round *)

Lemma deal_loop_spec n acc l :
  deal_loop n (MkHand acc) (MkDeck l)
  = (MkHand (acc ++ take n l), MkDeck (drop n l)).
Proof.
  revert acc l. induction n as [|n IH]; intros acc l.
  - simpl. by rewrite take_0, drop_0, app_nil_r.
  - destruct l as [|c l]; cbn [deal_loop cards Cards].
    + rewrite IH. by rewrite take_nil, drop_nil.
    + rewrite IH. cbn [take drop]. by rewrite <- (assoc_L (++)).
Qed.

Lemma options_fold ms gs :
  ∃ m, foldl (λ gs opt, opt gs) gs (WithMaxPoints <$> ms)
       = set_RuleMaxPoints m gs.
Proof.
  revert gs. induction ms as [|m ms IH]; intros gs.
  - exists (RuleMaxPoints gs). by destruct gs.
  - cbn [fmap list_fmap foldl]. destruct (IH (WithMaxPoints m gs)) as [m' ->].
    by exists m'.
Qed.

Lemma makeSpanishCards_length rnd : length (makeSpanishCards rnd) = 48%nat.
Proof. by rewrite (Permutation_length (makeSpanishCards_Permutation rnd)). Qed.

(** The first round, computed: the hands are the first and the second
    seven cards of the shuffled deck, the fifteenth card opens the discard
    pile, player 0 is to act. *)
Lemma startNewRound_first tp top' (p0 p1 : Player) dp disc pa irf ige wp lp
    rlog conf rmp crc hdc r0 oo co so (D : list Card) :
  oo = [0; 1] ∨ oo = [1; 0] →
  makeSpanishCards r0 = D →
  (14 < length D)%nat →
  ∃ top rest gD,
    drop 14 D = top :: rest
    ∧ gD = MkGameState 1 0 1
             {[ 0 := MkPlayer (Some (MkHand (take 7 D))) (Score p0);
                1 := MkPlayer (Some (MkHand (take 7 (drop 7 D)))) (Score p1) ]}
             (MkDeck rest) [top] pa false ige wp lp
             (rlog ++ [MkRoundLog {[ 0 := MkHand (take 7 D);
                                     1 := MkHand (take 7 (drop 7 D)) ]}
                         (-1) (-1) ∅ (-1) false []])
             ∅ rmp (-1) false
    ∧ startNewRound
        (MkGameState 0 tp top' {[ 0 := p0; 1 := p1 ]} dp disc pa irf ige wp lp
           rlog conf rmp crc hdc)
        (MkOracle r0 oo co so)
      = (possibleActions ← CalculatePossibleActions gD;
         Ok (set_PossibleActions (_serializeActions possibleActions) gD)).
Proof.
  intros Hoo HD Hlen.
  do 15 (destruct D as [|? D]; [simpl in Hlen; lia|]).
  eexists _, _, _. split; [reflexivity|]. split; [reflexivity|].
  unfold startNewRound, shuffle. cbn [rnd]. rewrite HD.
  destruct Hoo as [-> | ->];
    lazy -[CalculatePossibleActions _serializeActions]; reflexivity.
Qed.

(** The two hands, the opening discard and the rest are the whole deck. *)
Lemma deal_Permutation (D : list Card) top rest :
  drop 14 D = top :: rest →
  rest ++ [top] ++ take 7 D ++ take 7 (drop 7 D) ≡ₚ D.
Proof.
  intros Hdrop.
  assert (HD : D = take 7 D ++ take 7 (drop 7 D) ++ top :: rest).
  { rewrite <- Hdrop. change 14%nat with (7 + 7)%nat.
    rewrite <- drop_drop. by rewrite !take_drop. }
  revert HD. generalize (take 7 D) (take 7 (drop 7 D)). intros A B ->.
  rewrite (assoc_L (++) A B), (Permutation_app_comm (A ++ B)).
  cbn [app]. by rewrite <- Permutation_middle.
Qed.

(** ** The invariant of the reachable states *)

(** The legal moves do not depend on the serialised list of the state. *)
Lemma CalculatePossibleActions_set_PossibleActions pa g :
  CalculatePossibleActions (set_PossibleActions pa g)
  = CalculatePossibleActions g.
Proof. by destruct g. Qed.

Lemma hand_cards_two g h0 s0 h1 s1 :
  Players g = {[ 0 := MkPlayer (Some h0) s0; 1 := MkPlayer (Some h1) s1 ]} →
  hand_cards g 0 = Cards h0 ∧ hand_cards g 1 = Cards h1.
Proof. intros Hp. unfold hand_cards. rewrite Hp. by split. Qed.

(** The invariant, from the fields of the state. *)
Lemma game_inv_intro g h0 h1 acts :
  Players g = {[ 0 := MkPlayer (Some h0) 0; 1 := MkPlayer (Some h1) 0 ]} →
  (TurnPlayerID g = 0 ∧ TurnOpponentPlayerID g = 1)
  ∨ (TurnPlayerID g = 1 ∧ TurnOpponentPlayerID g = 0) →
  RoundNumber g = 1 →
  length (RoundsLog g) = 2%nat →
  IsRoundFinished g = false →
  cards (DrawPile g) ++ DiscardPile g ++ Cards h0 ++ Cards h1
    ≡ₚ spanishCards →
  (IsGameEnded g = true → HasDrawnCard g = false) →
  (IsGameEnded g = false →
   length (Cards (if decide (TurnPlayerID g = 0) then h0 else h1))
   = (if HasDrawnCard g then 8%nat else 7%nat)
   ∧ length (Cards (if decide (TurnPlayerID g = 0) then h1 else h0)) = 7%nat
   ∧ (HasDrawnCard g = false → DiscardPile g ≠ [])) →
  CalculatePossibleActions g = Ok acts →
  PossibleActions g = _serializeActions acts →
  game_inv g.
Proof.
  intros Hp Ht Hr Hl Hf Hc He Hh Ha Hs.
  destruct (hand_cards_two _ _ _ _ _ Hp) as [E0 E1].
  split.
  - split; [by eauto|done|done|done|].
    unfold all_cards. by rewrite E0, E1.
  - done.
  - intros Hne. destruct (Hh Hne) as (H1 & H2 & H3). unfold hands_inv.
    destruct Ht as [[Ht Ho] | [Ht Ho]]; rewrite Ht, Ho, E0, E1;
      rewrite Ht in H1, H2; by repeat case_decide.
  - by exists acts.
Qed.

(** [New] returns, and its state satisfies the invariant. *)
Lemma New_inv ms rnd0 o :
  oracle_ok_for {[0; 1]} o →
  ∃ g, New (WithMaxPoints <$> ms) rnd0 o = Ok g
       ∧ game_inv g ∧ IsGameEnded g = false ∧ HasDrawnCard g = false.
Proof.
  intros (Hopp & _ & _). apply order_ok_two in Hopp.
  destruct o as [r0 oo co so]. cbn [opp_order] in Hopp.
  unfold New.
  match goal with |- context [foldl _ ?gs _] =>
    destruct (options_fold ms gs) as [m ->]
  end.
  pose proof (makeSpanishCards_length r0) as Hlen.
  pose proof (makeSpanishCards_Permutation r0) as Hperm.
  set (D := makeSpanishCards r0) in *.
  destruct (startNewRound_first 0 0 (MkPlayer None 0) (MkPlayer None 0)
              (newDeck rnd0) [] [] false false (-1) (-1) [zero_RoundLog] ∅ m
              (-1) false r0 oo co so D Hopp eq_refl ltac:(lia))
    as (top & rest & gD & Hdrop & HgD & Hrun).
  change (set_RuleMaxPoints m _)
    with (MkGameState 0 0 0 {[ 0 := MkPlayer None 0; 1 := MkPlayer None 0 ]}
            (newDeck rnd0) [] [] false false (-1) (-1) [zero_RoundLog] ∅ m
            (-1) false).
  rewrite Hrun. clear Hrun.
  destruct (CalculatePossibleActions_spec gD (MkHand (take 7 D)) 0)
    as (cc & _ & Hc); [by rewrite HgD|].
  rewrite Hc. cbn [mbind result_bind].
  set (acts := filter _ _) in *.
  exists (set_PossibleActions (_serializeActions acts) gD).
  split; [reflexivity|].
  assert (Hl0 : length (take 7 D) = 7%nat) by (rewrite length_take; lia).
  assert (Hl1 : length (take 7 (drop 7 D)) = 7%nat)
    by (rewrite length_take, length_drop; lia).
  rewrite <- (CalculatePossibleActions_set_PossibleActions
                (_serializeActions acts)) in Hc.
  assert (Hcards : rest ++ [top] ++ take 7 D ++ take 7 (drop 7 D)
                   ≡ₚ spanishCards)
    by (etrans; [by apply deal_Permutation | exact Hperm]).
  clearbody D acts. clear Hperm Hlen.
  split_and!; [|by rewrite HgD|by rewrite HgD].
  apply (game_inv_intro _ (MkHand (take 7 D)) (MkHand (take 7 (drop 7 D)))
           acts).
  - by rewrite HgD.
  - left. by rewrite HgD.
  - by rewrite HgD.
  - by rewrite HgD.
  - by rewrite HgD.
  - rewrite HgD. exact Hcards.
  - by rewrite HgD.
  - intros _. rewrite HgD. cbn [set_PossibleActions TurnPlayerID HasDrawnCard
      DiscardPile]. rewrite decide_True by done. by split_and!.
  - exact Hc.
  - by rewrite HgD.
Qed.

#[local] Arguments IsChinchon : simpl never.
#[local] Arguments ValidGroups : simpl never.
#[local] Arguments PenaltyPoints : simpl never.
#[local] Arguments GoInt.add : simpl never.
#[local] Arguments CanClose : simpl never.
#[local] Arguments CalculatePossibleActions : simpl never.
#[local] Arguments makeSpanishCards : simpl never.

(** ** [RunAction] keeps the invariant *)

Lemma spanishCards_int : int_cards spanishCards.
Proof.
  unfold int_cards. apply Forall_forall. intros c Hc.
  unfold spanishCards in Hc.
  apply list_elem_of_bind in Hc as (suit & Hc & _).
  apply list_elem_of_bind in Hc as (i & Hc & Hi).
  apply list_elem_of_singleton in Hc as ->. cbn [Number].
  apply elem_of_seqZ in Hi.
  unfold GoInt.is_int, GoInt.min_int, GoInt.max_int. lia.
Qed.

(** The states of the invariant are states of the data model. *)
Lemma base_inv_wf g : base_inv g → wf_state g.
Proof.
  intros [(h0 & h1 & HP) Ht [Hr Hl] _ Hc].
  split; [by eauto 6|done|rewrite Hr, Hl; simpl; lia|].
  pose proof spanishCards_int as Hint. unfold int_cards in *.
  rewrite <- Hc in Hint. unfold all_cards in Hint.
  rewrite !Forall_app in Hint. tauto.
Qed.

(** When the game has ended, no action is possible. *)
Lemma IsPossible_ended a g : IsGameEnded g = true → IsPossible a g = Ok false.
Proof.
  intros He. destruct a; cbn [IsPossible];
    unfold ActionDrawFromDeck_IsPossible, ActionDrawFromDiscard_IsPossible,
      ActionDiscardCard_IsPossible, ActionClose_IsPossible,
      ActionConfirmRoundFinished_IsPossible;
    rewrite He, orb_true_r; done.
Qed.

(** The counting loop of [countActionsOfTurnPlayer] counts. *)
Lemma count_loop (P : Action → bool) (l : list Action) (c : Z) :
  0 ≤ c → c + Z.of_nat (length l) ≤ GoInt.max_int →
  foldl (λ count a, if P a then GoInt.add count 1 else count) c l
  = c + Z.of_nat (length (filter (λ a, P a = true) l)).
Proof.
  revert c. induction l as [|a l IH]; intros c Hc Hb.
  - simpl. lia.
  - cbn [foldl length] in *. rewrite filter_cons. cbn beta.
    destruct (P a) eqn:E.
    + rewrite decide_True by done. rewrite add_small.
      * rewrite IH by lia. cbn [length]. lia.
      * unfold GoInt.is_int, GoInt.min_int, GoInt.max_int in *. lia.
    + rewrite decide_False by done. apply IH; lia.
Qed.

Lemma allActions_of_length g h cc :
  (length (allActions_of g h cc) ≤ 5 + length (Cards h))%nat.
Proof.
  unfold allActions_of. rewrite !length_app.
  destruct (negb _ && _), (HasDrawnCard g && _), (cc && _);
    cbn [length]; rewrite ?length_fmap; lia.
Qed.

(** A player to act who can draw from the discard pile, or who holds a card
    to discard, has a move. *)
Lemma countActionsOfTurnPlayer_pos g h s :
  Players g !! TurnPlayerID g = Some (MkPlayer (Some h) s) →
  IsGameEnded g = false →
  IsRoundFinished g = false →
  (length (Cards h) ≤ 8)%nat →
  (if HasDrawnCard g then Cards h ≠ [] else DiscardPile g ≠ []) →
  ∃ acts count,
    CalculatePossibleActions g = Ok acts
    ∧ countActionsOfTurnPlayer g = Ok count
    ∧ count ≠ 0.
Proof.
  intros Hp He Hf Hlen Hmove.
  destruct (CalculatePossibleActions_spec g h s Hp) as (cc & _ & Hc).
  unfold countActionsOfTurnPlayer. rewrite Hc. cbn [mbind result_bind].
  eexists _, _. split; [reflexivity|]. split; [reflexivity|].
  set (acts := filter _ _).
  assert (Hacts : (length acts ≤ 13)%nat).
  { unfold acts. etrans; [apply length_filter|].
    pose proof (allActions_of_length g h cc). lia. }
  rewrite (count_loop (λ a, bool_decide (GetPlayerID a = TurnPlayerID g)))
    by (unfold GoInt.max_int; lia).
  assert (Hex : ∃ a, a ∈ acts ∧ GetPlayerID a = TurnPlayerID g).
  { unfold acts, allActions_of. rewrite Hf.
    destruct (HasDrawnCard g) eqn:Hd; cbn [negb andb app].
    - destruct (Cards h) as [|c l] eqn:Hh; [done|].
      exists (NewActionDiscardCard c (TurnPlayerID g)). split; [|done].
      apply list_elem_of_filter. split.
      + unfold is_possible. cbn [IsPossible NewActionDiscardCard].
        unfold ActionDiscardCard_IsPossible.
        rewrite He, Hf, Hd. cbn [orb negb PlayerID].
        rewrite bool_decide_eq_false_2 by (by intros []).
        rewrite Hp. cbn [deref mbind result_bind hand].
        unfold HasCard. rewrite Hh. cbn [existsb].
        by rewrite bool_decide_eq_true_2.
      + cbn [fmap list_fmap]. apply elem_of_app. left. by left.
    - exists (NewActionDrawFromDiscard (TurnPlayerID g)). split; [|done].
      apply list_elem_of_filter. split.
      + unfold is_possible. cbn [IsPossible NewActionDrawFromDiscard].
        unfold ActionDrawFromDiscard_IsPossible.
        rewrite He, Hf, Hd. cbn [orb negb PlayerID].
        rewrite bool_decide_eq_false_2 by (by intros []).
        rewrite bool_decide_eq_true_2; [done|].
        destruct (DiscardPile g); [done|simpl; lia].
      + right. by left. }
  destruct Hex as (a & Ha & Hpid).
  assert (a ∈ filter (λ a, bool_decide (GetPlayerID a = TurnPlayerID g) = true)
                acts).
  { apply list_elem_of_filter. split; [|done]. by apply bool_decide_eq_true_2. }
  destruct (filter _ acts); [by apply elem_of_nil in H|]. simpl. lia.
Qed.

#[local] Arguments IsChinchon : simpl never.
#[local] Arguments ValidGroups : simpl never.
#[local] Arguments PenaltyPoints : simpl never.
#[local] Arguments GoInt.add : simpl never.
#[local] Arguments CanClose : simpl never.
#[local] Arguments CalculatePossibleActions : simpl never.
#[local] Arguments makeSpanishCards : simpl never.

(** The score loop of [RunAction] when both scores are 0: nothing happens
    when the limit is positive, and the game ends otherwise. *)
Lemma score_loop_zero o g h0 h1 :
  Players g = {[ 0 := MkPlayer h0 0; 1 := MkPlayer h1 0 ]} →
  score_order o = [0; 1] ∨ score_order o = [1; 0] →
  (0 < RuleMaxPoints g ∧ score_loop o g = g)
  ∨ (RuleMaxPoints g ≤ 0
     ∧ ∃ w l, score_loop o g
              = set_WinnerPlayerID w
                  (set_LoserPlayerID l (set_IsGameEnded true g))).
Proof.
  intros HP Hsc.
  unfold score_loop.
  destruct (range_Players_two _ g _ _ HP Hsc) as [-> | ->];
    destruct g as [rn t to pl dp disc pa irf ige wp lp rlog conf rmp crc hdc];
    cbn [Players RuleMaxPoints] in *; subst pl;
    cbn [foldl fst Players RuleMaxPoints set_WinnerPlayerID set_LoserPlayerID
         set_IsGameEnded];
    change (({[ 0 := MkPlayer h0 0; 1 := MkPlayer h1 0 ]} : gmap Z Player)
              !! 0) with (Some (MkPlayer h0 0));
    change (({[ 0 := MkPlayer h0 0; 1 := MkPlayer h1 0 ]} : gmap Z Player)
              !! 1) with (Some (MkPlayer h1 0));
    cbn [Score]; destruct (0 >=? rmp) eqn:E;
    cbn [foldl fst Players RuleMaxPoints set_WinnerPlayerID set_LoserPlayerID
         set_IsGameEnded];
    change (({[ 0 := MkPlayer h0 0; 1 := MkPlayer h1 0 ]} : gmap Z Player)
              !! 0) with (Some (MkPlayer h0 0));
    change (({[ 0 := MkPlayer h0 0; 1 := MkPlayer h1 0 ]} : gmap Z Player)
              !! 1) with (Some (MkPlayer h1 0));
    cbn [Score]; rewrite ?E;
    first [ right; split; [lia|]; by eauto | left; split; [lia|done] ].
Qed.

(** The legal moves of a state whose game has ended: none. *)
Lemma CalculatePossibleActions_ended g h s :
  Players g !! TurnPlayerID g = Some (MkPlayer (Some h) s) →
  IsGameEnded g = true →
  CalculatePossibleActions g = Ok [].
Proof.
  intros Hp He.
  destruct (CalculatePossibleActions_spec g h s Hp) as (cc & _ & ->).
  f_equal. induction (allActions_of g h cc) as [|a l IH]; [done|].
  rewrite filter_cons, decide_False; [done|].
  unfold is_possible. by rewrite IsPossible_ended.
Qed.

(** The end of [RunAction] on a state of the invariant whose game goes on:
    it returns, and the invariant holds again. *)
Lemma finish_RunAction_inv o g :
  base_inv g → IsGameEnded g = false → hands_inv g → oracle_ok g o →
  ∃ g', finish_RunAction o g = Ok g' ∧ game_inv g'.
Proof.
  intros Hb He Hh Hok.
  pose proof (base_inv_wf g Hb) as Hwf.
  destruct (oracle_ok_inv g o Hwf Hok) as (_ & _ & Hsc).
  destruct Hb as [(h0 & h1 & HP) Ht [Hr Hl] Hf Hc].
  destruct (hand_cards_two _ _ _ _ _ HP) as [E0 E1].
  unfold all_cards in Hc. rewrite E0, E1 in Hc.
  destruct Hh as (Hh1 & Hh2 & Hh3).
  assert (Hhands :
    length (Cards (if decide (TurnPlayerID g = 0) then h0 else h1))
    = (if HasDrawnCard g then 8%nat else 7%nat)
    ∧ length (Cards (if decide (TurnPlayerID g = 0) then h1 else h0)) = 7%nat).
  { destruct Ht as [[Ht Ho] | [Ht Ho]]; rewrite Ht, Ho in *;
      rewrite E0, E1 in *; by repeat case_decide. }
  unfold finish_RunAction. cbv zeta.
  destruct (score_loop_zero o g _ _ HP Hsc) as [[Hm ->] | (Hm & w & l & ->)].
  - assert (∃ h, Players g !! TurnPlayerID g = Some (MkPlayer (Some h) 0)
                 ∧ hand_cards g (TurnPlayerID g) = Cards h)
      as (h & Hp & Eh).
    { destruct Ht as [[-> _] | [-> _]]; rewrite HP; by eauto. }
    rewrite Eh in Hh1.
    destruct (countActionsOfTurnPlayer_pos g h 0 Hp He Hf)
      as (acts & count & Hc1 & Hc2 & Hne).
    { destruct (HasDrawnCard g); lia. }
    { destruct (HasDrawnCard g); [|by auto].
      destruct (Cards h); [simpl in Hh1; lia|done]. }
    rewrite Hc1, Hc2. cbn [mbind result_bind].
    apply Z.eqb_neq in Hne. rewrite Hne.
    eexists. split; [reflexivity|].
    rewrite <- (CalculatePossibleActions_set_PossibleActions
                  (_serializeActions acts)) in Hc1.
    apply (game_inv_intro _ h0 h1 acts); fields; try done.
    + by rewrite He.
    + intros _. by destruct Hhands.
  - set (gS := set_WinnerPlayerID w _).
    assert (∃ h h', Players gS !! TurnPlayerID gS
                    = Some (MkPlayer (Some h) 0)
                    ∧ Players (changeTurn gS) !! TurnPlayerID (changeTurn gS)
                      = Some (MkPlayer (Some h') 0))
      as (h & h' & Hp & Hp').
    { subst gS. fields. rewrite HP.
      destruct Ht as [[-> ->] | [-> ->]]; by eauto. }
    rewrite (CalculatePossibleActions_ended gS h 0 Hp) by done.
    unfold countActionsOfTurnPlayer.
    rewrite (CalculatePossibleActions_ended gS h 0 Hp) by done.
    cbn [mbind result_bind foldl Z.eqb].
    rewrite (CalculatePossibleActions_ended (changeTurn gS) h' 0 Hp') by done.
    cbn [mbind result_bind].
    eexists. split; [reflexivity|].
    apply (game_inv_intro _ h0 h1 []);
      [subst gS; fields; first [done | tauto] ..| |done].
    rewrite CalculatePossibleActions_set_PossibleActions.
    by apply (CalculatePossibleActions_ended _ h' 0 Hp').
Qed.

(** *** What a possible action tells about the state *)

Lemma ActionDrawFromDeck_possible a g :
  ActionDrawFromDeck_IsPossible a g = Ok true →
  IsRoundFinished g = false ∧ IsGameEnded g = false
  ∧ PlayerID a = TurnPlayerID g ∧ HasDrawnCard g = false
  ∧ cards (DrawPile g) ≠ [].
Proof.
  unfold ActionDrawFromDeck_IsPossible, isEmpty. intros Hposs.
  possible_facts. split_and!; try done.
  by destruct (cards (DrawPile g)).
Qed.

Lemma ActionDrawFromDiscard_possible a g :
  ActionDrawFromDiscard_IsPossible a g = Ok true →
  IsRoundFinished g = false ∧ IsGameEnded g = false
  ∧ PlayerID a = TurnPlayerID g ∧ HasDrawnCard g = false
  ∧ DiscardPile g ≠ [].
Proof.
  unfold ActionDrawFromDiscard_IsPossible. intros Hposs.
  possible_facts. split_and!; try done.
  destruct (DiscardPile g); [simpl in *; lia|done].
Qed.

Lemma ActionDiscardCard_possible a card g :
  ActionDiscardCard_IsPossible a card g = Ok true →
  IsRoundFinished g = false ∧ IsGameEnded g = false
  ∧ PlayerID a = TurnPlayerID g ∧ HasDrawnCard g = true
  ∧ ∃ h s, Players g !! PlayerID a = Some (MkPlayer (Some h) s)
           ∧ HasCard h card = true.
Proof.
  unfold ActionDiscardCard_IsPossible. intros Hposs.
  destruct (IsRoundFinished g), (IsGameEnded g); try done.
  cbn [orb] in Hposs. case_bool_decide; [done|].
  destruct (HasDrawnCard g); [|done]. cbn [negb] in Hposs.
  destruct (Players g !! PlayerID a) as [[[h|] s]|]; try done.
  cbn [deref mbind result_bind hand] in Hposs.
  split_and!; try done.
  exists h, s. split; [done|]. congruence.
Qed.

Lemma ActionClose_possible a g :
  ActionClose_IsPossible a g = Ok true →
  IsRoundFinished g = false ∧ IsGameEnded g = false
  ∧ PlayerID a = TurnPlayerID g ∧ HasDrawnCard g = true
  ∧ CanClose g (PlayerID a) = Ok true.
Proof.
  unfold ActionClose_IsPossible. intros Hposs.
  destruct (IsRoundFinished g), (IsGameEnded g); try done.
  cbn [orb] in Hposs. case_bool_decide; [done|].
  destruct (HasDrawnCard g); [|done]. cbn [negb] in Hposs.
  by split_and!.
Qed.

Lemma ActionConfirmRoundFinished_possible a g :
  ActionConfirmRoundFinished_IsPossible a g = Ok true →
  IsRoundFinished g = true ∧ IsGameEnded g = false
  ∧ RoundFinishedConfirmedPlayerIDs g !! PlayerID a ≠ Some true.
Proof.
  unfold ActionConfirmRoundFinished_IsPossible. intros Hposs.
  destruct (IsRoundFinished g), (IsGameEnded g); try done.
  cbn [negb orb] in Hposs. split_and!; try done.
  intros E. rewrite E in Hposs. done.
Qed.

(** [RemoveCard] cuts one card out. *)
Lemma remove_first_Permutation card l l' :
  remove_first card l = Some l' → l ≡ₚ card :: l'.
Proof.
  revert l'. induction l as [|c l IH]; intros l' Hr; [done|].
  cbn [remove_first] in Hr. case_bool_decide; simplify_eq/=; [done|].
  destruct (remove_first card l) as [l''|] eqn:E; simplify_eq/=.
  rewrite (IH l'' eq_refl). apply Permutation_swap.
Qed.

(** What [Run] does to a state of the invariant whose game goes on, for an
    action of the player to act that is possible: the action is a draw or a
    discard, the card moves between a pile and the hand of the player. *)
Lemma Run_inv a g o :
  base_inv g → hands_inv g → IsGameEnded g = false →
  GetPlayerID a = TurnPlayerID g →
  IsPossible a g = Ok true →
  ∃ g1 h0 h1,
    Run a g o = Ok g1
    ∧ Players g1 = {[ 0 := MkPlayer (Some h0) 0; 1 := MkPlayer (Some h1) 0 ]}
    ∧ TurnPlayerID g1 = TurnPlayerID g
    ∧ TurnOpponentPlayerID g1 = TurnOpponentPlayerID g
    ∧ RoundNumber g1 = 1
    ∧ RoundsLog g1 = RoundsLog g
    ∧ IsRoundFinished g1 = false
    ∧ IsGameEnded g1 = false
    ∧ cards (DrawPile g1) ++ DiscardPile g1 ++ Cards h0 ++ Cards h1
      ≡ₚ spanishCards
    ∧ HasDrawnCard g1 = true
    ∧ HasDrawnCard g = YieldsTurn a g1
    ∧ length (Cards (if decide (TurnPlayerID g = 0) then h0 else h1))
      = (if YieldsTurn a g1 then 7%nat else 8%nat)
    ∧ length (Cards (if decide (TurnPlayerID g = 0) then h1 else h0)) = 7%nat
    ∧ (YieldsTurn a g1 = true → DiscardPile g1 ≠ []).
Proof.
  intros [(h0 & h1 & HP) Ht [Hr Hl] Hf Hc] (Hh1 & Hh2 & Hh3) He Hpid Hposs.
  destruct (hand_cards_two _ _ _ _ _ HP) as [E0 E1].
  unfold all_cards in Hc. rewrite E0, E1 in Hc.
  unfold GetPlayerID in Hpid.
  assert (L0 : ({[ 0 := MkPlayer (Some h0) 0; 1 := MkPlayer (Some h1) 0 ]}
                  : gmap Z Player) !! 0 = Some (MkPlayer (Some h0) 0))
    by reflexivity.
  assert (L1 : ({[ 0 := MkPlayer (Some h0) 0; 1 := MkPlayer (Some h1) 0 ]}
                  : gmap Z Player) !! 1 = Some (MkPlayer (Some h1) 0))
    by reflexivity.
  destruct a as [a | a | a card | a | a]; cbn [IsPossible Run act_of] in *.
  - destruct (ActionDrawFromDeck_possible _ _ Hposs) as (_ & _ & _ & Hd & Hdk).
    unfold ActionDrawFromDeck_Run. rewrite Hposs. cbn [mbind result_bind negb].
    unfold drawCard.
    destruct (cards (DrawPile g)) as [|c rest] eqn:Edk; [done|].
    cbn [mbind result_bind]. unfold update_Hand. fields.
    rewrite Hpid, HP, Hd in *.
    destruct Ht as [[Ht Ho] | [Ht Ho]]; rewrite Ht, Ho in *;
      rewrite E0, E1 in *; rewrite ?L0, ?L1;
      cbn [deref mbind result_bind hand Score].
    + eexists _, (AddCard h0 c), h1. split; [reflexivity|].
      fields. split_and!; try done; run_facts Hc.
    + eexists _, h0, (AddCard h1 c). split; [reflexivity|].
      fields. split_and!; try done; run_facts Hc.
  - destruct (ActionDrawFromDiscard_possible _ _ Hposs)
      as (_ & _ & _ & Hd & Hdp).
    unfold ActionDrawFromDiscard_Run. rewrite Hposs.
    cbn [mbind result_bind negb].
    destruct (last (DiscardPile g)) as [c|] eqn:Elast;
      [|by apply last_None in Elast].
    apply last_Some in Elast as [pre Edp]. rewrite Edp in *.
    rewrite length_app. cbn [length].
    replace (length pre + 1 - 1)%nat with (length pre) by lia.
    rewrite take_app_length.
    unfold update_Hand. fields.
    rewrite Hpid, HP, Hd in *.
    destruct Ht as [[Ht Ho] | [Ht Ho]]; rewrite Ht, Ho in *;
      rewrite E0, E1 in *; rewrite ?L0, ?L1;
      cbn [deref mbind result_bind hand Score].
    + eexists _, (AddCard h0 c), h1. split; [reflexivity|].
      fields. split_and!; try done; run_facts Hc.
    + eexists _, h0, (AddCard h1 c). split; [reflexivity|].
      fields. split_and!; try done; run_facts Hc.
  - destruct (ActionDiscardCard_possible _ _ _ Hposs)
      as (_ & _ & _ & Hd & h & s & Hp & Hhas).
    unfold ActionDiscardCard_Run. rewrite Hposs.
    cbn [mbind result_bind negb].
    unfold update_Hand. rewrite Hp.
    cbn [deref mbind result_bind hand Score]. unfold RemoveCard.
    destruct (HasCard_remove_first h card Hhas) as [l' Hrem]. rewrite Hrem.
    apply remove_first_Permutation in Hrem.
    pose proof (Permutation_length Hrem) as Hlen. cbn [length] in Hlen.
    cbn [mbind result_bind]. fields.
    rewrite Hpid, HP, Hd in *.
    destruct Ht as [[Ht Ho] | [Ht Ho]]; rewrite Ht, Ho in *;
      rewrite E0, E1 in *; rewrite ?L0, ?L1 in Hp; simplify_eq.
    + eexists _, (MkHand l'), h1. split; [reflexivity|].
      fields. cbn [YieldsTurn]. split_and!; try done;
        first [ by (rewrite <- Hc, Hrem; cbn [Cards]; solve_Permutation)
              | by (repeat case_decide; try done; cbn [Cards]; lia)
              | by (intros _; destruct (DiscardPile g)) ].
    + eexists _, h0, (MkHand l'). split; [reflexivity|].
      fields. cbn [YieldsTurn]. split_and!; try done;
        first [ by (rewrite <- Hc, Hrem; cbn [Cards]; solve_Permutation)
              | by (repeat case_decide; try done; cbn [Cards]; lia)
              | by (intros _; destruct (DiscardPile g)) ].
  - destruct (ActionClose_possible _ _ Hposs) as (_ & _ & _ & Hd & Hcc).
    exfalso. rewrite Hpid, Hd in *.
    destruct Ht as [[Ht Ho] | [Ht Ho]]; rewrite Ht, Ho in *;
      rewrite E0, E1 in *.
    + rewrite (CanClose_length g 0 h0 0) in Hcc; [done|by rewrite HP|lia].
    + rewrite (CanClose_length g 1 h1 0) in Hcc; [done|by rewrite HP|lia].
  - destruct (ActionConfirmRoundFinished_possible _ _ Hposs) as (Hf' & _).
    congruence.
Qed.

Lemma base_inv_intro g h0 h1 :
  Players g = {[ 0 := MkPlayer (Some h0) 0; 1 := MkPlayer (Some h1) 0 ]} →
  (TurnPlayerID g = 0 ∧ TurnOpponentPlayerID g = 1)
  ∨ (TurnPlayerID g = 1 ∧ TurnOpponentPlayerID g = 0) →
  RoundNumber g = 1 →
  length (RoundsLog g) = 2%nat →
  IsRoundFinished g = false →
  cards (DrawPile g) ++ DiscardPile g ++ Cards h0 ++ Cards h1
    ≡ₚ spanishCards →
  base_inv g.
Proof.
  intros Hp Ht Hr Hl Hf Hc.
  destruct (hand_cards_two _ _ _ _ _ Hp) as [E0 E1].
  split; [by eauto|done|done|done|].
  unfold all_cards. by rewrite E0, E1.
Qed.

Lemma hands_inv_intro g h0 h1 :
  Players g = {[ 0 := MkPlayer (Some h0) 0; 1 := MkPlayer (Some h1) 0 ]} →
  (TurnPlayerID g = 0 ∧ TurnOpponentPlayerID g = 1)
  ∨ (TurnPlayerID g = 1 ∧ TurnOpponentPlayerID g = 0) →
  length (Cards (if decide (TurnPlayerID g = 0) then h0 else h1))
  = (if HasDrawnCard g then 8%nat else 7%nat) →
  length (Cards (if decide (TurnPlayerID g = 0) then h1 else h0)) = 7%nat →
  (HasDrawnCard g = false → DiscardPile g ≠ []) →
  hands_inv g.
Proof.
  intros Hp Ht H1 H2 H3.
  destruct (hand_cards_two _ _ _ _ _ Hp) as [E0 E1]. unfold hands_inv.
  destruct Ht as [[Ht Ho] | [Ht Ho]]; rewrite Ht, Ho, E0, E1;
    rewrite Ht in H1, H2; by repeat case_decide.
Qed.

(** The entry of the log is written: the round has one. *)
Lemma log_action_inv a g :
  RoundNumber g = 1 → length (RoundsLog g) = 2%nat →
  ∃ rl, log_action a g = Ok (set_RoundsLog rl g) ∧ length rl = 2%nat.
Proof.
  intros Hr Hl. unfold log_action. case_bool_decide.
  - unfold update_RoundLog, current_RoundLog. rewrite Hr.
    rewrite bool_decide_eq_true_2 by lia.
    destruct (RoundsLog g) as [|r0 [|r1 [|]]]; try done.
    cbn [deref mbind result_bind lookup list_lookup Z.to_nat Pos.to_nat
         Pos.iter_op Nat.add].
    eexists. split; [reflexivity|]. by rewrite length_insert.
  - exists (RoundsLog g). split; [|done]. by destruct g.
Qed.

Lemma YieldsTurn_state a g g' : YieldsTurn a g = YieldsTurn a g'.
Proof. by destruct a. Qed.

(** One step of the game: in a state of the invariant whose game goes on,
    a possible action of the player to act is run, and the invariant holds
    in the new state. *)
Lemma RunAction_step g a o :
  game_inv g → oracle_ok g o → IsGameEnded g = false →
  GetPlayerID a = TurnPlayerID g → IsPossible a g = Ok true →
  ∃ g', RunAction g (Some a) o = Ok g' ∧ game_inv g'.
Proof.
  intros [Hb _ Hh _] Hok He Hpid Hposs. specialize (Hh He).
  destruct (Run_inv a g o Hb Hh He Hpid Hposs)
    as (g1 & h0 & h1 & Hrun & HP1 & Ht1 & Ho1 & Hr1 & Hl1 & Hf1 & He1 & Hc1
        & Hd1 & Hy & Hlen1 & Hlen2 & Hdp).
  unfold RunAction. rewrite He, (inv_not_finished g Hb).
  cbn [negb andb]. rewrite bool_decide_eq_false_2 by (by intros []).
  rewrite Hposs. cbn [mbind result_bind negb]. rewrite Hrun.
  cbn [mbind result_bind].
  destruct Hb as [(h0' & h1' & HP) Ht [Hr Hl] Hf Hc].
  destruct (log_action_inv a g1 Hr1) as (rl & -> & Hrl); [congruence|].
  cbn [mbind result_bind]. fields. rewrite He1, Hf1. cbn [negb andb].
  unfold switch_turn. fields. rewrite He1, Hf1. cbn [negb andb].
  rewrite (YieldsTurn_state a _ g1).
  assert (Hok' : ∀ g3, Players g3 = Players g1 → oracle_ok g3 o).
  { intros g3 E. unfold oracle_ok in *. rewrite E, HP1. by rewrite HP in Hok. }
  assert (Hturn : (TurnPlayerID g1 = 0 ∧ TurnOpponentPlayerID g1 = 1)
                  ∨ (TurnPlayerID g1 = 1 ∧ TurnOpponentPlayerID g1 = 0))
    by (rewrite Ht1, Ho1; tauto).
  rewrite <- Ht1 in Hlen1, Hlen2.
  destruct (YieldsTurn a g1) eqn:Ey; fields; rewrite ?He1, ?Hf1;
    cbn [negb andb]; apply finish_RunAction_inv.
  - apply (base_inv_intro _ h0 h1); fields; first [done | tauto].
  - done.
  - apply (hands_inv_intro _ h0 h1); fields; try done.
    + tauto.
    + destruct Hturn as [[Ht' Ho'] | [Ht' Ho']]; rewrite Ht', Ho' in *;
        by repeat case_decide.
    + destruct Hturn as [[Ht' Ho'] | [Ht' Ho']]; rewrite Ht', Ho' in *;
        by repeat case_decide.
    + by auto.
  - by apply Hok'.
  - apply (base_inv_intro _ h0 h1); fields; first [done | tauto].
  - done.
  - apply (hands_inv_intro _ h0 h1); fields; try done.
    + by rewrite Hd1.
    + by rewrite Hd1.
  - by apply Hok'.
Qed.

(** [RunAction] keeps the invariant. *)
Lemma RunAction_inv g action o g' :
  game_inv g → oracle_ok g o → RunAction g action o = Ok g' → game_inv g'.
Proof.
  intros Hinv Hok Hrun. destruct action as [a|]; [|by simplify_eq/=].
  pose proof Hrun as Hrun'. unfold RunAction in Hrun'.
  destruct (IsGameEnded g) eqn:He; [done|].
  rewrite (inv_not_finished g (inv_base g Hinv)) in Hrun'.
  cbn [negb andb] in Hrun'. case_bool_decide as Hpid; [done|].
  destruct (IsPossible a g) as [[|]| |] eqn:Hposs; try done.
  destruct (RunAction_step g a o Hinv Hok He Hpid Hposs) as (g'' & Hg & Hinv').
  congruence.
Qed.

(** Every reachable state satisfies the invariant. *)
Lemma reachable_inv g : reachable g → game_inv g.
Proof.
  induction 1 as [ms rnd0 o g Hok Hnew | g action o g' _ IH Hok Hrun].
  - destruct (New_inv ms rnd0 o Hok) as (g0 & Hg0 & Hinv & _). congruence.
  - by eapply RunAction_inv.
Qed.

#[local] Arguments IsChinchon : simpl never.
#[local] Arguments ValidGroups : simpl never.
#[local] Arguments PenaltyPoints : simpl never.
#[local] Arguments GoInt.add : simpl never.
#[local] Arguments CanClose : simpl never.
#[local] Arguments CalculatePossibleActions : simpl never.
#[local] Arguments makeSpanishCards : simpl never.

(** ** The reachable states *)

(** [CanClose] asks for a hand of seven cards. *)
Lemma CanClose_true_length g id :
  CanClose g id = Ok true → length (hand_cards g id) = 7%nat.
Proof.
  unfold CanClose, hand_cards. destruct (IsRoundFinished g); [done|].
  destruct (Players g !! id) as [[[h|] s]|]; try done.
  cbn [deref mbind result_bind hand]. case_bool_decide as Hlen; [done|].
  done.
Qed.

Lemma spanishCards_NoDup : NoDup spanishCards.
Proof. apply (bool_decide_unpack _). by vm_compute. Qed.

(** The cards of the deck: every suit with every number from 1 to 12. *)
Lemma spanishCards_elem_of c :
  c ∈ spanishCards
  ↔ Suit c ∈ [ORO; COPA; ESPADA; BASTO] ∧ 1 ≤ Number c ≤ 12.
Proof.
  unfold spanishCards. rewrite list_elem_of_bind. split.
  - intros (suit & Hin & Hs).
    apply list_elem_of_bind in Hin as (i & Hin & Hi).
    apply list_elem_of_singleton in Hin as ->. cbn [Suit Number].
    apply elem_of_seqZ in Hi. split; [done|lia].
  - intros [Hs Hn]. exists (Suit c). split; [|done].
    apply list_elem_of_bind. exists (Number c). split.
    + destruct c. by left.
    + apply elem_of_seqZ. lia.
Qed.

(** C1. In every reachable state [ActionClose.IsPossible] returns false,
    whatever the action's fields, and no close action is among the legal
    moves that [CalculatePossibleActions] computes and the state carries;
    when [HasDrawnCard] is set the player to act holds eight cards; and the
    round is not finished.  In any state at all, a possible close needs
    [HasDrawnCard] and [CanClose], and [CanClose] needs a hand of seven. *)
Theorem close_never_possible (g : GameState) :
  reachable g →
  (∀ a : act, ActionClose_IsPossible a g = Ok false)
  ∧ (∃ acts,
       CalculatePossibleActions g = Ok acts
       ∧ PossibleActions g = _serializeActions acts
       ∧ Forall (λ a, is_close a = false) acts)
  ∧ (HasDrawnCard g = true → length (hand_cards g (TurnPlayerID g)) = 8%nat)
  ∧ IsRoundFinished g = false
  ∧ (∀ (a : act) (g0 : GameState),
       ActionClose_IsPossible a g0 = Ok true →
       HasDrawnCard g0 = true ∧ CanClose g0 (PlayerID a) = Ok true)
  ∧ (∀ (g0 : GameState) (id : Z),
       CanClose g0 id = Ok true → length (hand_cards g0 id) = 7%nat).
Proof.
  intros Hr.
  destruct (reachable_inv g Hr) as [Hb Hend Hh (acts & Hacts & Hpa)].
  assert (H8 : HasDrawnCard g = true →
               length (hand_cards g (TurnPlayerID g)) = 8%nat).
  { intros Hd. destruct (IsGameEnded g) eqn:He.
    - rewrite Hend in Hd; done.
    - destruct (Hh eq_refl) as (H1 & _). by rewrite Hd in H1. }
  assert (Hclose : ∀ a : act, ActionClose_IsPossible a g = Ok false).
  { intros a.
    destruct (wf_turn_player g (base_inv_wf g Hb)) as (h & s & Hp).
    destruct (IsPossible_total g (ActionClose a) h s Hp) as [[|] E];
      cbn [IsPossible] in E; [|done].
    exfalso.
    destruct (ActionClose_possible _ _ E) as (_ & _ & Hpid & Hd & Hcc).
    apply CanClose_true_length in Hcc. rewrite Hpid, (H8 Hd) in Hcc. done. }
  split_and!; try done.
  - exists acts. split_and!; try done.
    apply Forall_forall. intros a Ha.
    pose proof (CalculatePossibleActions_possible g acts a Hacts Ha) as Hposs.
    destruct a as [a | a | a card | a | a]; try done.
    cbn [IsPossible] in Hposs. by rewrite Hclose in Hposs.
  - by apply (inv_not_finished g).
  - intros a g0 E. destruct (ActionClose_possible _ _ E) as (_ & _ & _ & ? & ?).
    done.
  - apply CanClose_true_length.
Qed.

(** C3 (amended). In every reachable state the draw pile, the discard pile
    and the two hands hold 48 cards together, and they are, card for card,
    the deck that [makeSpanishCards] builds: the four suits with the numbers
    1 to 12, each card once. *)
Theorem cards_conserved (g : GameState) :
  reachable g →
  count_cards g = 48%nat
  ∧ all_cards g ≡ₚ spanishCards
  ∧ NoDup (all_cards g)
  ∧ ∀ c, c ∈ all_cards g
         ↔ Suit c ∈ [ORO; COPA; ESPADA; BASTO] ∧ 1 ≤ Number c ≤ 12.
Proof.
  intros Hr. destruct (reachable_inv g Hr) as [Hb _ _ _].
  pose proof (inv_cards g Hb) as Hc.
  split_and!; try done.
  - apply Permutation_length in Hc. unfold all_cards in Hc.
    rewrite !length_app in Hc. unfold count_cards.
    change (length spanishCards) with 48%nat in Hc. lia.
  - rewrite Hc. apply spanishCards_NoDup.
  - intros c. rewrite Hc. apply spanishCards_elem_of.
Qed.

(** C4 (amended). In every reachable state whose game goes on and in which
    the player to act has not drawn yet, the discard pile is not empty, and
    [GetTopDiscardCard] returns its last card. *)
Theorem discard_pile_nonempty (g : GameState) :
  reachable g →
  IsGameEnded g = false →
  HasDrawnCard g = false →
  DiscardPile g ≠ []
  ∧ ∃ c, GetTopDiscardCard g = Ok c ∧ last (DiscardPile g) = Some c.
Proof.
  intros Hr He Hd. destruct (reachable_inv g Hr) as [_ _ Hh _].
  destruct (Hh He) as (_ & _ & Hdp). specialize (Hdp Hd).
  split; [done|]. unfold GetTopDiscardCard.
  destruct (last (DiscardPile g)) as [c|] eqn:E; [by eauto|].
  by apply last_None in E.
Qed.

(** C6 (amended). In every reachable state whose game goes on, each of the
    two players holds seven cards, except the player to act when
    [HasDrawnCard] is set, who holds eight. *)
Theorem hand_sizes (g : GameState) (id : Z) :
  reachable g →
  IsGameEnded g = false →
  id = 0 ∨ id = 1 →
  length (hand_cards g id)
  = if bool_decide (id = TurnPlayerID g) && HasDrawnCard g
    then 8%nat else 7%nat.
Proof.
  intros Hr He Hid. destruct (reachable_inv g Hr) as [Hb _ Hh _].
  destruct (Hh He) as (H1 & H2 & _).
  destruct (inv_turn g Hb) as [[Ht Ho] | [Ht Ho]], Hid as [-> | ->];
    rewrite Ht, Ho in *; cbn [bool_decide decide_rel andb];
    rewrite ?H1, ?H2; try done;
    by (case_bool_decide; [lia|]).
Qed.

(** ** Examples *)

Lemma sample_oracle_ok : oracle_ok_for {[0; 1]} sample_oracle.
Proof.
  solve_oracle_ok.
Qed.

Lemma sample_new_reachable : reachable sample_new.
Proof.
  apply (reachable_New [] (λ _, O) sample_oracle).
  - apply sample_oracle_ok.
  - by vm_compute.
Qed.

Lemma sample_new_oracle_ok : oracle_ok sample_new sample_oracle.
Proof.
  solve_oracle_ok.
Qed.

Lemma sample_drawn_reachable : reachable sample_drawn.
Proof.
  apply (reachable_RunAction sample_new
           (Some (NewActionDrawFromDiscard 0)) sample_oracle).
  - apply sample_new_reachable.
  - apply sample_new_oracle_ok.
  - by vm_compute.
Qed.

Lemma sample_ended_reachable : reachable sample_ended.
Proof.
  apply (reachable_RunAction sample_zero
           (Some (NewActionDrawFromDeck 0)) sample_oracle).
  - apply (reachable_New [0] (λ _, O) sample_oracle).
    + apply sample_oracle_ok.
    + by vm_compute.
  - solve_oracle_ok.
  - by vm_compute.
Qed.

Lemma sample_new_wf : wf_state sample_new.
Proof. solve_wf. Qed.

Lemma sample_close_wf : wf_state sample_close.
Proof. solve_wf. Qed.

Lemma sample_chinchon_wf : wf_state sample_chinchon.
Proof. solve_wf. Qed.

Lemma sample_close_oracle_ok : oracle_ok sample_close sample_oracle.
Proof. solve_oracle_ok. Qed.

Lemma sample_chinchon_oracle_ok : oracle_ok sample_chinchon sample_oracle.
Proof. solve_oracle_ok. Qed.

Lemma sample_close_no_chinchon id :
  id = 0 ∨ id = 1 → ¬ is_chinchon (hand_cards sample_close id).
Proof.
  intros Hid Hch.
  apply (IsChinchon_is_chinchon (MkHand (hand_cards sample_close id))) in Hch.
  - destruct Hid as [-> | ->]; by vm_compute in Hch.
  - destruct Hid as [-> | ->]; apply (bool_decide_unpack _); by vm_compute.
Qed.

(** In the drawn sample game player 0 holds eight cards and cannot close. *)
Lemma close_never_possible_witness :
  reachable sample_drawn
  ∧ HasDrawnCard sample_drawn = true
  ∧ ActionClose_IsPossible (MkAct CLOSE_ROUND 0) sample_drawn = Ok false
  ∧ length (hand_cards sample_drawn (TurnPlayerID sample_drawn)) = 8%nat.
Proof.
  pose proof sample_drawn_reachable as Hr.
  destruct (close_never_possible sample_drawn Hr) as (Hc & _ & H8 & _).
  split_and!; [exact Hr|by vm_compute|apply Hc|apply H8; by vm_compute].
Defined.

(** The new sample game holds 48 cards, not 40. *)
Lemma cards_not_forty :
  reachable sample_new
  ∧ count_cards sample_new = 48%nat
  ∧ count_cards sample_new ≠ 40%nat.
Proof. split; [apply sample_new_reachable|]. by vm_compute. Qed.

Lemma cards_conserved_witness :
  reachable sample_drawn ∧ count_cards sample_drawn = 48%nat.
Proof.
  pose proof sample_drawn_reachable as Hr.
  split; [exact Hr|]. apply (cards_conserved sample_drawn Hr).
Defined.

(** After the only card of the discard pile is drawn, the pile is empty. *)
Lemma discard_pile_empty :
  reachable sample_drawn
  ∧ IsGameEnded sample_drawn = false
  ∧ DiscardPile sample_drawn = [].
Proof. split; [apply sample_drawn_reachable|]. by vm_compute. Qed.

Lemma discard_pile_nonempty_witness :
  reachable sample_new
  ∧ IsGameEnded sample_new = false
  ∧ HasDrawnCard sample_new = false
  ∧ DiscardPile sample_new ≠ [].
Proof.
  pose proof sample_new_reachable as Hr.
  split_and!; [exact Hr|by vm_compute|by vm_compute|].
  apply (discard_pile_nonempty sample_new Hr); by vm_compute.
Defined.

(** With [WithMaxPoints(0)] the game ends on the first draw: the turn
    passes to player 1, [HasDrawnCard] is cleared, and player 0 keeps the
    eight cards. *)
Lemma hand_sizes_ended :
  reachable sample_ended
  ∧ IsGameEnded sample_ended = true
  ∧ HasDrawnCard sample_ended = false
  ∧ TurnPlayerID sample_ended = 1
  ∧ length (hand_cards sample_ended 0) = 8%nat.
Proof. split; [apply sample_ended_reachable|]. by vm_compute. Qed.

Lemma hand_sizes_witness :
  reachable sample_drawn
  ∧ IsGameEnded sample_drawn = false
  ∧ length (hand_cards sample_drawn 0) = 8%nat
  ∧ length (hand_cards sample_drawn 1) = 7%nat.
Proof.
  pose proof sample_drawn_reachable as Hr.
  assert (He : IsGameEnded sample_drawn = false) by (by vm_compute).
  split_and!; [exact Hr|exact He| |].
  - etrans; [apply (hand_sizes sample_drawn 0 Hr He); by left|].
    by vm_compute.
  - etrans; [apply (hand_sizes sample_drawn 1 Hr He); by right|].
    by vm_compute.
Defined.

(** Player 0 closes with penalty 0 against 36: the opponent gets 36 and
    the bonus of 10. *)
Lemma CloseRound_scoring_witness :
  penalty_of sample_close 0 = 0 ∧ penalty_of sample_close 1 = 36
  ∧ ∃ g', CloseRound sample_close 0 sample_oracle = Ok g'
          ∧ score_of g' 0 = 0 ∧ score_of g' 1 = 46.
Proof.
  split; [by vm_compute|]. split; [by vm_compute|].
  destruct (CloseRound_scoring sample_close 0 sample_oracle
              sample_close_wf sample_close_oracle_ok
              (or_introl eq_refl)
              (sample_close_no_chinchon 0 (or_introl eq_refl))
              (sample_close_no_chinchon 1 (or_intror eq_refl)))
    as (g' & Hg' & Hs).
  change (1 - 0) with 1 in Hs.
  replace (penalty_of sample_close 0 <? penalty_of sample_close 1)
    with true in Hs by (by vm_compute).
  replace (penalty_of sample_close 0 =? 0) with true in Hs
    by (by vm_compute).
  destruct Hs as [H0 H1]. exists g'.
  split_and!; [exact Hg'|rewrite H0; by vm_compute|rewrite H1; by vm_compute].
Defined.

(** Player 1 closes while player 0 holds the oro from 1 to 7. *)
Lemma CloseRound_chinchon_witness :
  is_chinchon (hand_cards sample_chinchon 0)
  ∧ ∃ g', CloseRound sample_chinchon 1 sample_oracle = Ok g'
          ∧ IsGameEnded g' = true
          ∧ Players g' = Players sample_chinchon.
Proof.
  assert (Hch : is_chinchon (hand_cards sample_chinchon 0)).
  { exists ORO, 1. vm_compute. reflexivity. }
  split; [exact Hch|].
  destruct (CloseRound_chinchon sample_chinchon 1 sample_oracle
              sample_chinchon_wf sample_chinchon_oracle_ok (or_introl Hch))
    as (g' & Hg' & He & _ & _ & _ & _ & Hp).
  exists g'. split_and!; [exact Hg'|exact He|exact Hp].
Defined.

(** Drawing from the deck is possible in the new sample game, and runs. *)
Lemma Run_possible_witness :
  IsPossible (NewActionDrawFromDeck 0) sample_new = Ok true
  ∧ ∃ g', Run (NewActionDrawFromDeck 0) sample_new sample_oracle = Ok g'.
Proof.
  assert (Hp : IsPossible (NewActionDrawFromDeck 0) sample_new = Ok true)
    by (by vm_compute).
  split; [exact Hp|].
  exact (Run_possible (NewActionDrawFromDeck 0) sample_new sample_oracle
           sample_new_wf sample_new_oracle_ok Hp).
Defined.

(** Player 0 sees the same client state whatever seven cards player 1
    holds. *)
Lemma ToClientGameState_hides_opponent_witness :
  ToClientGameState
    (with_hand (OpponentOf sample_oracle sample_new 0)
       (MkHand (MkCard COPA <$> seqZ 1 7)) sample_new)
    0 sample_oracle
  = ToClientGameState sample_new 0 sample_oracle.
Proof.
  apply (ToClientGameState_hides_opponent sample_new 0 sample_oracle
           (MkHand (MkCard COPA <$> seqZ 1 7))
           sample_new_wf sample_new_oracle_ok).
  by vm_compute.
Defined.

(** ** Further properties: hands and deck *)

Lemma HasCard_elem_of h card : HasCard h card = bool_decide (card ∈ Cards h).
Proof.
  unfold HasCard. induction (Cards h) as [|c l IH]; cbn [existsb].
  - by rewrite bool_decide_eq_false_2 by apply not_elem_of_nil.
  - rewrite IH. destruct (decide (c = card)) as [-> | Hc].
    + rewrite (bool_decide_eq_true_2 (card = card)) by done.
      by rewrite (bool_decide_eq_true_2 (card ∈ card :: l))
        by apply list_elem_of_here.
    + rewrite (bool_decide_eq_false_2 (c = card)) by done. cbn [orb].
      apply bool_decide_ext. rewrite elem_of_cons. naive_solver.
Qed.

Lemma remove_first_Some card l l' :
  remove_first card l = Some l' →
  ∃ pre post, l = pre ++ card :: post ∧ (card ∉ pre) ∧ l' = pre ++ post.
Proof.
  revert l'. induction l as [|c l IH]; intros l' Hr; [done|].
  cbn [remove_first] in Hr. case_bool_decide as Hc; simplify_eq/=.
  - eexists [], _. split_and!; [done|apply not_elem_of_nil|done].
  - destruct (remove_first card l) as [l''|] eqn:E; simplify_eq/=.
    destruct (IH l'' eq_refl) as (pre & post & -> & Hpre & ->).
    exists (c :: pre), post. split_and!; [done| |done].
    rewrite not_elem_of_cons. by split.
Qed.

Lemma remove_first_None card l : remove_first card l = None → card ∉ l.
Proof.
  induction l as [|c l IH]; intros Hr; [apply not_elem_of_nil|].
  cbn [remove_first] in Hr. case_bool_decide as Hc; [done|].
  destruct (remove_first card l) eqn:E; [done|].
  rewrite not_elem_of_cons. split; [done|by apply IH].
Qed.

(** X1. [RemoveCard] cuts the first occurrence of the card out of the hand
    and keeps the order of the other cards; when the card is not in the hand
    it returns the card-not-in-hand error.  [HasCard] tells which of the two
    happens. *)
Theorem RemoveCard_first_occurrence (h : Hand) (card : Card) :
  HasCard h card = bool_decide (card ∈ Cards h)
  ∧ match RemoveCard h card with
    | Ok h' =>
        ∃ pre post,
          Cards h = pre ++ card :: post ∧ (card ∉ pre) ∧ Cards h' = pre ++ post
    | Err e => e = errCardNotInHand ∧ card ∉ Cards h
    | Panic => False
    end.
Proof.
  split; [apply HasCard_elem_of|].
  unfold RemoveCard. destruct (remove_first card (Cards h)) as [l'|] eqn:E.
  - by apply remove_first_Some.
  - split; [done|]. by apply remove_first_None.
Qed.

Lemma remove_first_app_new card l :
  card ∉ l → remove_first card (l ++ [card]) = Some l.
Proof.
  induction l as [|c l IH]; intros Hn; cbn [remove_first app].
  - by rewrite bool_decide_eq_true_2.
  - apply not_elem_of_cons in Hn as [Hc Hn].
    rewrite bool_decide_eq_false_2 by done. by rewrite IH.
Qed.

(** X2. Removing a card that was just added succeeds and leaves the cards
    the hand had: the same hand when the card was not in it before, and
    otherwise the hand with the earlier copy cut out and the new one at the
    end. *)
Theorem RemoveCard_AddCard (h : Hand) (card : Card) :
  ∃ h', RemoveCard (AddCard h card) card = Ok h'
        ∧ Cards h' ≡ₚ Cards h
        ∧ (card ∉ Cards h → h' = h).
Proof.
  unfold RemoveCard, AddCard. cbn [Cards].
  destruct (remove_first card (Cards h ++ [card])) as [l'|] eqn:E.
  - exists (MkHand l'). split; [done|]. cbn [Cards]. split.
    + apply remove_first_Permutation in E.
      rewrite <- Permutation_cons_append in E. by apply (inj (cons card)).
    + intros Hn. rewrite remove_first_app_new in E by done.
      destruct h. by simplify_eq/=.
  - apply remove_first_None in E. exfalso. apply E.
    apply elem_of_app. right. apply list_elem_of_here.
Qed.

(** X3. The exchange sort written out in [findRuns] and [IsChinchon] sorts:
    its result is in non-decreasing order of the numbers and holds the same
    cards. *)
Theorem sortByNumber_sorts (cs : list Card) :
  StronglySorted le_Number (sortByNumber cs)
  ∧ sortByNumber cs ≡ₚ cs
  ∧ length (sortByNumber cs) = length cs.
Proof.
  split_and!.
  - apply sortByNumber_Sorted.
  - apply sortByNumber_Permutation.
  - apply Permutation_length, sortByNumber_Permutation.
Qed.

(** X4. Whatever the random source draws, [makeSpanishCards] returns the 48
    cards of the deck, each once, in some order. *)
Theorem makeSpanishCards_deck (rnd : nat → nat) :
  makeSpanishCards rnd ≡ₚ spanishCards
  ∧ NoDup (makeSpanishCards rnd)
  ∧ length (makeSpanishCards rnd) = 48%nat
  ∧ ∀ c, c ∈ makeSpanishCards rnd
         ↔ Suit c ∈ [ORO; COPA; ESPADA; BASTO] ∧ 1 ≤ Number c ≤ 12.
Proof.
  pose proof (makeSpanishCards_Permutation rnd) as Hp.
  split_and!; [done| | |].
  - rewrite Hp. apply spanishCards_NoDup.
  - by rewrite Hp.
  - intros c. rewrite Hp. apply spanishCards_elem_of.
Qed.

(** X5. [defaultDealHand] moves the first seven cards of the deck to a new
    hand, in their order, and all of them when the deck has fewer. *)
Theorem defaultDealHand_takes (d : deck) :
  defaultDealHand d = (MkHand (take 7 (cards d)), MkDeck (drop 7 (cards d)))
  ∧ length (Cards (defaultDealHand d).1) = Nat.min 7 (length (cards d))
  ∧ Cards (defaultDealHand d).1 ++ cards (defaultDealHand d).2 = cards d.
Proof.
  assert (E : defaultDealHand d
              = (MkHand (take 7 (cards d)), MkDeck (drop 7 (cards d)))).
  { unfold defaultDealHand. destruct d as [l]. by rewrite deal_loop_spec. }
  rewrite E. cbn [fst snd Cards cards]. split_and!; [done| |].
  - by rewrite length_take.
  - apply take_drop.
Qed.

(** ** Further properties: runs and sets *)

Lemma Forall_sublist {A} (P : A → Prop) (l1 l2 : list A) :
  l1 `sublist_of` l2 → Forall P l2 → Forall P l1.
Proof.
  intros Hs. rewrite !Forall_forall. intros HP x Hx.
  apply HP. by eapply sublist_subseteq.
Qed.

Lemma StronglySorted_sublist {A} (R : relation A) (l1 l2 : list A) :
  l1 `sublist_of` l2 → StronglySorted R l2 → StronglySorted R l1.
Proof.
  induction 1 as [|x l1 l2 Hs IH|x l1 l2 Hs IH]; intros HS.
  - constructor.
  - apply StronglySorted_inv in HS as [HS HR]. constructor; [by apply IH|].
    by eapply Forall_sublist.
  - apply StronglySorted_inv in HS as [HS _]. by apply IH.
Qed.

(** The inner loop of the run search takes cards from the front. *)
Lemma extend_run_sublist c rest : extend_run c rest `sublist_of` rest.
Proof.
  revert c. induction rest as [|c' rest IH]; intros c; cbn [extend_run].
  - constructor.
  - destruct (Number c' =? GoInt.add (Number c) 1).
    + by apply sublist_skip.
    + apply sublist_nil_l.
Qed.

Lemma extend_run_consecutive c rest :
  consecutive (c :: extend_run c rest) = true.
Proof.
  revert c. induction rest as [|c' rest IH]; intros c; cbn [extend_run];
    [done|].
  destruct (Number c' =? GoInt.add (Number c) 1) eqn:E; [|done].
  apply Z.eqb_eq in E. rewrite consecutive_cons2.
  by rewrite bool_decide_eq_false_2 by (by intros []).
Qed.

Lemma run_from_sublist cs i : run_from cs i `sublist_of` cs.
Proof.
  unfold run_from. destruct (drop i cs) as [|c rest] eqn:E; [apply sublist_nil_l|].
  etrans; [|apply (sublist_drop cs i)]. rewrite E.
  apply sublist_skip, extend_run_sublist.
Qed.

(** Every list that the run search returns for sorted cards of one suit is
    a run. *)
Lemma run_from_is_run cs i suit :
  StronglySorted le_Number cs → int_cards cs →
  Forall (λ c, Suit c = suit) cs →
  is_run (run_from cs i).
Proof.
  intros Hs Hi Hsuit.
  pose proof (run_from_sublist cs i) as Hsub.
  assert (Hs' := StronglySorted_sublist _ _ _ Hsub Hs).
  assert (Hi' := Forall_sublist _ _ _ Hsub Hi).
  assert (Hsuit' := Forall_sublist _ _ _ Hsub Hsuit).
  revert Hs' Hi' Hsuit'. unfold run_from.
  destruct (drop i cs) as [|c rest]; intros Hs' Hi' Hsuit'.
  - by exists suit, 0.
  - exists suit, (Number c).
    rewrite (cards_of_suit _ suit Hsuit') at 1. f_equal.
    apply consecutive_seqZ; [done|done|apply extend_run_consecutive].
Qed.

(** X6. Every group that [findRuns] returns is a run of at least three
    cards, taken from the hand: cards of one suit with consecutive numbers,
    in increasing order, each used as often as the hand holds it at most. *)
Theorem findRuns_sound (h : Hand) (r : list Card) :
  int_cards (Cards h) →
  r ∈ findRuns h →
  (3 ≤ length r)%nat ∧ is_run r ∧ r ⊆+ Cards h.
Proof.
  intros Hint Hr. unfold findRuns in Hr.
  apply list_elem_of_bind in Hr as ([suit cs] & Hr & Hkv). cbn [snd] in Hr.
  apply elem_of_map_to_list in Hkv. rewrite suitCards_of_lookup in Hkv.
  assert (Hcs : cs = filter (λ c, Suit c = suit) (Cards h))
    by (by destruct (filter _ _); simplify_eq).
  clear Hkv.
  unfold runs_of_suit in Hr. case_bool_decide; [by apply elem_of_nil in Hr|].
  apply list_elem_of_filter in Hr as [Hlen Hr].
  apply list_elem_of_fmap in Hr as (i & -> & _).
  pose proof (sortByNumber_Permutation cs) as Hperm.
  split_and!; [done| |].
  - apply (run_from_is_run _ _ suit).
    + apply sortByNumber_Sorted.
    + unfold int_cards. rewrite Hperm, Hcs.
      eapply Forall_sublist; [apply sublist_filter|done].
    + rewrite Hperm, Hcs. apply Forall_forall. intros c Hc.
      by apply list_elem_of_filter in Hc as [? _].
  - etrans; [apply sublist_submseteq, run_from_sublist|].
    rewrite Hperm, Hcs. apply sublist_submseteq, sublist_filter.
Qed.

Lemma numberCards_of_lookup cs n :
  numberCards_of cs !! n
  = match filter (λ c, Number c = n) cs with
    | [] => None
    | l => Some l
    end.
Proof.
  unfold numberCards_of. rewrite (push_at_fold_lookup Number).
  rewrite lookup_empty. by destruct (filter _ _).
Qed.

(** The [validSet] loop accepts the cards whose suits differ from one
    another and from the suits seen before. *)
Lemma distinct_suits_NoDup (suits : gmap string bool) cs :
  distinct_suits suits cs = true
  ↔ NoDup (Suit <$> cs)
    ∧ Forall (λ c, default false (suits !! Suit c) = false) cs.
Proof.
  revert suits. induction cs as [|c cs IH]; intros suits;
    cbn [distinct_suits fmap list_fmap].
  - split; [intros _; split; constructor|done].
  - destruct (default false (suits !! Suit c)) eqn:E.
    + split; [done|]. intros [_ Hf]. apply Forall_cons in Hf as [Hf _].
      congruence.
    + rewrite IH, NoDup_cons, Forall_cons. split.
      * intros [Hnd Hf]. split_and!; try done.
        -- intros Hin. apply list_elem_of_fmap in Hin as (c' & Hs & Hin).
           eapply Forall_forall in Hf; [|done].
           rewrite <- Hs, lookup_insert_eq in Hf. done.
        -- eapply Forall_impl; [done|]. intros c' Hc'. cbn beta in Hc'.
           destruct (decide (Suit c = Suit c')) as [Heq | Hne].
           ++ rewrite Heq, lookup_insert_eq in Hc'. done.
           ++ by rewrite lookup_insert_ne in Hc'.
      * intros [[Hnin Hnd] [_ Hf]]. split; [done|].
        apply Forall_forall. intros c' Hc'.
        eapply Forall_forall in Hf; [|done]. cbn beta in Hf.
        rewrite lookup_insert_ne; [done|].
        intros Heq. apply Hnin. rewrite Heq. by apply list_elem_of_fmap_2.
Qed.

(** X7. [findSets] returns exactly the sets of the hand: for a number, all
    the cards of the hand with that number, when they are at least three
    and of suits that differ from one another. *)
Theorem findSets_spec (h : Hand) (s : list Card) :
  s ∈ findSets h
  ↔ (3 ≤ length s)%nat
    ∧ NoDup (Suit <$> s)
    ∧ ∃ n, s = filter (λ c, Number c = n) (Cards h).
Proof.
  unfold findSets. rewrite list_elem_of_bind. split.
  - intros ([n cs] & Hs & Hkv). cbn [snd] in Hs.
    apply elem_of_map_to_list in Hkv. rewrite numberCards_of_lookup in Hkv.
    assert (Hcs : cs = filter (λ c, Number c = n) (Cards h))
      by (by destruct (filter _ _); simplify_eq).
    destruct (bool_decide (3 ≤ length cs)%nat) eqn:Hlen;
      [|by apply elem_of_nil in Hs].
    destruct (distinct_suits ∅ cs) eqn:Hd; [|by apply elem_of_nil in Hs].
    apply list_elem_of_singleton in Hs as ->.
    apply bool_decide_eq_true in Hlen.
    apply distinct_suits_NoDup in Hd as [Hd _]. by eauto.
  - intros (Hlen & Hnd & n & Hs). exists (n, s). cbn [snd]. split.
    + rewrite bool_decide_eq_true_2 by done.
      rewrite (proj2 (distinct_suits_NoDup ∅ s)); [by left|].
      split; [done|]. apply Forall_forall. intros c _.
      by rewrite lookup_empty.
    + apply elem_of_map_to_list. rewrite numberCards_of_lookup, <- Hs.
      destruct s; [simpl in Hlen; lia|done].
Qed.

(** X8. For cards whose numbers are values of [int], [IsChinchon] returns
    true exactly on the hands that are seven cards of one suit with seven
    consecutive numbers, in any order. *)
Theorem IsChinchon_spec (h : Hand) :
  int_cards (Cards h) →
  IsChinchon h = true
  ↔ ∃ suit n, Cards h ≡ₚ MkCard suit <$> seqZ n 7.
Proof. apply IsChinchon_is_chinchon. Qed.

Lemma IsChinchon_spec_witness :
  IsChinchon (MkHand [MkCard COPA 9; MkCard COPA 6; MkCard COPA 8;
                      MkCard COPA 12; MkCard COPA 10; MkCard COPA 7;
                      MkCard COPA 11]) = true.
Proof.
  apply IsChinchon_spec.
  - apply (bool_decide_unpack _). by vm_compute.
  - exists COPA, 6. apply (bool_decide_unpack _). by vm_compute.
Defined.

Lemma findRuns_sound_witness :
  is_run [MkCard ORO 2; MkCard ORO 3; MkCard ORO 4].
Proof.
  apply (findRuns_sound
           (MkHand [MkCard ORO 4; MkCard COPA 5; MkCard ORO 1; MkCard ORO 2;
                    MkCard ORO 3; MkCard BASTO 5; MkCard ESPADA 7])).
  - apply (bool_decide_unpack _). by vm_compute.
  - apply (bool_decide_unpack _). by vm_compute.
Defined.

#[local] Arguments IsChinchon : simpl never.
#[local] Arguments ValidGroups : simpl never.
#[local] Arguments PenaltyPoints : simpl never.
#[local] Arguments GoInt.add : simpl never.
#[local] Arguments CanClose : simpl never.
#[local] Arguments CalculatePossibleActions : simpl never.
#[local] Arguments makeSpanishCards : simpl never.

(** ** Further properties: the course of a game *)

(** The last [WithMaxPoints] option decides. *)
Lemma options_fold_last ms gs :
  foldl (λ gs opt, opt gs) gs (WithMaxPoints <$> ms)
  = set_RuleMaxPoints (default (RuleMaxPoints gs) (last ms)) gs.
Proof.
  revert gs. induction ms as [|m ms IH]; intros gs.
  - by destruct gs.
  - cbn [fmap list_fmap foldl]. rewrite IH.
    unfold WithMaxPoints.
    destruct gs as [rn t to pl dp disc pa irf ige wp lp rlog conf rmp crc hdc].
    cbn [set_RuleMaxPoints RuleMaxPoints].
    destruct ms as [|m' ms]; [done|]. rewrite last_cons_cons.
    destruct (last (m' :: ms)) eqn:E; [done|]. by apply last_None in E.
Qed.

(** The legal moves at the start of a turn: the two draws, when both piles
    have a card. *)
Lemma CalculatePossibleActions_start g h s :
  Players g !! TurnPlayerID g = Some (MkPlayer (Some h) s) →
  IsGameEnded g = false → IsRoundFinished g = false →
  HasDrawnCard g = false →
  cards (DrawPile g) ≠ [] → DiscardPile g ≠ [] →
  CalculatePossibleActions g
  = Ok [NewActionDrawFromDeck (TurnPlayerID g);
        NewActionDrawFromDiscard (TurnPlayerID g)].
Proof.
  intros Hp He Hf Hd Hdk Hdp.
  destruct (CalculatePossibleActions_spec g h s Hp) as (cc & _ & ->).
  f_equal. unfold allActions_of. rewrite Hd, Hf, andb_false_r.
  cbn [negb andb app].
  assert (E1 : is_possible g (NewActionDrawFromDeck (TurnPlayerID g)) = true).
  { unfold is_possible. cbn [IsPossible NewActionDrawFromDeck].
    unfold ActionDrawFromDeck_IsPossible, isEmpty.
    rewrite He, Hf, Hd. cbn [orb PlayerID].
    rewrite bool_decide_eq_false_2 by (by intros []).
    rewrite bool_decide_eq_false_2; [done|].
    by destruct (cards (DrawPile g)). }
  assert (E2 : is_possible g (NewActionDrawFromDiscard (TurnPlayerID g))
               = true).
  { unfold is_possible. cbn [IsPossible NewActionDrawFromDiscard].
    unfold ActionDrawFromDiscard_IsPossible.
    rewrite He, Hf, Hd. cbn [orb PlayerID].
    rewrite bool_decide_eq_false_2 by (by intros []).
    rewrite bool_decide_eq_true_2; [done|].
    destruct (DiscardPile g); [done|simpl; lia]. }
  assert (E3 : ∀ id, is_possible g (NewActionConfirmRoundFinished id) = false).
  { intros id. unfold is_possible.
    cbn [IsPossible NewActionConfirmRoundFinished].
    unfold ActionConfirmRoundFinished_IsPossible. by rewrite Hf. }
  rewrite !filter_cons, filter_nil.
  rewrite !decide_True by done.
  by rewrite !decide_False by (rewrite E3; done).
Qed.

(** The state that [New] returns. *)
Lemma New_first_round (ms : list Z) (rnd0 : nat → nat) (o : Oracle) :
  oracle_ok_for {[0; 1]} o →
  let D := makeSpanishCards (rnd o) in
  ∃ g,
    New (WithMaxPoints <$> ms) rnd0 o = Ok g
    ∧ RoundNumber g = 1
    ∧ TurnPlayerID g = 0 ∧ TurnOpponentPlayerID g = 1
    ∧ Players g = {[ 0 := MkPlayer (Some (MkHand (take 7 D))) 0;
                     1 := MkPlayer (Some (MkHand (take 7 (drop 7 D)))) 0 ]}
    ∧ DiscardPile g = take 1 (drop 14 D)
    ∧ cards (DrawPile g) = drop 15 D
    ∧ length (hand_cards g 0) = 7%nat ∧ length (hand_cards g 1) = 7%nat
    ∧ length (DiscardPile g) = 1%nat
    ∧ remainingCards (DrawPile g) = 33
    ∧ IsGameEnded g = false ∧ IsRoundFinished g = false
    ∧ WinnerPlayerID g = -1 ∧ LoserPlayerID g = -1
    ∧ HasDrawnCard g = false
    ∧ RuleMaxPoints g = default DefaultMaxPoints (last ms)
    ∧ PossibleActions g
      = _serializeActions [NewActionDrawFromDeck 0; NewActionDrawFromDiscard 0].
Proof.
  intros (Hopp & _ & _) D. apply order_ok_two in Hopp.
  destruct o as [r0 oo co so]. cbn [opp_order rnd] in *.
  unfold New. rewrite options_fold_last. cbn [RuleMaxPoints].
  set (m := default DefaultMaxPoints (last ms)).
  pose proof (makeSpanishCards_length r0) as Hlen. fold D in Hlen.
  destruct (startNewRound_first 0 0 (MkPlayer None 0) (MkPlayer None 0)
              (newDeck rnd0) [] [] false false (-1) (-1) [zero_RoundLog] ∅ m
              (-1) false r0 oo co so D Hopp eq_refl ltac:(lia))
    as (top & rest & gD & Hdrop & HgD & Hrun).
  change (set_RuleMaxPoints m _)
    with (MkGameState 0 0 0 {[ 0 := MkPlayer None 0; 1 := MkPlayer None 0 ]}
            (newDeck rnd0) [] [] false false (-1) (-1) [zero_RoundLog] ∅ m
            (-1) false).
  rewrite Hrun. clear Hrun.
  assert (Hrest : rest = drop 15 D).
  { change 15%nat with (14 + 1)%nat. rewrite <- drop_drop, Hdrop. done. }
  assert (Hlrest : length rest = 33%nat)
    by (rewrite Hrest, length_drop; lia).
  rewrite (CalculatePossibleActions_start gD (MkHand (take 7 D)) 0);
    try (by rewrite HgD).
  2:{ rewrite HgD. cbn [DrawPile cards]. by destruct rest. }
  cbn [mbind result_bind]. eexists. split; [reflexivity|].
  assert (HP : Players gD
               = {[ 0 := MkPlayer (Some (MkHand (take 7 D))) 0;
                    1 := MkPlayer (Some (MkHand (take 7 (drop 7 D)))) 0 ]})
    by (by rewrite HgD).
  destruct (hand_cards_two
              (set_PossibleActions
                 (_serializeActions [NewActionDrawFromDeck (TurnPlayerID gD);
                                     NewActionDrawFromDiscard (TurnPlayerID gD)])
                 gD) _ _ _ _ HP) as [E0 E1].
  rewrite E0, E1. cbn [Cards].
  fields. rewrite HP. rewrite HgD. fields. rewrite Hdrop.
  split_and!; try done.
  - rewrite length_take. lia.
  - rewrite length_take, length_drop. lia.
  - unfold remainingCards. cbn [cards]. lia.
Qed.

(** X9. [New] returns a game in its first round, whatever the options and
    the shuffles: player 0 is to act and has not drawn, each player holds
    seven cards, the first and the second seven of the shuffled deck, the
    fifteenth card lies face up and 33 cards remain in the draw pile; the
    scores are 0, the game is not ended, the limit is the one of the last
    [WithMaxPoints] option (100 without option), and the legal moves are the
    two draws of player 0.  The shuffle of [newDeck] has no effect on the
    game. *)
Theorem New_spec (ms : list Z) (rnd0 : nat → nat) (o : Oracle) :
  oracle_ok_for {[0; 1]} o →
  let D := makeSpanishCards (rnd o) in
  ∃ g,
    New (WithMaxPoints <$> ms) rnd0 o = Ok g
    ∧ RoundNumber g = 1
    ∧ TurnPlayerID g = 0 ∧ TurnOpponentPlayerID g = 1
    ∧ Players g = {[ 0 := MkPlayer (Some (MkHand (take 7 D))) 0;
                     1 := MkPlayer (Some (MkHand (take 7 (drop 7 D)))) 0 ]}
    ∧ DiscardPile g = take 1 (drop 14 D)
    ∧ cards (DrawPile g) = drop 15 D
    ∧ length (hand_cards g 0) = 7%nat ∧ length (hand_cards g 1) = 7%nat
    ∧ length (DiscardPile g) = 1%nat
    ∧ remainingCards (DrawPile g) = 33
    ∧ IsGameEnded g = false ∧ IsRoundFinished g = false
    ∧ WinnerPlayerID g = -1 ∧ LoserPlayerID g = -1
    ∧ HasDrawnCard g = false
    ∧ RuleMaxPoints g = default DefaultMaxPoints (last ms)
    ∧ PossibleActions g
      = _serializeActions [NewActionDrawFromDeck 0; NewActionDrawFromDiscard 0].
Proof. apply New_first_round. Qed.

Lemma New_spec_witness :
  ∃ g, New (WithMaxPoints <$> [30; 50]) (λ _, O) sample_oracle = Ok g
       ∧ RuleMaxPoints g = 50
       ∧ length (DiscardPile g) = 1%nat.
Proof.
  destruct (New_spec [30; 50] (λ _, O) sample_oracle sample_oracle_ok)
    as (g & Hg & H).
  exists g. split; [exact Hg|]. split; [apply H|apply H].
Defined.

(** The hands after an assignment to the hand of one of the two players. *)
Lemma hand_cards_update g g' id id' h' s h s' :
  Players g !! id' = Some (MkPlayer (Some h) s') →
  Players g' = <[id := MkPlayer (Some h') s]> (Players g) →
  hand_cards g' id' = if decide (id' = id) then Cards h' else Cards h.
Proof.
  intros Hp E. unfold hand_cards. rewrite E. case_decide as Hid.
  - subst. by rewrite lookup_insert_eq.
  - rewrite lookup_insert_ne by done. by rewrite Hp.
Qed.

Lemma score_of_update g g' id id' h' s p :
  Players g !! id = Some p → s = Score p →
  Players g' = <[id := MkPlayer h' s]> (Players g) →
  score_of g' id' = score_of g id'.
Proof.
  intros Hp -> E. unfold score_of. rewrite E.
  destruct (decide (id' = id)) as [-> | Hid].
  - by rewrite lookup_insert_eq, Hp.
  - by rewrite lookup_insert_ne.
Qed.

(** What [Run] does, in a state of the invariant whose game goes on, for a
    possible action of the player to act. *)
Lemma Run_effect a g o g1 :
  base_inv g → hands_inv g → IsGameEnded g = false →
  GetPlayerID a = TurnPlayerID g →
  IsPossible a g = Ok true →
  Run a g o = Ok g1 →
  same_frame g g1
  ∧ RoundsLog g1 = RoundsLog g
  ∧ move_effect a g
      (if YieldsTurn a g then changeTurn g1 else g1).
Proof.
  intros Hb Hh He Hpid Hposs Hrun.
  pose proof Hb as [(h0 & h1 & HP) Ht [Hr Hl] Hf Hc].
  assert (∃ ht hu,
            Players g !! TurnPlayerID g = Some (MkPlayer (Some ht) 0)
            ∧ Players g !! TurnOpponentPlayerID g
              = Some (MkPlayer (Some hu) 0)
            ∧ TurnOpponentPlayerID g ≠ TurnPlayerID g
            ∧ Players g !! 0 = Some (MkPlayer (Some h0) 0)
            ∧ Players g !! 1 = Some (MkPlayer (Some h1) 0))
    as (ht & hu & Hpt & Hpu & Hne & Hp0 & Hp1).
  { rewrite HP. destruct Ht as [[-> ->] | [-> ->]]; by eauto 10. }
  assert (Eht : hand_cards g (TurnPlayerID g) = Cards ht)
    by (unfold hand_cards; by rewrite Hpt).
  destruct Hh as (Hh1 & _ & _). rewrite Eht in Hh1.
  unfold GetPlayerID in Hpid.
  destruct a as [a | a | a card | a | a]; cbn [IsPossible Run act_of] in *.
  - destruct (ActionDrawFromDeck_possible _ _ Hposs) as (_ & _ & _ & Hd & Hdk).
    unfold ActionDrawFromDeck_Run in Hrun. rewrite Hposs in Hrun.
    cbn [mbind result_bind negb] in Hrun. unfold drawCard in Hrun.
    destruct (cards (DrawPile g)) as [|c rest] eqn:Edk; [done|].
    cbn [mbind result_bind] in Hrun. unfold update_Hand in Hrun.
    cbn [Players set_DrawPile] in Hrun. rewrite Hpid, Hpt in Hrun.
    cbn [deref mbind result_bind hand Score] in Hrun. simplify_eq.
    set (g1 := set_HasDrawnCard _ _).
    assert (E : Players g1
                = <[TurnPlayerID g := MkPlayer (Some (AddCard ht c)) 0]>
                    (Players g)) by done.
    cbn [YieldsTurn move_effect]. unfold same_frame.
    rewrite (hand_cards_update g g1 _ _ _ _ _ _ Hpu E).
    rewrite (hand_cards_update g g1 _ _ _ _ _ _ Hpt E).
    rewrite !(score_of_update g g1 _ _ _ _ _ Hpt eq_refl E).
    rewrite decide_False, decide_True by done.
    subst g1. fields. rewrite Eht.
    split_and!; try done.
    + unfold hand_cards. by rewrite Hpu.
    + by exists c.
  - destruct (ActionDrawFromDiscard_possible _ _ Hposs)
      as (_ & _ & _ & Hd & Hdp).
    unfold ActionDrawFromDiscard_Run in Hrun. rewrite Hposs in Hrun.
    cbn [mbind result_bind negb] in Hrun.
    destruct (last (DiscardPile g)) as [c|] eqn:Elast; [|done].
    apply last_Some in Elast as [pre Edp]. rewrite Edp in Hrun.
    rewrite length_app in Hrun. cbn [length] in Hrun.
    replace (length pre + 1 - 1)%nat with (length pre) in Hrun by lia.
    rewrite take_app_length in Hrun.
    unfold update_Hand in Hrun.
    cbn [Players set_DiscardPile] in Hrun. rewrite Hpid, Hpt in Hrun.
    cbn [deref mbind result_bind hand Score] in Hrun. simplify_eq.
    set (g1 := set_HasDrawnCard _ _).
    assert (E : Players g1
                = <[TurnPlayerID g := MkPlayer (Some (AddCard ht c)) 0]>
                    (Players g)) by done.
    cbn [YieldsTurn move_effect]. unfold same_frame.
    rewrite (hand_cards_update g g1 _ _ _ _ _ _ Hpu E).
    rewrite (hand_cards_update g g1 _ _ _ _ _ _ Hpt E).
    rewrite !(score_of_update g g1 _ _ _ _ _ Hpt eq_refl E).
    rewrite decide_False, decide_True by done.
    subst g1. fields. rewrite Eht.
    split_and!; try done.
    + unfold hand_cards. by rewrite Hpu.
    + by exists c.
  - destruct (ActionDiscardCard_possible _ _ _ Hposs)
      as (_ & _ & _ & Hd & h & s & Hp & Hhas).
    rewrite Hpid, Hpt in Hp. simplify_eq.
    unfold ActionDiscardCard_Run in Hrun. rewrite Hposs in Hrun.
    cbn [mbind result_bind negb] in Hrun.
    unfold update_Hand in Hrun. rewrite Hpid, Hpt in Hrun.
    cbn [deref mbind result_bind hand Score] in Hrun. unfold RemoveCard in Hrun.
    destruct (remove_first card (Cards h)) as [l'|] eqn:Hrem; [|done].
    cbn [mbind result_bind] in Hrun. simplify_eq.
    apply remove_first_Some in Hrem as (pre & post & Epre & Hnin & ->).
    set (g1 := set_DiscardPile _ _).
    assert (E : Players (changeTurn g1)
                = <[TurnPlayerID g := MkPlayer (Some (MkHand (pre ++ post))) 0]>
                    (Players g)) by done.
    assert (E' : Players g1
                = <[TurnPlayerID g := MkPlayer (Some (MkHand (pre ++ post))) 0]>
                    (Players g)) by done.
    cbn [YieldsTurn move_effect]. unfold same_frame.
    rewrite (hand_cards_update g g1 _ _ _ _ _ _ Hpu E').
    rewrite (hand_cards_update g (changeTurn g1) _ _ _ _ _ _ Hpt E).
    rewrite !(score_of_update g g1 _ _ _ _ _ Hpt eq_refl E').
    rewrite decide_False, decide_True by done.
    subst g1. fields. rewrite Eht.
    split_and!; try done.
    + unfold hand_cards. by rewrite Hpu.
    + by exists pre, post.
  - destruct (ActionClose_possible _ _ Hposs) as (_ & _ & _ & Hd & Hcc).
    exfalso. rewrite Hpid, Hd in *.
    rewrite (CanClose_length g _ ht 0 Hpt) in Hcc; [done|lia].
  - destruct (ActionConfirmRoundFinished_possible _ _ Hposs) as (Hf' & _).
    congruence.
Qed.

(** [move_effect] and [same_frame] read the turn, the piles, the players
    and the outcome only. *)
Lemma move_effect_ext a g g1 g2 :
  HasDrawnCard g2 = HasDrawnCard g1 →
  TurnPlayerID g2 = TurnPlayerID g1 →
  TurnOpponentPlayerID g2 = TurnOpponentPlayerID g1 →
  DiscardPile g2 = DiscardPile g1 →
  DrawPile g2 = DrawPile g1 →
  Players g2 = Players g1 →
  move_effect a g g1 → move_effect a g g2.
Proof.
  intros E1 E2 E3 E4 E5 E6. unfold move_effect, hand_cards.
  by rewrite E1, E2, E3, E4, E5, E6.
Qed.

Lemma same_frame_ext g g1 g2 :
  RoundNumber g2 = RoundNumber g1 →
  IsRoundFinished g2 = IsRoundFinished g1 →
  IsGameEnded g2 = IsGameEnded g1 →
  WinnerPlayerID g2 = WinnerPlayerID g1 →
  LoserPlayerID g2 = LoserPlayerID g1 →
  RuleMaxPoints g2 = RuleMaxPoints g1 →
  Players g2 = Players g1 →
  same_frame g g1 → same_frame g g2.
Proof.
  intros E1 E2 E3 E4 E5 E6 E7. unfold same_frame, hand_cards, score_of.
  by rewrite E1, E2, E3, E4, E5, E6, E7.
Qed.

(** [RunAction] on a possible action of the player to act, in a state of
    the invariant whose game goes on: the action runs, it is logged, the turn
    passes when the action yields it, and the end of [RunAction] follows. *)
Lemma RunAction_unfold g a o :
  game_inv g → IsGameEnded g = false →
  GetPlayerID a = TurnPlayerID g → IsPossible a g = Ok true →
  ∃ g1 rl,
    Run a g o = Ok g1
    ∧ log_action a g1 = Ok (set_RoundsLog rl g1)
    ∧ length rl = 2%nat
    ∧ RunAction g (Some a) o
      = finish_RunAction o
          (if YieldsTurn a g then changeTurn (set_RoundsLog rl g1)
           else set_RoundsLog rl g1).
Proof.
  intros [Hb _ Hh _] He Hpid Hposs. specialize (Hh He).
  destruct (Run_inv a g o Hb Hh He Hpid Hposs)
    as (g1 & h0 & h1 & Hrun & HP1 & Ht1 & Ho1 & Hr1 & Hl1 & Hf1 & He1 & Hc1
        & Hd1 & Hy & Hlen1 & Hlen2 & Hdp).
  destruct Hb as [_ _ [_ Hl] Hf _].
  destruct (log_action_inv a g1 Hr1) as (rl & Hlog & Hrl); [congruence|].
  exists g1, rl. split_and!; try done.
  unfold RunAction. rewrite He, Hf.
  cbn [negb andb]. rewrite bool_decide_eq_false_2 by (by intros []).
  rewrite Hposs. cbn [mbind result_bind negb]. rewrite Hrun.
  cbn [mbind result_bind]. rewrite Hlog.
  cbn [mbind result_bind]. fields. rewrite He1, Hf1. cbn [negb andb].
  unfold switch_turn. fields. rewrite He1, Hf1. cbn [negb andb].
  rewrite (YieldsTurn_state a _ g).
  destruct (YieldsTurn a g); fields; by rewrite ?He1, ?Hf1.
Qed.

(** The end of [RunAction] when the limit is positive: the state gets its
    legal moves, of which there is one at least, and nothing else changes. *)
Lemma finish_RunAction_pos o g :
  base_inv g → IsGameEnded g = false → hands_inv g → oracle_ok g o →
  0 < RuleMaxPoints g →
  ∃ acts,
    CalculatePossibleActions g = Ok acts
    ∧ finish_RunAction o g
      = Ok (set_PossibleActions (_serializeActions acts) g).
Proof.
  intros Hb He Hh Hok Hm.
  pose proof (base_inv_wf g Hb) as Hwf.
  destruct (oracle_ok_inv g o Hwf Hok) as (_ & _ & Hsc).
  destruct Hb as [(h0 & h1 & HP) Ht [Hr Hl] Hf Hc].
  destruct Hh as (Hh1 & Hh2 & Hh3).
  unfold finish_RunAction. cbv zeta.
  destruct (score_loop_zero o g _ _ HP Hsc) as [[_ ->] | (Hm' & _)]; [|lia].
  assert (∃ h, Players g !! TurnPlayerID g = Some (MkPlayer (Some h) 0)
               ∧ hand_cards g (TurnPlayerID g) = Cards h)
    as (h & Hp & Eh).
  { unfold hand_cards.
    destruct Ht as [[-> _] | [-> _]]; rewrite HP; by eauto. }
  rewrite Eh in Hh1.
  destruct (countActionsOfTurnPlayer_pos g h 0 Hp He Hf)
    as (acts & count & Hc1 & Hc2 & Hne).
  { destruct (HasDrawnCard g); lia. }
  { destruct (HasDrawnCard g); [|by auto].
    destruct (Cards h); [simpl in Hh1; lia|done]. }
  rewrite Hc1, Hc2. cbn [mbind result_bind].
  apply Z.eqb_neq in Hne. rewrite Hne. by exists acts.
Qed.

(** The state that [RunAction] hands to its last part. *)
Lemma RunAction_mid g a o g1 rl :
  game_inv g → oracle_ok g o → IsGameEnded g = false →
  GetPlayerID a = TurnPlayerID g → IsPossible a g = Ok true →
  Run a g o = Ok g1 → length rl = 2%nat →
  let gX := if YieldsTurn a g then changeTurn (set_RoundsLog rl g1)
            else set_RoundsLog rl g1 in
  base_inv gX ∧ IsGameEnded gX = false ∧ hands_inv gX ∧ oracle_ok gX o.
Proof.
  intros [Hb _ Hh _] Hok He Hpid Hposs Hrun' Hrl gX. specialize (Hh He).
  destruct (Run_inv a g o Hb Hh He Hpid Hposs)
    as (g1' & h0 & h1 & Hrun & HP1 & Ht1 & Ho1 & Hr1 & Hl1 & Hf1 & He1 & Hc1
        & Hd1 & Hy & Hlen1 & Hlen2 & Hdp).
  assert (g1' = g1) as -> by congruence.
  destruct Hb as [(h0' & h1' & HP) Ht [Hr Hl] Hf Hc].
  assert (Hok' : ∀ g3, Players g3 = Players g1 → oracle_ok g3 o).
  { intros g3 E. unfold oracle_ok in *. rewrite E, HP1. by rewrite HP in Hok. }
  assert (Hturn : (TurnPlayerID g1 = 0 ∧ TurnOpponentPlayerID g1 = 1)
                  ∨ (TurnPlayerID g1 = 1 ∧ TurnOpponentPlayerID g1 = 0))
    by (rewrite Ht1, Ho1; tauto).
  rewrite <- Ht1 in Hlen1, Hlen2.
  rewrite (YieldsTurn_state a g1 g) in *.
  subst gX. destruct (YieldsTurn a g) eqn:Ey; split_and!.
  - apply (base_inv_intro _ h0 h1); fields; first [done | tauto].
  - done.
  - apply (hands_inv_intro _ h0 h1); fields; try done.
    + tauto.
    + destruct Hturn as [[Ht' Ho'] | [Ht' Ho']]; rewrite Ht', Ho' in *;
        by repeat case_decide.
    + destruct Hturn as [[Ht' Ho'] | [Ht' Ho']]; rewrite Ht', Ho' in *;
        by repeat case_decide.
    + by auto.
  - by apply Hok'.
  - apply (base_inv_intro _ h0 h1); fields; first [done | tauto].
  - done.
  - apply (hands_inv_intro _ h0 h1); fields; try done.
    + by rewrite Hd1.
    + by rewrite Hd1.
  - by apply Hok'.
Qed.

(** The score loop of [RunAction] when both scores are 0 and the limit is
    not positive: every player visited has reached the limit, and the one
    visited last is recorded as the loser. *)
Lemma score_loop_zero_last o g h0 h1 :
  Players g = {[ 0 := MkPlayer h0 0; 1 := MkPlayer h1 0 ]} →
  opp_order o = [0; 1] ∨ opp_order o = [1; 0] →
  score_order o = [0; 1] ∨ score_order o = [1; 0] →
  RuleMaxPoints g ≤ 0 →
  ∃ l, last (score_order o) = Some l
       ∧ score_loop o g
         = set_WinnerPlayerID (1 - l)
             (set_LoserPlayerID l (set_IsGameEnded true g)).
Proof.
  intros HP Hopp Hsc Hm.
  assert (Hop : ∀ g' id, Players g' = Players g → id = 0 ∨ id = 1 →
                         OpponentOf o g' id = 1 - id).
  { intros g' id E Hid. rewrite HP in E.
    by apply (OpponentOf_two o g' _ _ id E Hopp). }
  assert (E01 : range_Players [0; 1] g
                = [(0, MkPlayer h0 0); (1, MkPlayer h1 0)])
    by (unfold range_Players; by rewrite HP).
  assert (E10 : range_Players [1; 0] g
                = [(1, MkPlayer h1 0); (0, MkPlayer h0 0)])
    by (unfold range_Players; by rewrite HP).
  unfold score_loop.
  destruct Hsc as [Hs | Hs]; rewrite Hs, ?E01, ?E10;
    [exists 1 | exists 0]; (split; [done|]);
    destruct g as [rn t to pl dp disc pa irf ige wp lp rlog conf rmp crc hdc];
    cbn [Players RuleMaxPoints] in *; subst pl;
    cbn [foldl fst Players RuleMaxPoints set_WinnerPlayerID set_LoserPlayerID
         set_IsGameEnded];
    change (({[ 0 := MkPlayer h0 0; 1 := MkPlayer h1 0 ]} : gmap Z Player)
              !! 0) with (Some (MkPlayer h0 0));
    change (({[ 0 := MkPlayer h0 0; 1 := MkPlayer h1 0 ]} : gmap Z Player)
              !! 1) with (Some (MkPlayer h1 0));
    cbn [Score]; replace (0 >=? rmp) with true by (symmetry; apply Z.geb_le; lia);
    cbn [foldl fst Players RuleMaxPoints set_WinnerPlayerID set_LoserPlayerID
         set_IsGameEnded];
    change (({[ 0 := MkPlayer h0 0; 1 := MkPlayer h1 0 ]} : gmap Z Player)
              !! 0) with (Some (MkPlayer h0 0));
    change (({[ 0 := MkPlayer h0 0; 1 := MkPlayer h1 0 ]} : gmap Z Player)
              !! 1) with (Some (MkPlayer h1 0));
    cbn [Score]; replace (0 >=? rmp) with true by (symmetry; apply Z.geb_le; lia);
    rewrite !Hop by (done || by auto); reflexivity.
Qed.

(** The end of [RunAction] when the limit is not positive: the game ends,
    the turn passes, and no move is left. *)
Lemma finish_RunAction_nonpos o g :
  base_inv g → oracle_ok g o → RuleMaxPoints g ≤ 0 →
  ∃ l, last (score_order o) = Some l
       ∧ finish_RunAction o g
         = Ok (set_PossibleActions []
                 (changeTurn
                    (set_WinnerPlayerID (1 - l)
                       (set_LoserPlayerID l (set_IsGameEnded true g))))).
Proof.
  intros Hb Hok Hm.
  pose proof (base_inv_wf g Hb) as Hwf.
  destruct (oracle_ok_inv g o Hwf Hok) as (Hopp & _ & Hsc).
  destruct Hb as [(h0 & h1 & HP) Ht [Hr Hl] Hf Hc].
  unfold finish_RunAction. cbv zeta.
  destruct (score_loop_zero_last o g _ _ HP Hopp Hsc Hm) as (l & Hl' & ->).
  exists l. split; [done|].
  set (gS := set_WinnerPlayerID _ _).
  assert (∃ h h', Players gS !! TurnPlayerID gS
                  = Some (MkPlayer (Some h) 0)
                  ∧ Players (changeTurn gS) !! TurnPlayerID (changeTurn gS)
                    = Some (MkPlayer (Some h') 0))
    as (h & h' & Hp & Hp').
  { subst gS. fields. rewrite HP.
    destruct Ht as [[-> ->] | [-> ->]]; by eauto. }
  rewrite (CalculatePossibleActions_ended gS h 0 Hp) by done.
  unfold countActionsOfTurnPlayer.
  rewrite (CalculatePossibleActions_ended gS h 0 Hp) by done.
  cbn [mbind result_bind foldl Z.eqb].
  rewrite (CalculatePossibleActions_ended (changeTurn gS) h' 0 Hp') by done.
  done.
Qed.

(** What [RunAction] accepts, in a state of the invariant. *)
Lemma RunAction_Ok_inv g a o g' :
  game_inv g → RunAction g (Some a) o = Ok g' →
  IsGameEnded g = false ∧ GetPlayerID a = TurnPlayerID g
  ∧ IsPossible a g = Ok true.
Proof.
  intros Hinv Hrun. unfold RunAction in Hrun.
  destruct (IsGameEnded g) eqn:He; [done|].
  rewrite (inv_not_finished g (inv_base g Hinv)) in Hrun.
  cbn [negb andb] in Hrun. case_bool_decide as Hpid; [done|].
  destruct (IsPossible a g) as [[|]| |] eqn:Hposs; done.
Qed.

(** The two courses of a successful [RunAction], by the sign of the
    limit. *)
Lemma RunAction_cases g a o g' :
  game_inv g → oracle_ok g o → RunAction g (Some a) o = Ok g' →
  ∃ g1 rl,
    Run a g o = Ok g1
    ∧ log_action a g1 = Ok (set_RoundsLog rl g1)
    ∧ same_frame g g1
    ∧ move_effect a g (if YieldsTurn a g then changeTurn g1 else g1)
    ∧ let gX := if YieldsTurn a g then changeTurn (set_RoundsLog rl g1)
                else set_RoundsLog rl g1 in
      (0 < RuleMaxPoints g
       ∧ ∃ acts, CalculatePossibleActions gX = Ok acts
                 ∧ g' = set_PossibleActions (_serializeActions acts) gX)
      ∨ (RuleMaxPoints g ≤ 0
         ∧ ∃ l, last (score_order o) = Some l
                ∧ g' = set_PossibleActions []
                         (changeTurn
                            (set_WinnerPlayerID (1 - l)
                               (set_LoserPlayerID l
                                  (set_IsGameEnded true gX))))).
Proof.
  intros Hinv Hok Hrun.
  destruct (RunAction_Ok_inv g a o g' Hinv Hrun) as (He & Hpid & Hposs).
  destruct (RunAction_unfold g a o Hinv He Hpid Hposs)
    as (g1 & rl & Hrun1 & Hlog & Hrl & Heq).
  destruct (RunAction_mid g a o g1 rl Hinv Hok He Hpid Hposs Hrun1 Hrl)
    as (HbX & HeX & HhX & HokX).
  destruct (Run_effect a g o g1 (inv_base g Hinv) (inv_hands g Hinv He) He
              Hpid Hposs Hrun1) as (Hframe & Hlog1 & Heff).
  exists g1, rl. split_and!; try done.
  cbv zeta. rewrite Heq in Hrun.
  set (gX := if YieldsTurn a g then _ else _) in *.
  assert (Hm : RuleMaxPoints gX = RuleMaxPoints g).
  { destruct Hframe as (_ & _ & _ & _ & _ & Hm & _).
    subst gX. by destruct (YieldsTurn a g). }
  destruct (Z_lt_le_dec 0 (RuleMaxPoints g)) as [Hpos | Hnonpos].
  - left. split; [done|].
    destruct (finish_RunAction_pos o gX HbX HeX HhX HokX) as (acts & Hc & Hfin);
      [lia|].
    exists acts. split; [done|]. congruence.
  - right. split; [done|].
    destruct (finish_RunAction_nonpos o gX HbX HokX) as (l & Hl & Hfin);
      [lia|].
    exists l. split; [done|]. congruence.
Qed.

(** X10. A successful [RunAction] in a reachable state of a game with a
    positive limit is a move of the player to act: a draw, which takes the
    top card of the draw pile or of the discard pile to the end of the
    player's hand and leaves the turn where it is, or a discard, which takes
    the first copy of the card from the player's hand to the top of the
    discard pile and passes the turn.  The other hand, the scores, the round
    and the outcome of the game are not touched. *)
Theorem RunAction_move
    (g : GameState) (a : Action) (o : Oracle) (g' : GameState) :
  reachable g →
  oracle_ok g o →
  0 < RuleMaxPoints g →
  RunAction g (Some a) o = Ok g' →
  GetPlayerID a = TurnPlayerID g ∧ same_frame g g' ∧ move_effect a g g'.
Proof.
  intros Hr Hok Hm Hrun. pose proof (reachable_inv g Hr) as Hinv.
  destruct (RunAction_Ok_inv g a o g' Hinv Hrun) as (He & Hpid & Hposs).
  destruct (RunAction_cases g a o g' Hinv Hok Hrun)
    as (g1 & rl & Hrun1 & Hlog & Hframe & Heff & Hcases).
  destruct Hcases as [(_ & acts & _ & ->) | (Hm' & _)]; [|lia].
  split; [done|]. split.
  - eapply same_frame_ext; [..|exact Hframe];
      by destruct (YieldsTurn a g).
  - eapply move_effect_ext; [..|exact Heff];
      by destruct (YieldsTurn a g).
Qed.

(** In a round that is not finished the legal moves are moves of the player
    to act. *)
Lemma legal_moves_of_turn_player g h s acts :
  Players g !! TurnPlayerID g = Some (MkPlayer (Some h) s) →
  IsRoundFinished g = false →
  CalculatePossibleActions g = Ok acts →
  Forall (λ a, GetPlayerID a = TurnPlayerID g) acts.
Proof.
  intros Hp Hf Hc.
  destruct (CalculatePossibleActions_spec g h s Hp) as (cc & _ & Hc').
  rewrite Hc' in Hc. simplify_eq. apply Forall_forall. intros a Ha.
  apply list_elem_of_filter in Ha as [Hposs Ha].
  unfold allActions_of in Ha.
  rewrite !elem_of_app in Ha. destruct Ha as [Ha | [Ha | [Ha | Ha]]].
  - destruct (_ && _); [|by apply elem_of_nil in Ha].
    rewrite !elem_of_cons, elem_of_nil in Ha. by destruct Ha as [-> | [-> | []]].
  - destruct (_ && _); [|by apply elem_of_nil in Ha].
    by apply list_elem_of_fmap in Ha as (c & -> & _).
  - destruct (_ && _); [|by apply elem_of_nil in Ha].
    by apply list_elem_of_singleton in Ha as ->.
  - exfalso. rewrite !elem_of_cons, elem_of_nil in Ha.
    destruct Ha as [-> | [-> | []]];
      unfold is_possible in Hposs;
      cbn [IsPossible NewActionConfirmRoundFinished] in Hposs;
      unfold ActionConfirmRoundFinished_IsPossible in Hposs;
      by rewrite Hf in Hposs.
Qed.

(** X11. A game with a positive limit never ends: in every reachable state
    the game is not ended, no winner and no loser is recorded, the scores
    are 0, the round is the first one and is not finished, and the player to
    act has a legal move (all legal moves are that player's). *)
Theorem positive_limit_never_ends (g : GameState) :
  reachable g →
  0 < RuleMaxPoints g →
  IsGameEnded g = false
  ∧ WinnerPlayerID g = -1 ∧ LoserPlayerID g = -1
  ∧ score_of g 0 = 0 ∧ score_of g 1 = 0
  ∧ RoundNumber g = 1 ∧ IsRoundFinished g = false
  ∧ ∃ acts,
      CalculatePossibleActions g = Ok acts
      ∧ acts ≠ []
      ∧ Forall (λ a, GetPlayerID a = TurnPlayerID g) acts.
Proof.
  intros Hr Hm.
  assert (Hend : IsGameEnded g = false
                 ∧ WinnerPlayerID g = -1 ∧ LoserPlayerID g = -1).
  { induction Hr as [ms rnd0 o g Hok Hnew | g action o g' Hr IH Hok Hrun].
    - destruct (New_first_round ms rnd0 o Hok) as (g0 & Hg0 & H).
      assert (g0 = g) as -> by congruence.
      by destruct H
        as (_ & _ & _ & _ & _ & _ & _ & _ & _ & _ & He & _ & Hw & Hl & _).
    - destruct action as [a|]; [|simplify_eq/=; by apply IH].
      pose proof (reachable_inv g Hr) as Hinv.
      destruct (RunAction_cases g a o g' Hinv Hok Hrun)
        as (g1 & rl & _ & _ & Hframe & _ & Hcases).
      destruct Hframe as (_ & _ & He1 & Hw1 & Hl1 & Hm1 & _).
      destruct Hcases as [(Hpos & acts & _ & ->) | (Hnonpos & l & _ & ->)].
      + destruct (IH Hpos) as (He & Hw & Hl).
        destruct (YieldsTurn a g); fields; by rewrite ?He1, ?Hw1, ?Hl1.
      + exfalso. revert Hm. destruct (YieldsTurn a g); fields; lia. }
  destruct (reachable_inv g Hr) as [Hb _ Hh _].
  destruct Hend as (He & Hw & Hl). specialize (Hh He).
  pose proof Hb as [(h0 & h1 & HP) Ht [Hrn _] Hf _].
  split_and!; try done.
  - unfold score_of. by rewrite HP.
  - unfold score_of. by rewrite HP.
  - assert (∃ h, Players g !! TurnPlayerID g = Some (MkPlayer (Some h) 0)
                 ∧ hand_cards g (TurnPlayerID g) = Cards h)
      as (h & Hp & Eh).
    { unfold hand_cards.
      destruct Ht as [[-> _] | [-> _]]; rewrite HP; by eauto. }
    destruct Hh as (Hh1 & _ & Hh3). rewrite Eh in Hh1.
    destruct (countActionsOfTurnPlayer_pos g h 0 Hp He Hf)
      as (acts & count & Hc1 & Hc2 & Hne).
    { destruct (HasDrawnCard g); lia. }
    { destruct (HasDrawnCard g); [|by auto].
      destruct (Cards h); [simpl in Hh1; lia|done]. }
    exists acts. split_and!; [done| |by eapply legal_moves_of_turn_player].
    intros ->. unfold countActionsOfTurnPlayer in Hc2. rewrite Hc1 in Hc2.
    by simplify_eq/=.
Qed.

Lemma positive_limit_never_ends_witness :
  IsGameEnded sample_drawn = false ∧ score_of sample_drawn 1 = 0.
Proof.
  destruct (positive_limit_never_ends sample_drawn sample_drawn_reachable)
    as (He & _ & _ & _ & Hs & _); [by vm_compute|].
  by split.
Defined.

(** X12. In a game created with a limit that is not positive, the first
    successful [RunAction] ends the game: the score check finds both players
    at the limit, records as loser the player that the loop visits last and
    the other one as winner; no legal move is left, [HasDrawnCard] is
    cleared, and every later action is refused because the game is ended. *)
Theorem nonpositive_limit_ends
    (g : GameState) (a : Action) (o : Oracle) (g' : GameState) :
  reachable g →
  oracle_ok g o →
  RuleMaxPoints g ≤ 0 →
  RunAction g (Some a) o = Ok g' →
  IsGameEnded g' = true
  ∧ last (score_order o) = Some (LoserPlayerID g')
  ∧ WinnerPlayerID g' = 1 - LoserPlayerID g'
  ∧ PossibleActions g' = []
  ∧ CalculatePossibleActions g' = Ok []
  ∧ HasDrawnCard g' = false
  ∧ ∀ a' o', RunAction g' (Some a') o' = Err (errTryingToRun errGameIsEnded).
Proof.
  intros Hr Hok Hm Hrun. pose proof (reachable_inv g Hr) as Hinv.
  assert (Hr' : reachable g') by (by eapply reachable_RunAction).
  pose proof (reachable_inv g' Hr') as [Hb' _ _ (acts' & Hacts' & Hpa')].
  destruct (RunAction_cases g a o g' Hinv Hok Hrun)
    as (g1 & rl & _ & _ & Hframe & _ & Hcases).
  destruct Hcases as [(Hpos & _) | (_ & l & Hl & ->)]; [lia|].
  assert (He : IsGameEnded
                 (set_PossibleActions []
                    (changeTurn
                       (set_WinnerPlayerID (1 - l)
                          (set_LoserPlayerID l
                             (set_IsGameEnded true
                                (if YieldsTurn a g
                                 then changeTurn (set_RoundsLog rl g1)
                                 else set_RoundsLog rl g1)))))) = true)
    by done.
  destruct (wf_turn_player _ (base_inv_wf _ Hb')) as (h & s & Hp).
  pose proof (CalculatePossibleActions_ended _ h s Hp He) as Hc.
  by split_and!.
Qed.

Lemma nonpositive_limit_ends_witness :
  IsGameEnded sample_ended = true ∧ LoserPlayerID sample_ended = 1.
Proof.
  assert (Hz : reachable sample_zero).
  { apply (reachable_New [0] (λ _, O) sample_oracle);
      [apply sample_oracle_ok|by vm_compute]. }
  destruct (nonpositive_limit_ends sample_zero (NewActionDrawFromDeck 0)
              sample_oracle sample_ended Hz) as (He & Hl & _).
  - solve_oracle_ok.
  - by vm_compute.
  - by vm_compute.
  - split; [exact He|]. by vm_compute.
Defined.

(** X13. The outcomes of [RunAction] in a reachable state.  The nil action
    changes nothing.  Another action is refused with the game-is-ended error
    when the game is ended, else with the not-your-turn error when it is not
    an action of the player to act, else with the action-not-possible error
    when its [IsPossible] is false; in the remaining case it is run, and the
    new state is reachable.  [RunAction] never fails after the checks, and
    never dereferences a nil pointer. *)
Theorem RunAction_outcomes (g : GameState) (a : Action) (o : Oracle) :
  reachable g →
  oracle_ok g o →
  RunAction g None o = Ok g
  ∧ match RunAction g (Some a) o with
    | Ok g' =>
        IsGameEnded g = false ∧ GetPlayerID a = TurnPlayerID g
        ∧ IsPossible a g = Ok true ∧ reachable g'
    | Err e =>
        (IsGameEnded g = true ∧ e = errTryingToRun errGameIsEnded)
        ∨ (IsGameEnded g = false ∧ GetPlayerID a ≠ TurnPlayerID g
           ∧ e = errNotYourTurn)
        ∨ (IsGameEnded g = false ∧ GetPlayerID a = TurnPlayerID g
           ∧ IsPossible a g = Ok false
           ∧ e = errTryingToRun errActionNotPossible)
    | Panic => False
    end.
Proof.
  intros Hr Hok. split; [done|].
  pose proof (reachable_inv g Hr) as Hinv.
  destruct (IsGameEnded g) eqn:He.
  { unfold RunAction. rewrite He. by left. }
  destruct (decide (GetPlayerID a = TurnPlayerID g)) as [Hpid | Hpid].
  2:{ unfold RunAction. rewrite He, (inv_not_finished g (inv_base g Hinv)).
      cbn [negb andb]. rewrite bool_decide_eq_true_2 by done.
      right. by left. }
  destruct (wf_turn_player g (base_inv_wf g (inv_base g Hinv)))
    as (h & s & Hp).
  destruct (IsPossible_total g a h s Hp) as [[|] Hposs].
  - destruct (RunAction_step g a o Hinv Hok He Hpid Hposs) as (g' & Hg' & _).
    rewrite Hg'. split_and!; try done. by eapply reachable_RunAction.
  - unfold RunAction. rewrite He, (inv_not_finished g (inv_base g Hinv)).
    cbn [negb andb]. rewrite bool_decide_eq_false_2 by (by intros []).
    rewrite Hposs. cbn [mbind result_bind negb]. right. right. done.
Qed.

Lemma RunAction_outcomes_witness :
  RunAction sample_drawn (Some (NewActionDrawFromDeck 0)) sample_oracle
  = Err (errTryingToRun errActionNotPossible).
Proof.
  pose proof (RunAction_outcomes sample_drawn (NewActionDrawFromDeck 0)
                sample_oracle sample_drawn_reachable) as [_ H].
  { solve_oracle_ok. }
  destruct (RunAction sample_drawn _ sample_oracle) as [g'|e|] eqn:E.
  - destruct H as (_ & _ & Hp & _). by vm_compute in Hp.
  - destruct H as [[He _] | [(_ & Hpid & _) | (_ & _ & _ & ->)]].
    + by vm_compute in He.
    + exfalso. apply Hpid. by vm_compute.
    + done.
  - done.
Defined.

(** X14. The legal moves of a reachable state are the actions that
    [RunAction] accepts: every action that [CalculatePossibleActions]
    returns is run successfully, and every action that is run successfully
    and carries the name of its variant is among those returned. *)
Theorem legal_moves_accepted
    (g : GameState) (o : Oracle) (acts : list Action) (a : Action) :
  reachable g →
  oracle_ok g o →
  CalculatePossibleActions g = Ok acts →
  (a ∈ acts → ∃ g', RunAction g (Some a) o = Ok g')
  ∧ ((∃ g', RunAction g (Some a) o = Ok g') →
     GetName a = variant_name a → a ∈ acts).
Proof.
  intros Hr Hok Hc. pose proof (reachable_inv g Hr) as Hinv.
  pose proof (inv_base g Hinv) as Hb.
  pose proof (inv_not_finished g Hb) as Hf.
  destruct (wf_turn_player g (base_inv_wf g Hb)) as (h & s & Hp).
  split.
  - intros Ha.
    pose proof (CalculatePossibleActions_possible g acts a Hc Ha) as Hposs.
    assert (He : IsGameEnded g = false).
    { destruct (IsGameEnded g) eqn:He; [|done].
      by rewrite (IsPossible_ended a g He) in Hposs. }
    pose proof (legal_moves_of_turn_player g h s acts Hp Hf Hc) as Hall.
    eapply Forall_forall in Hall; [|done].
    destruct (RunAction_step g a o Hinv Hok He Hall Hposs) as (g' & Hg' & _).
    by exists g'.
  - intros [g' Hrun] Hname.
    destruct (RunAction_Ok_inv g a o g' Hinv Hrun) as (He & Hpid & Hposs).
    destruct (CalculatePossibleActions_spec g h s Hp) as (cc & _ & Hc').
    rewrite Hc' in Hc. simplify_eq.
    apply list_elem_of_filter. split; [by rewrite (is_possible_Ok _ _ _ Hposs)|].
    unfold allActions_of. rewrite Hf. cbn [negb]. rewrite !andb_true_r.
    unfold GetPlayerID, GetName in *.
    destruct a as [[n p] | [n p] | [n p] card | [n p] | [n p]];
      cbn [act_of PlayerID Name variant_name IsPossible] in *; subst.
    + destruct (ActionDrawFromDeck_possible _ _ Hposs)
        as (_ & _ & _ & -> & _).
      cbn [negb]. apply elem_of_app. left. by left.
    + destruct (ActionDrawFromDiscard_possible _ _ Hposs)
        as (_ & _ & _ & -> & _).
      cbn [negb]. apply elem_of_app. left. right. by left.
    + destruct (ActionDiscardCard_possible _ _ _ Hposs)
        as (_ & _ & _ & Hd & h' & s' & Hp' & Hhas).
      cbn [PlayerID] in Hp'. rewrite Hp in Hp'. simplify_eq.
      rewrite Hd. apply elem_of_app. right. apply elem_of_app. left.
      apply list_elem_of_fmap. exists card. split; [done|].
      rewrite HasCard_elem_of in Hhas. by apply bool_decide_eq_true in Hhas.
    + exfalso. destruct (ActionClose_possible _ _ Hposs)
        as (_ & _ & _ & Hd & Hcc).
      cbn [PlayerID] in Hcc. destruct (inv_hands g Hinv He) as (H8 & _).
      apply CanClose_true_length in Hcc. rewrite Hd, Hcc in H8. done.
    + exfalso.
      destruct (ActionConfirmRoundFinished_possible _ _ Hposs) as (Hf' & _).
      congruence.
Qed.

Lemma legal_moves_accepted_witness :
  ∃ g', RunAction sample_new (Some (NewActionDrawFromDiscard 0)) sample_oracle
        = Ok g'.
Proof.
  apply (legal_moves_accepted sample_new sample_oracle
           [NewActionDrawFromDeck 0; NewActionDrawFromDiscard 0]
           (NewActionDrawFromDiscard 0) sample_new_reachable
           sample_new_oracle_ok).
  - by vm_compute.
  - apply list_elem_of_further, list_elem_of_here.
Defined.

Lemma RunAction_move_witness :
  move_effect (NewActionDrawFromDiscard 0) sample_new sample_drawn.
Proof.
  apply (RunAction_move sample_new (NewActionDrawFromDiscard 0)
           sample_oracle sample_drawn sample_new_reachable
           sample_new_oracle_ok).
  - by vm_compute.
  - by vm_compute.
Defined.

#[local] Arguments IsChinchon : simpl never.
#[local] Arguments ValidGroups : simpl never.
#[local] Arguments PenaltyPoints : simpl never.
#[local] Arguments GoInt.add : simpl never.
#[local] Arguments CanClose : simpl never.
#[local] Arguments CalculatePossibleActions : simpl never.
#[local] Arguments makeSpanishCards : simpl never.
#[local] Arguments DeserializeAction : simpl never.
#[local] Arguments SerializeAction : simpl never.

(** ** Further properties: the client and the bot *)

(** A well-formed action survives [SerializeAction] and
    [DeserializeAction]. *)
Lemma DeserializeAction_well_formed a :
  well_formed_action a → DeserializeAction (SerializeAction a) = Ok a.
Proof.
  intros (Hname & Hpid & Hcard). unfold GetName, GetPlayerID in *.
  destruct a as [[n p] | [n p] | [n p] card | [n p] | [n p]];
    cbn [act_of Name PlayerID variant_name] in *; subst n;
    unfold DeserializeAction, SerializeAction.
  - rewrite Unmarshal_actionName_act by reflexivity.
    cbn [mbind result_bind Name].
    rewrite bool_decide_eq_true_2 by done.
    by rewrite Unmarshal_marshal_act.
  - rewrite Unmarshal_actionName_act by reflexivity.
    cbn [mbind result_bind Name].
    rewrite bool_decide_eq_false_2 by done.
    rewrite bool_decide_eq_true_2 by done.
    by rewrite Unmarshal_marshal_act.
  - destruct Hcard as [Hnum Hsuit].
    rewrite Unmarshal_actionName_discard by reflexivity.
    cbn [mbind result_bind Name].
    rewrite !bool_decide_eq_false_2 by done.
    rewrite bool_decide_eq_true_2 by done.
    by rewrite Unmarshal_marshal_ActionDiscardCard.
  - rewrite Unmarshal_actionName_act by reflexivity.
    cbn [mbind result_bind Name].
    rewrite !bool_decide_eq_false_2 by done.
    rewrite bool_decide_eq_true_2 by done.
    by rewrite Unmarshal_marshal_act.
  - rewrite Unmarshal_actionName_act by reflexivity.
    cbn [mbind result_bind Name].
    rewrite !bool_decide_eq_false_2 by done.
    rewrite bool_decide_eq_true_2 by done.
    by rewrite Unmarshal_marshal_act.
Qed.

Lemma _deserializeActions_loop acc acts :
  Forall well_formed_action acts →
  fold_result (λ acc doc,
                 match DeserializeAction doc with
                 | Ok a => Ok (acc ++ [Some a])
                 | Err _ => Ok (acc ++ [None])
                 | Panic => Panic
                 end)
              acc (_serializeActions acts)
  = Ok (acc ++ (Some <$> acts)).
Proof.
  revert acc. induction acts as [|a acts IH]; intros acc Hwf.
  - cbn. by rewrite app_nil_r.
  - apply Forall_cons in Hwf as [Ha Hwf].
    cbn [_serializeActions fmap list_fmap fold_result].
    rewrite (DeserializeAction_well_formed a Ha). cbn [mbind result_bind].
    fold (_serializeActions acts). rewrite (IH _ Hwf).
    by rewrite <- (assoc_L (++)).
Qed.

Lemma _deserializeActions_Ok (acts : list Action) :
  Forall well_formed_action acts →
  _deserializeActions (_serializeActions acts) = Ok (Some <$> acts).
Proof.
  intros Hwf. unfold _deserializeActions. by rewrite _deserializeActions_loop.
Qed.

(** X15. The list of well-formed actions that [_serializeActions] writes is
    read back by [_deserializeActions] whole and in order, with no nil
    action.  Well-formed: each action carries the name of its variant, its
    player id and the number of its card are values of [int], and the suit
    of its card is valid UTF-8. *)
Theorem _deserializeActions_serializeActions (acts : list Action) :
  Forall well_formed_action acts →
  _deserializeActions (_serializeActions acts) = Ok (Some <$> acts).
Proof. apply _deserializeActions_Ok. Qed.

Lemma _deserializeActions_serializeActions_witness :
  _deserializeActions
    (_serializeActions [NewActionDrawFromDeck 1;
                        NewActionDiscardCard (MkCard BASTO 7) 1])
  = Ok [Some (NewActionDrawFromDeck 1);
        Some (NewActionDiscardCard (MkCard BASTO 7) 1)].
Proof.
  apply (_deserializeActions_serializeActions
           [NewActionDrawFromDeck 1; NewActionDiscardCard (MkCard BASTO 7) 1]).
  repeat constructor; by vm_compute.
Defined.

(** The search loops of [ChooseAction] on a list without nil action. *)
Lemma first_named_Some name acts :
  first_named name (Some <$> acts)
  = Ok (head (filter (λ a, GetName a = name) acts)).
Proof.
  induction acts as [|a acts IH]; [done|].
  cbn [fmap list_fmap first_named]. rewrite filter_cons.
  case_bool_decide as Hn.
  - by rewrite decide_True.
  - by rewrite decide_False.
Qed.

Lemma head_filter_Some {A} (P : A → Prop) `{!∀ x, Decision (P x)} l a :
  head (filter P l) = Some a → a ∈ l ∧ P a.
Proof.
  intros Hh. assert (Ha : a ∈ filter P l).
  { destruct (filter P l); simplify_eq/=. apply list_elem_of_here. }
  apply list_elem_of_filter in Ha. tauto.
Qed.

Lemma head_filter_None {A} (P : A → Prop) `{!∀ x, Decision (P x)} l :
  head (filter P l) = None → Forall (λ a, ¬ P a) l.
Proof.
  intros Hh. apply Forall_forall. intros a Ha HP.
  assert (Hin : a ∈ filter P l) by (by apply list_elem_of_filter).
  destruct (filter P l); [by apply elem_of_nil in Hin|done].
Qed.

(** A well-formed action has the name of the discard exactly when it is a
    discard. *)
Lemma discard_name a :
  GetName a = variant_name a →
  GetName a = DISCARD_CARD ↔ ∃ a0 card, a = ActionDiscardCard a0 card.
Proof.
  intros Hname. rewrite Hname. destruct a; cbn [variant_name]; split;
    try done; try (by intros (? & ? & ?)); by eauto.
Qed.

(** The discard loop keeps the first discard of the highest value seen. *)
Lemma best_discard_spec acts hv b :
  Forall (λ a, GetName a = variant_name a) acts →
  ∃ r hv',
    best_discard (Some <$> acts) hv b = Ok r
    ∧ hv ≤ hv'
    ∧ (∀ a0 card, ActionDiscardCard a0 card ∈ acts → PenaltyValue card ≤ hv')
    ∧ ((r = b ∧ hv' = hv)
       ∨ (∃ a0 card,
            r = Some (ActionDiscardCard a0 card)
            ∧ ActionDiscardCard a0 card ∈ acts
            ∧ PenaltyValue card = hv' ∧ hv < hv')).
Proof.
  revert hv b. induction acts as [|a acts IH]; intros hv b Hwf.
  - exists b, hv. split_and!; [done|lia| |by left].
    intros a0 card Hin. by apply elem_of_nil in Hin.
  - apply Forall_cons in Hwf as [Ha Hwf].
    cbn [fmap list_fmap best_discard].
    pose proof (discard_name a Ha) as Hd.
    case_bool_decide as Hn.
    + apply Hd in Hn as (a0 & card & ->). cbv zeta.
      destruct (PenaltyValue card >? hv) eqn:Hgt.
      * apply Z.gtb_lt in Hgt.
        destruct (IH (PenaltyValue card) (Some (ActionDiscardCard a0 card)) Hwf)
          as (r & hv' & -> & Hle & Hmax & Hr).
        exists r, hv'. split_and!; [done|lia| |].
        -- intros a1 card1 Hin. apply elem_of_cons in Hin as [Heq | Hin].
           ++ simplify_eq. lia.
           ++ by eapply Hmax.
        -- right. destruct Hr as [[-> ->] | (a1 & card1 & -> & Hin & Hv & Hlt)].
           ++ exists a0, card. split_and!; [done|apply list_elem_of_here|done|lia].
           ++ exists a1, card1.
              split_and!; [done|by apply list_elem_of_further|done|lia].
      * assert (Hle0 : PenaltyValue card ≤ hv).
        { destruct (Z.gtb_spec (PenaltyValue card) hv); [done|lia]. }
        destruct (IH hv b Hwf) as (r & hv' & -> & Hle & Hmax & Hr).
        exists r, hv'. split_and!; [done|lia| |].
        -- intros a1 card1 Hin. apply elem_of_cons in Hin as [Heq | Hin].
           ++ simplify_eq. lia.
           ++ by eapply Hmax.
        -- destruct Hr as [[-> ->] | (a1 & card1 & -> & Hin & Hv & Hlt)];
             [by left|right].
           exists a1, card1.
           split_and!; [done|by apply list_elem_of_further|done|lia].
    + destruct (IH hv b Hwf) as (r & hv' & -> & Hle & Hmax & Hr).
      exists r, hv'. split_and!; [done|lia| |].
      * intros a1 card1 Hin. apply elem_of_cons in Hin as [Heq | Hin].
        -- exfalso. apply Hn, Hd. by eauto.
        -- by eapply Hmax.
      * destruct Hr as [[-> ->] | (a1 & card1 & -> & Hin & Hv & Hlt)];
          [by left|right].
        exists a1, card1.
        split_and!; [done|by apply list_elem_of_further|done|lia].
Qed.

(** What [ChooseAction] returns on an offer of well-formed actions. *)
Lemma ChooseAction_spec (gs : ClientGameState) (acts : list Action) :
  cgs_PossibleActions gs = _serializeActions acts →
  Forall well_formed_action acts →
  (acts = [] → ChooseAction gs = Ok None)
  ∧ (acts ≠ [] →
     ∃ a,
       ChooseAction gs = Ok (Some a)
       ∧ a ∈ acts
       ∧ (∀ b, b ∈ acts → (action_rank a ≤ action_rank b)%nat)
       ∧ (∀ a0 card,
            a = ActionDiscardCard a0 card →
            (∀ b0 card', ActionDiscardCard b0 card' ∈ acts →
                         PenaltyValue card' ≤ PenaltyValue card)
            ∨ (head acts = Some a
               ∧ ∀ b0 card', ActionDiscardCard b0 card' ∈ acts →
                             PenaltyValue card' < 0))).
Proof.
  intros Hpa Hwf. unfold ChooseAction. rewrite Hpa. split.
  { by intros ->. }
  intros Hne.
  assert (Hnames : Forall (λ a, GetName a = variant_name a) acts).
  { eapply Forall_impl; [done|]. by intros a (? & _). }
  destruct acts as [|a1 [|a2 acts]]; [done| |].
  - cbn [_serializeActions fmap list_fmap].
    change ([SerializeAction a1]) with (_serializeActions [a1]).
    rewrite _deserializeActions_Ok by done.
    cbn [mbind result_bind first_action fmap list_fmap].
    exists a1. split_and!; [done|apply list_elem_of_here| |].
    + intros b Hb. by apply list_elem_of_singleton in Hb as ->.
    + intros a0 card ->. left. intros b0 card' Hb.
      apply list_elem_of_singleton in Hb. by simplify_eq.
  - cbn [_serializeActions fmap list_fmap].
    change (SerializeAction a1 :: SerializeAction a2 :: (SerializeAction <$> acts))
      with (_serializeActions (a1 :: a2 :: acts)).
    set (l := a1 :: a2 :: acts) in *.
    rewrite _deserializeActions_Ok by done.
    cbn [mbind result_bind].
    rewrite (first_named_Some CONFIRM_ROUND_FINISHED).
    cbn [mbind result_bind].
    destruct (head (filter _ l)) as [a|] eqn:E1.
    { apply head_filter_Some in E1 as [Hin Hn].
      exists a. split_and!; [done|done| |].
      - intros b Hb. rank_facts.
      - intros a0 card ->. exfalso.
        eapply Forall_forall in Hnames; [|exact Hin].
        rewrite Hn in Hnames. by vm_compute in Hnames. }
    apply head_filter_None in E1.
    rewrite (first_named_Some DRAW_FROM_DISCARD). cbn [mbind result_bind].
    destruct (head (filter _ l)) as [a|] eqn:E2.
    { apply head_filter_Some in E2 as [Hin Hn].
      exists a. split_and!; [done|done| |].
      - intros b Hb. eapply Forall_forall in E1; [|exact Hb]. rank_facts.
      - intros a0 card ->. exfalso.
        eapply Forall_forall in Hnames; [|exact Hin].
        rewrite Hn in Hnames. by vm_compute in Hnames. }
    apply head_filter_None in E2.
    rewrite (first_named_Some DRAW_FROM_DECK). cbn [mbind result_bind].
    destruct (head (filter _ l)) as [a|] eqn:E3.
    { apply head_filter_Some in E3 as [Hin Hn].
      exists a. split_and!; [done|done| |].
      - intros b Hb. eapply Forall_forall in E1; [|exact Hb].
        eapply Forall_forall in E2; [|exact Hb]. rank_facts.
      - intros a0 card ->. exfalso.
        eapply Forall_forall in Hnames; [|exact Hin].
        rewrite Hn in Hnames. by vm_compute in Hnames. }
    apply head_filter_None in E3.
    rewrite (first_named_Some CLOSE_ROUND). cbn [mbind result_bind].
    destruct (head (filter _ l)) as [a|] eqn:E4.
    { apply head_filter_Some in E4 as [Hin Hn].
      exists a. split_and!; [done|done| |].
      - intros b Hb. eapply Forall_forall in E1; [|exact Hb].
        eapply Forall_forall in E2; [|exact Hb].
        eapply Forall_forall in E3; [|exact Hb]. rank_facts.
      - intros a0 card ->. exfalso.
        eapply Forall_forall in Hnames; [|exact Hin].
        rewrite Hn in Hnames. by vm_compute in Hnames. }
    apply head_filter_None in E4.
    assert (Hrank : ∀ b, b ∈ l → action_rank b = 4%nat).
    { intros b Hb. eapply Forall_forall in E1; [|exact Hb].
      eapply Forall_forall in E2; [|exact Hb].
      eapply Forall_forall in E3; [|exact Hb].
      eapply Forall_forall in E4; [|exact Hb]. rank_facts. }
    destruct (best_discard_spec l (-1) None Hnames)
      as (r & hv' & -> & Hle & Hmax & Hr).
    cbn [mbind result_bind].
    destruct Hr as [[-> ->] | (a0 & card & -> & Hin & Hv & Hlt)].
    + cbn [first_action fmap list_fmap l].
      exists a1. split_and!; [done|apply list_elem_of_here| |].
      * intros b Hb. rewrite !Hrank; [done|done|apply list_elem_of_here].
      * intros a0 card ->. right. split; [done|].
        intros b0 card' Hb. specialize (Hmax _ _ Hb). lia.
    + exists (ActionDiscardCard a0 card). split_and!; [done|done| |].
      * intros b Hb. by rewrite !Hrank.
      * intros a0' card0 [= <- <-]. left. intros b0 card' Hb.
        specialize (Hmax _ _ Hb). lia.
Qed.

(** X16. With no action on offer [ChooseAction] returns nil.  Otherwise,
    when the offer is a list of well-formed actions written by
    [_serializeActions], it returns one of them: a confirmation if there is
    one, else a draw from the discard pile, else a draw from the deck, else
    a close, and else a discard.  That discard is of a card whose penalty
    value no discard on offer exceeds, unless every discard on offer has a
    negative penalty value: then it is the first action on offer. *)
Theorem ChooseAction_chooses (gs : ClientGameState) (acts : list Action) :
  cgs_PossibleActions gs = _serializeActions acts →
  Forall well_formed_action acts →
  (acts = [] → ChooseAction gs = Ok None)
  ∧ (acts ≠ [] →
     ∃ a,
       ChooseAction gs = Ok (Some a)
       ∧ a ∈ acts
       ∧ (∀ b, b ∈ acts → (action_rank a ≤ action_rank b)%nat)
       ∧ (∀ a0 card,
            a = ActionDiscardCard a0 card →
            (∀ b0 card', ActionDiscardCard b0 card' ∈ acts →
                         PenaltyValue card' ≤ PenaltyValue card)
            ∨ (head acts = Some a
               ∧ ∀ b0 card', ActionDiscardCard b0 card' ∈ acts →
                             PenaltyValue card' < 0))).
Proof. apply ChooseAction_spec. Qed.

Lemma ChooseAction_chooses_witness :
  ∃ a, ChooseAction sample_client = Ok (Some a) ∧ a ∈ sample_offer.
Proof.
  destruct (ChooseAction_chooses sample_client sample_offer eq_refl)
    as [_ H].
  { repeat constructor; by vm_compute. }
  destruct H as (a & Ha & Hin & _); [done|]. by exists a.
Defined.

(** The client state of a player, in a state of the data model. *)
Lemma ToClientGameState_Ok g v o acts :
  wf_state g → oracle_ok g o → v = 0 ∨ v = 1 →
  CalculatePossibleActions g = Ok acts →
  ∃ cgs,
    ToClientGameState g v o = Ok cgs
    ∧ cgs_PossibleActions cgs
      = _serializeActions (filter (λ a, GetPlayerID a = v) acts)
    ∧ cgs_TopDiscardCard cgs = last (DiscardPile g)
    ∧ (∃ rl, round_log g = Some rl
             ∧ cgs_LastActionLog cgs = last (rl_ActionsLog rl))
    ∧ cgs_YourHand cgs = hand_cards g v.
Proof.
  intros Hwf Hok Hv Hc.
  destruct (oracle_ok_inv g o Hwf Hok) as (Hopp & _ & _).
  destruct (wf_state_inv g Hwf)
    as (h0 & s0 & h1 & s1 & rl & HP & Hh0 & Hh1 & _ & _ & Hrl & Hrl' & _ & _).
  unfold ToClientGameState.
  rewrite Hc, (OpponentOf_two o g _ _ v HP Hopp Hv), Hrl.
  cbn [mbind result_bind]. rewrite HP.
  destruct Hv as [-> | ->].
  - change (({[ 0 := MkPlayer (Some h0) s0; 1 := MkPlayer (Some h1) s1 ]}
               : gmap Z Player) !! 0) with (Some (MkPlayer (Some h0) s0)).
    change (({[ 0 := MkPlayer (Some h0) s0; 1 := MkPlayer (Some h1) s1 ]}
               : gmap Z Player) !! (1 - 0))
      with (Some (MkPlayer (Some h1) s1)).
    cbn [deref mbind result_bind hand].
    eexists. split; [reflexivity|]. cbn. split_and!; try done. by eauto.
  - change (({[ 0 := MkPlayer (Some h0) s0; 1 := MkPlayer (Some h1) s1 ]}
               : gmap Z Player) !! 1) with (Some (MkPlayer (Some h1) s1)).
    change (({[ 0 := MkPlayer (Some h0) s0; 1 := MkPlayer (Some h1) s1 ]}
               : gmap Z Player) !! (1 - 1))
      with (Some (MkPlayer (Some h0) s0)).
    cbn [deref mbind result_bind hand].
    eexists. split; [reflexivity|]. cbn. split_and!; try done. by eauto.
Qed.

(** The legal moves of a state of the invariant are well-formed actions. *)
Lemma legal_moves_well_formed g acts :
  base_inv g →
  CalculatePossibleActions g = Ok acts →
  Forall well_formed_action acts.
Proof.
  intros Hb Hc. pose proof (base_inv_wf g Hb) as Hwf.
  destruct (wf_turn_player g Hwf) as (h & s & Hp).
  destruct (CalculatePossibleActions_spec g h s Hp) as (cc & _ & Hc').
  rewrite Hc' in Hc. simplify_eq.
  assert (Hid : ∀ id, id = 0 ∨ id = 1 → GoInt.is_int id).
  { intros id [-> | ->]; by vm_compute. }
  assert (Ht : (TurnPlayerID g = 0 ∨ TurnPlayerID g = 1)
               ∧ (TurnOpponentPlayerID g = 0 ∨ TurnOpponentPlayerID g = 1)).
  { destruct (wf_turn g Hwf) as [[-> ->] | [-> ->]]; by auto. }
  destruct Ht as [Ht Hu].
  assert (Hcards : int_cards (Cards h)).
  { destruct (wf_ints g Hwf) as [Hi0 Hi1]. unfold hand_cards in *.
    destruct Ht as [E | E]; rewrite E in Hp; rewrite Hp in *; done. }
  assert (Hsuits : ∀ c, c ∈ Cards h → ValidString (Suit c) = true).
  { intros c Hc. apply suits_ValidString.
    apply (spanishCards_elem_of c). rewrite <- (inv_cards g Hb).
    unfold all_cards. rewrite !elem_of_app. unfold hand_cards.
    destruct Ht as [E | E]; rewrite E in Hp; rewrite Hp; by auto. }
  apply Forall_forall. intros a Ha.
  apply list_elem_of_filter in Ha as [_ Ha].
  unfold allActions_of in Ha.
  rewrite !elem_of_app in Ha. unfold well_formed_action.
  destruct Ha as [Ha | [Ha | [Ha | Ha]]].
  - destruct (_ && _); [|by apply elem_of_nil in Ha].
    rewrite !elem_of_cons, elem_of_nil in Ha.
    destruct Ha as [-> | [-> | []]]; (split_and!; [done|by apply Hid|done]).
  - destruct (_ && _); [|by apply elem_of_nil in Ha].
    apply list_elem_of_fmap in Ha as (c & -> & Hc).
    split_and!; [done|by apply (Hid (TurnPlayerID g))|].
    cbn [NewActionDiscardCard]. split; [|by apply Hsuits].
    by eapply Forall_forall in Hcards.
  - destruct (_ && _); [|by apply elem_of_nil in Ha].
    apply list_elem_of_singleton in Ha as ->.
    split_and!; [done|by apply Hid|done].
  - rewrite !elem_of_cons, elem_of_nil in Ha.
    destruct Ha as [-> | [-> | []]]; (split_and!; [done|by apply Hid|done]).
Qed.

(** The legal moves once the player to act has drawn: to discard any card
    of the hand. *)
Lemma legal_moves_drawn g h s :
  Players g !! TurnPlayerID g = Some (MkPlayer (Some h) s) →
  IsGameEnded g = false → IsRoundFinished g = false →
  HasDrawnCard g = true →
  length (Cards h) ≠ 7%nat →
  CalculatePossibleActions g
  = Ok ((λ card, NewActionDiscardCard card (TurnPlayerID g)) <$> Cards h).
Proof.
  intros Hp He Hf Hd Hlen.
  destruct (CalculatePossibleActions_spec g h s Hp) as (cc & Hcc & ->).
  rewrite (CanClose_length g _ h s Hp Hlen) in Hcc. simplify_eq.
  f_equal. unfold allActions_of. rewrite Hd, Hf.
  cbn [negb andb app]. rewrite filter_app.
  assert (E3 : ∀ id, is_possible g (NewActionConfirmRoundFinished id) = false).
  { intros id. unfold is_possible.
    cbn [IsPossible NewActionConfirmRoundFinished].
    unfold ActionConfirmRoundFinished_IsPossible. by rewrite Hf. }
  rewrite (filter_none _ [_; _]) by (repeat constructor; by rewrite E3).
  rewrite app_nil_r. apply filter_all.
  apply Forall_forall. intros a Ha.
  apply list_elem_of_fmap in Ha as (c & -> & Hc).
  unfold is_possible. cbn [IsPossible NewActionDiscardCard].
  unfold ActionDiscardCard_IsPossible.
  rewrite He, Hf, Hd. cbn [orb negb PlayerID].
  rewrite bool_decide_eq_false_2 by (by intros []).
  rewrite Hp. cbn [deref mbind result_bind hand].
  rewrite HasCard_elem_of. by rewrite bool_decide_eq_true_2.
Qed.

(** The penalty value of a card of the deck is positive. *)
Lemma PenaltyValue_pos c : 1 ≤ Number c → 1 ≤ PenaltyValue c.
Proof.
  intros Hn. unfold PenaltyValue.
  destruct (Z.geb_spec (Number c) 10); lia.
Qed.

(** The legal moves before the player to act has drawn. *)
Lemma legal_moves_not_drawn g h s acts :
  Players g !! TurnPlayerID g = Some (MkPlayer (Some h) s) →
  IsGameEnded g = false → IsRoundFinished g = false →
  HasDrawnCard g = false → DiscardPile g ≠ [] →
  CalculatePossibleActions g = Ok acts →
  NewActionDrawFromDiscard (TurnPlayerID g) ∈ acts
  ∧ ∀ a, a ∈ acts →
         a = NewActionDrawFromDeck (TurnPlayerID g)
         ∨ a = NewActionDrawFromDiscard (TurnPlayerID g).
Proof.
  intros Hp He Hf Hd Hdp Hc.
  destruct (CalculatePossibleActions_spec g h s Hp) as (cc & _ & Hc').
  rewrite Hc' in Hc. simplify_eq.
  unfold allActions_of. rewrite Hd, Hf, andb_false_r. cbn [negb andb app].
  split.
  - apply list_elem_of_filter. split.
    + unfold is_possible. cbn [IsPossible NewActionDrawFromDiscard].
      unfold ActionDrawFromDiscard_IsPossible.
      rewrite He, Hf, Hd. cbn [orb PlayerID].
      rewrite bool_decide_eq_false_2 by (by intros []).
      rewrite bool_decide_eq_true_2; [done|].
      destruct (DiscardPile g); [done|simpl; lia].
    + apply list_elem_of_further, list_elem_of_here.
  - intros a Ha. apply list_elem_of_filter in Ha as [Hposs Ha].
    rewrite !elem_of_cons, elem_of_nil in Ha.
    destruct Ha as [-> | [-> | [-> | [-> | []]]]]; [by left|by right| |];
      exfalso; unfold is_possible in Hposs;
      cbn [IsPossible NewActionConfirmRoundFinished] in Hposs;
      unfold ActionConfirmRoundFinished_IsPossible in Hposs;
      by rewrite Hf in Hposs.
Qed.

(** The bot on the engine, for the player to act. *)
Lemma bot_move g o :
  reachable g → oracle_ok g o → IsGameEnded g = false →
  ∃ cgs a g',
    ToClientGameState g (TurnPlayerID g) o = Ok cgs
    ∧ ChooseAction cgs = Ok (Some a)
    ∧ RunAction g (Some a) o = Ok g'
    ∧ if HasDrawnCard g
      then ∃ card,
             a = NewActionDiscardCard card (TurnPlayerID g)
             ∧ card ∈ hand_cards g (TurnPlayerID g)
             ∧ Forall (λ c, PenaltyValue c ≤ PenaltyValue card)
                      (hand_cards g (TurnPlayerID g))
      else a = NewActionDrawFromDiscard (TurnPlayerID g).
Proof.
  intros Hr Hok He. pose proof (reachable_inv g Hr) as Hinv.
  pose proof (inv_base g Hinv) as Hb.
  pose proof (base_inv_wf g Hb) as Hwf.
  pose proof (inv_not_finished g Hb) as Hf.
  destruct (inv_actions g Hinv) as (acts & Hacts & _).
  destruct (inv_hands g Hinv He) as (Hh1 & _ & Hh3).
  destruct (wf_turn_player g Hwf) as (h & s & Hp).
  assert (Eh : hand_cards g (TurnPlayerID g) = Cards h)
    by (unfold hand_cards; by rewrite Hp).
  rewrite Eh in *.
  assert (Ht : TurnPlayerID g = 0 ∨ TurnPlayerID g = 1).
  { destruct (wf_turn g Hwf) as [[-> _] | [-> _]]; by auto. }
  destruct (ToClientGameState_Ok g _ o acts Hwf Hok Ht Hacts)
    as (cgs & Hcgs & Hpa & _).
  pose proof (legal_moves_of_turn_player g h s acts Hp Hf Hacts) as Hall.
  rewrite (filter_all _ _ Hall) in Hpa.
  pose proof (legal_moves_well_formed g acts Hb Hacts) as Hwfa.
  destruct (ChooseAction_spec cgs acts Hpa Hwfa) as [_ Hch].
  assert (Hne : acts ≠ []).
  { destruct (HasDrawnCard g) eqn:Hd.
    - rewrite (legal_moves_drawn g h s Hp He Hf Hd) in Hacts by lia.
      simplify_eq. destruct (Cards h); [simpl in Hh1; lia|done].
    - destruct (legal_moves_not_drawn g h s acts Hp He Hf Hd (Hh3 eq_refl)
                  Hacts) as [Hin _].
      intros ->. by apply elem_of_nil in Hin. }
  destruct (Hch Hne) as (a & Ha & Hin & Hrank & Hmax).
  pose proof (CalculatePossibleActions_possible g acts a Hacts Hin) as Hposs.
  assert (Hpid : GetPlayerID a = TurnPlayerID g)
    by (by eapply Forall_forall in Hall).
  destruct (RunAction_step g a o Hinv Hok He Hpid Hposs) as (g' & Hg' & _).
  exists cgs, a, g'. split_and!; try done.
  destruct (HasDrawnCard g) eqn:Hd.
  - rewrite (legal_moves_drawn g h s Hp He Hf Hd) in Hacts by lia.
    simplify_eq.
    apply list_elem_of_fmap in Hin as (card & -> & Hcard).
    exists card. split_and!; [done|done|].
    apply Forall_forall. intros c Hc.
    assert (Hpos : -1 < PenaltyValue card).
    { assert (Hdeck : card ∈ spanishCards).
      { rewrite <- (inv_cards g Hb). unfold all_cards.
        rewrite !elem_of_app. unfold hand_cards.
        destruct Ht as [E | E]; rewrite E in Hp; rewrite Hp; by auto. }
      apply spanishCards_elem_of in Hdeck as [_ Hn].
      pose proof (PenaltyValue_pos card). lia. }
    destruct (Hmax _ card eq_refl) as [Hm | [_ Hneg]].
    + apply (Hm (MkAct DISCARD_CARD (TurnPlayerID g)) c).
      apply list_elem_of_fmap. by exists c.
    + exfalso.
      assert (Hlt : PenaltyValue card < 0); [|lia].
      apply (Hneg (MkAct DISCARD_CARD (TurnPlayerID g)) card).
      apply list_elem_of_fmap. by exists card.
  - destruct (legal_moves_not_drawn g h s acts Hp He Hf Hd (Hh3 eq_refl)
                Hacts) as [Hdisc Hboth].
    destruct (Hboth a Hin) as [-> | ->]; [|done].
    specialize (Hrank _ Hdisc). vm_compute in Hrank. lia.
Qed.

(** X17. The example bot plays the engine's game: in every reachable state
    whose game goes on, the bot, given the client state of the player to
    act, chooses an action that [RunAction] accepts.  Before the draw it
    takes the card of the discard pile; after the draw it discards a card of
    the hand of the highest penalty value. *)
Theorem bot_move_accepted (g : GameState) (o : Oracle) :
  reachable g →
  oracle_ok g o →
  IsGameEnded g = false →
  ∃ cgs a g',
    ToClientGameState g (TurnPlayerID g) o = Ok cgs
    ∧ ChooseAction cgs = Ok (Some a)
    ∧ RunAction g (Some a) o = Ok g'
    ∧ if HasDrawnCard g
      then ∃ card,
             a = NewActionDiscardCard card (TurnPlayerID g)
             ∧ card ∈ hand_cards g (TurnPlayerID g)
             ∧ Forall (λ c, PenaltyValue c ≤ PenaltyValue card)
                      (hand_cards g (TurnPlayerID g))
      else a = NewActionDrawFromDiscard (TurnPlayerID g).
Proof. apply bot_move. Qed.

Lemma bot_move_accepted_witness :
  ∃ cgs a g',
    ToClientGameState sample_drawn (TurnPlayerID sample_drawn) sample_oracle
    = Ok cgs
    ∧ ChooseAction cgs = Ok (Some a)
    ∧ RunAction sample_drawn (Some a) sample_oracle = Ok g'.
Proof.
  destruct (bot_move_accepted sample_drawn sample_oracle
              sample_drawn_reachable)
    as (cgs & a & g' & H1 & H2 & H3 & _).
  - solve_oracle_ok.
  - by vm_compute.
  - exists cgs, a, g'. split_and!; assumption.
Defined.

(** X18. A player who is not to act, or any player once the game is ended,
    is offered no action, and the bot returns the nil action. *)
Theorem bot_waits (g : GameState) (o : Oracle) (v : Z) :
  reachable g →
  oracle_ok g o →
  v = 0 ∨ v = 1 →
  v = TurnOpponentPlayerID g ∨ IsGameEnded g = true →
  ∃ cgs,
    ToClientGameState g v o = Ok cgs
    ∧ cgs_PossibleActions cgs = []
    ∧ ChooseAction cgs = Ok None.
Proof.
  intros Hr Hok Hv Hcase. pose proof (reachable_inv g Hr) as Hinv.
  pose proof (inv_base g Hinv) as Hb.
  pose proof (base_inv_wf g Hb) as Hwf.
  pose proof (inv_not_finished g Hb) as Hf.
  destruct (inv_actions g Hinv) as (acts & Hacts & _).
  destruct (wf_turn_player g Hwf) as (h & s & Hp).
  destruct (ToClientGameState_Ok g v o acts Hwf Hok Hv Hacts)
    as (cgs & Hcgs & Hpa & _).
  assert (Hnil : filter (λ a, GetPlayerID a = v) acts = []).
  { destruct Hcase as [-> | He].
    - pose proof (legal_moves_of_turn_player g h s acts Hp Hf Hacts) as Hall.
      apply filter_none. eapply Forall_impl; [done|].
      intros a Ha. cbn beta in Ha. rewrite Ha.
      destruct (wf_turn g Hwf) as [[-> ->] | [-> ->]]; done.
    - rewrite (CalculatePossibleActions_ended g h s Hp He) in Hacts.
      by simplify_eq. }
  rewrite Hnil in Hpa. exists cgs. split_and!; [done|done|].
  unfold ChooseAction. by rewrite Hpa.
Qed.

Lemma bot_waits_witness :
  ∃ cgs, ToClientGameState sample_drawn 1 sample_oracle = Ok cgs
         ∧ ChooseAction cgs = Ok None.
Proof.
  destruct (bot_waits sample_drawn sample_oracle 1 sample_drawn_reachable)
    as (cgs & H1 & _ & H2).
  - solve_oracle_ok.
  - by right.
  - left. by vm_compute.
  - exists cgs. split; assumption.
Defined.

#[local] Arguments IsChinchon : simpl never.
#[local] Arguments ValidGroups : simpl never.
#[local] Arguments PenaltyPoints : simpl never.
#[local] Arguments GoInt.add : simpl never.
#[local] Arguments CanClose : simpl never.
#[local] Arguments CalculatePossibleActions : simpl never.
#[local] Arguments makeSpanishCards : simpl never.
#[local] Arguments DeserializeAction : simpl never.
#[local] Arguments SerializeAction : simpl never.

(** ** Further properties: the log of the round *)

Lemma log_action_entry a g rl :
  GetName a ≠ CONFIRM_ROUND_FINISHED →
  current_RoundLog g = Ok rl →
  ∃ rls,
    log_action a g = Ok (set_RoundsLog rls g)
    ∧ current_RoundLog (set_RoundsLog rls g)
      = Ok (set_rl_ActionsLog
              (rl_ActionsLog rl
                 ++ [MkActionLog (TurnPlayerID g) (SerializeAction a)]) rl).
Proof.
  intros Hn Hcur. unfold log_action, update_RoundLog.
  rewrite bool_decide_eq_true_2 by done. rewrite Hcur.
  cbn [mbind result_bind]. eexists. split; [reflexivity|].
  unfold current_RoundLog in *.
  replace (RoundNumber (set_RoundsLog _ g)) with (RoundNumber g)
    by by destruct g.
  replace (RoundsLog (set_RoundsLog _ g))
    with (<[Z.to_nat (RoundNumber g) :=
              set_rl_ActionsLog
                (rl_ActionsLog rl
                   ++ [MkActionLog (TurnPlayerID g) (SerializeAction a)]) rl]>
            (RoundsLog g)) by by destruct g.
  case_bool_decide; [|done].
  destruct (RoundsLog g !! Z.to_nat (RoundNumber g)) as [rl0|] eqn:E; [|done].
  rewrite list_lookup_insert_eq by by eapply lookup_lt_Some.
  reflexivity.
Qed.

Lemma ToClientGameState_LastActionLog g v o cgs rl :
  ToClientGameState g v o = Ok cgs → current_RoundLog g = Ok rl →
  cgs_LastActionLog cgs = last (rl_ActionsLog rl).
Proof.
  unfold ToClientGameState. intros H Hcur. rewrite Hcur in H.
  destruct (CalculatePossibleActions g); cbn [mbind result_bind] in H;
    [|done..].
  destruct (deref (Players g !! v)) as [you| |];
    cbn [mbind result_bind] in H; [|done..].
  destruct (deref (Players g !! OpponentOf o g v)) as [them| |];
    cbn [mbind result_bind] in H; [|done..].
  destruct (deref (hand you)); cbn [mbind result_bind] in H; [|done..].
  destruct (deref (hand them)); cbn [mbind result_bind] in H; [|done..].
  by injection H as <-.
Qed.

Lemma RunAction_log_entry g a o g' :
  game_inv g → oracle_ok g o →
  GetName a ≠ CONFIRM_ROUND_FINISHED →
  RunAction g (Some a) o = Ok g' →
  ∃ rl,
    current_RoundLog g = Ok rl
    ∧ current_RoundLog g'
      = Ok (set_rl_ActionsLog
              (rl_ActionsLog rl
                 ++ [MkActionLog (TurnPlayerID g) (SerializeAction a)]) rl).
Proof.
  intros Hinv Hok Hn Hrun.
  destruct (RunAction_Ok_inv g a o g' Hinv Hrun) as (He & Hpid & Hposs).
  destruct (Run_inv a g o (inv_base g Hinv) (inv_hands g Hinv He) He Hpid
              Hposs)
    as (g1 & h0 & h1 & Hrun1 & _ & Ht1 & _ & Hr1 & Hl1 & _).
  destruct (RunAction_cases g a o g' Hinv Hok Hrun)
    as (g1' & rls & Hrun1' & Hlog & _ & _ & Hcases).
  assert (g1' = g1) as -> by congruence.
  assert (Hlen : length (RoundsLog g) = 2%nat) by apply (inv_base g Hinv).
  assert (Hrn : RoundNumber g = 1) by apply (inv_base g Hinv).
  assert (∃ rl, current_RoundLog g = Ok rl) as [rl Hcur].
  { unfold current_RoundLog. rewrite Hrn.
    destruct (RoundsLog g) as [|r0 [|r1 [|]]]; try done. by eexists. }
  assert (Hcur1 : current_RoundLog g1 = Ok rl).
  { unfold current_RoundLog in *. by rewrite Hr1, Hl1, <- Hrn. }
  destruct (log_action_entry a g1 rl Hn Hcur1) as (rls' & Hlog' & Hcur').
  rewrite Hlog in Hlog'.
  assert (rls' = rls) as ->.
  { by injection Hlog' as ->. }
  rewrite Ht1 in Hcur'.
  exists rl. split; [done|]. rewrite <- Hcur'.
  cbv zeta in Hcases.
  unfold current_RoundLog.
  destruct Hcases as [(_ & acts & _ & ->) | (_ & l & _ & ->)];
    destruct (YieldsTurn a g); by destruct g1.
Qed.

(** X19. An accepted move is narrated to both players: after [RunAction]
    accepts, in a state reached by play, an action whose name is not
    [CONFIRM_ROUND_FINISHED], the log of the current round is the log it
    was with one entry appended, which holds the player who moved and the
    serialized action; and every view [ToClientGameState] gives of the new
    state reports that entry as its last action. *)
Theorem RunAction_narrates (g : GameState) (a : Action) (o : Oracle)
    (g' : GameState) :
  reachable g → oracle_ok g o →
  GetName a ≠ CONFIRM_ROUND_FINISHED →
  RunAction g (Some a) o = Ok g' →
  let entry := MkActionLog (TurnPlayerID g) (SerializeAction a) in
  (∃ rl,
     current_RoundLog g = Ok rl
     ∧ current_RoundLog g'
       = Ok (set_rl_ActionsLog (rl_ActionsLog rl ++ [entry]) rl))
  ∧ ∀ v o' cgs,
      ToClientGameState g' v o' = Ok cgs →
      cgs_LastActionLog cgs = Some entry.
Proof.
  intros Hreach Hok Hn Hrun entry.
  destruct (RunAction_log_entry g a o g' (reachable_inv g Hreach) Hok Hn Hrun)
    as (rl & Hcur & Hcur').
  split; [by exists rl|].
  intros v o' cgs Hview.
  rewrite (ToClientGameState_LastActionLog g' v o' cgs _ Hview Hcur').
  cbn [rl_ActionsLog set_rl_ActionsLog]. apply last_snoc.
Qed.

Lemma RunAction_narrates_witness :
  (∃ rl,
     current_RoundLog sample_new = Ok rl
     ∧ current_RoundLog sample_drawn
       = Ok (set_rl_ActionsLog
               (rl_ActionsLog rl
                  ++ [MkActionLog (TurnPlayerID sample_new)
                        (SerializeAction (NewActionDrawFromDiscard 0))]) rl))
  ∧ ∀ v o' cgs,
      ToClientGameState sample_drawn v o' = Ok cgs →
      cgs_LastActionLog cgs
      = Some (MkActionLog (TurnPlayerID sample_new)
                (SerializeAction (NewActionDrawFromDiscard 0))).
Proof.
  apply (RunAction_narrates sample_new (NewActionDrawFromDiscard 0)
           sample_oracle sample_drawn sample_new_reachable
           sample_new_oracle_ok).
  - by vm_compute.
  - by vm_compute.
Defined.

(** ** Further properties: the stored offer *)

Lemma PossibleActions_stored g o v :
  game_inv g → oracle_ok g o → v = 0 ∨ v = 1 →
  ∃ acts cgs,
    CalculatePossibleActions g = Ok acts
    ∧ PossibleActions g = _serializeActions acts
    ∧ ToClientGameState g v o = Ok cgs
    ∧ cgs_PossibleActions cgs
      = (if bool_decide (v = TurnPlayerID g) then PossibleActions g else []).
Proof.
  intros Hinv Hok Hv.
  pose proof (inv_base g Hinv) as Hb.
  pose proof (base_inv_wf g Hb) as Hwf.
  pose proof (inv_not_finished g Hb) as Hf.
  destruct (inv_actions g Hinv) as (acts & Hacts & Hstored).
  destruct (wf_turn_player g Hwf) as (h & s & Hp).
  destruct (ToClientGameState_Ok g v o acts Hwf Hok Hv Hacts)
    as (cgs & Hcgs & Hpa & _).
  pose proof (legal_moves_of_turn_player g h s acts Hp Hf Hacts) as Hall.
  exists acts, cgs. split_and!; [done..|].
  rewrite Hpa. case_bool_decide as Hturn.
  - subst v. by rewrite (filter_all _ _ Hall).
  - rewrite filter_none; [done|].
    eapply Forall_impl; [exact Hall|].
    intros a Ha. cbn beta in Ha. by rewrite Ha.
Qed.

(** X20. The offer stored in a state reached by play is up to date: the
    field [PossibleActions] is the serialization of what
    [CalculatePossibleActions] returns on that state, the view of the
    player to act carries exactly that list, and the view of the other
    player carries none. *)
Theorem PossibleActions_in_sync (g : GameState) (o : Oracle) (v : Z) :
  reachable g → oracle_ok g o → v = 0 ∨ v = 1 →
  ∃ acts cgs,
    CalculatePossibleActions g = Ok acts
    ∧ PossibleActions g = _serializeActions acts
    ∧ ToClientGameState g v o = Ok cgs
    ∧ cgs_PossibleActions cgs
      = (if bool_decide (v = TurnPlayerID g) then PossibleActions g else []).
Proof.
  intros Hreach. apply PossibleActions_stored. by apply reachable_inv.
Qed.

Lemma PossibleActions_in_sync_witness :
  ∃ acts cgs,
    CalculatePossibleActions sample_drawn = Ok acts
    ∧ PossibleActions sample_drawn = _serializeActions acts
    ∧ ToClientGameState sample_drawn 0 sample_oracle = Ok cgs
    ∧ cgs_PossibleActions cgs
      = (if bool_decide (0 = TurnPlayerID sample_drawn)
         then PossibleActions sample_drawn else []).
Proof.
  apply (PossibleActions_in_sync sample_drawn sample_oracle 0
           sample_drawn_reachable).
  - solve_oracle_ok.
  - by left.
Defined.
